(** * De Bruijn graph assembler: a shallow embedding of [debruijn.py]

    The Python program builds a k-mer frequency table from reads, turns it
    into a weighted directed graph ([networkx.DiGraph]), removes bubbles and
    extracts contigs.  This development embeds those functions as Rocq
    functions and proves what they compute.

    Conventions of the embedding.
    - Python [str] values (reads, k-mers, node labels) are [list ascii].
    - A Python [dict] is an association list in insertion order: assigning to
      a key that is present replaces its value in place, assigning to a new
      key appends it.
    - A [DiGraph] is the list of its nodes in insertion order together with
      the list of its weighted edges in insertion order; this determines every
      iteration order of networkx that the program observes ([G.nodes],
      [G.predecessors], [G.successors], [G.edges]).  Every edge carries a
      [weight] attribute, as every edge added by [build_graph] does.
    - A Python exception is a [Raise] result.  The recursion of
      [simplify_bubbles] is bounded by a depth budget; a call that needs more
      nested calls than the budget has no result ([None]).
    - Python numbers, ints and floats, are the rationals they denote ([Q]).
      Edge weights are ints.  [statistics.mean] of ints is their arithmetic
      mean when that is an integer, and otherwise its conversion to a float:
      the binary64 number nearest to it ([float_of_Q]), or an
      [OverflowError].  The test [statistics.stdev(l) > 0] is the test that
      the exact variance of the numbers of [l] is positive.
    - The functions of networkx and of the [statistics] and [random] modules
      are modelled from their documented behaviour; where networkx versions
      differ on what the program observes, a parameter selects the
      behaviour.
    - A file that is read is the list of its lines; a file that is written
      is its name and its content.  A [StopIteration] that leaves the body of
      a generator reaches its consumer as a [RuntimeError] (Python 3.7 and
      later).  [textwrap.fill] is modelled on the texts that are a single
      word. *)

From Stdlib Require Import Ascii String DecimalString.
From Stdlib Require Import List Bool Arith ZArith QArith Qpower Qabs.
From Stdlib Require Import Lia Lqa Permutation.
Import ListNotations.

(** ** Exceptions *)

Inductive exn : Type :=
| StatisticsError      (* statistics.mean / statistics.stdev on too few data *)
| OverflowError        (* a quotient of ints too large for a float *)
| RuntimeError         (* StopIteration raised inside a generator *)
| IndexError           (* list or string index out of range *)
| TypeError            (* slice indices must be integers *)
| KeyError             (* missing dictionary key *)
| NetworkXError        (* LCA only defined on directed acyclic graphs *)
| NodeNotFound         (* a node given to a networkx algorithm is not in G *)
| NetworkXPointlessConcept (* LCA meaningless on null graphs *)
| ValueError.          (* max of an empty list, value absent from a list *)

Inductive result (A : Type) : Type :=
| Ok (a : A)
| Raise (e : exn).

Arguments Ok {A} a.
Arguments Raise {A} e.

Definition bind {A B : Type} (c : result A) (f : A -> result B) : result B :=
  match c with
  | Ok a => f a
  | Raise e => Raise e
  end.

Declare Scope result_scope.
Delimit Scope result_scope with result.
Notation "x <- c ;; k" := (bind c (fun x => k))
  (at level 61, c at next level, right associativity) : result_scope.
Open Scope result_scope.

(** [for x in l: acc = f(acc, x)] where the body may raise. *)
Fixpoint foldM {A B : Type} (f : A -> B -> result A) (l : list B) (acc : A)
  : result A :=
  match l with
  | [] => Ok acc
  | x :: l' => acc' <- f acc x ;; foldM f l' acc'
  end.

(** ** Strings *)

Definition str := list ascii.

Definition str_eq_dec : forall a b : str, {a = b} + {a <> b} :=
  list_eq_dec ascii_dec.

Definition str_eqb (a b : str) : bool :=
  if str_eq_dec a b then true else false.

Definition mem (x : str) (l : list str) : bool :=
  if in_dec str_eq_dec x l then true else false.

(** Literals: [s "TCA"] is the Python string ['TCA']. *)
Definition s (x : string) : str := list_ascii_of_string x.

(** ** Dictionaries *)

Definition dict := list (str * Z).

Fixpoint dict_get (d : dict) (k : str) : option Z :=
  match d with
  | [] => None
  | (k', v) :: d' => if str_eqb k' k then Some v else dict_get d' k
  end.

(** [d[k] = v] *)
Fixpoint dict_set (d : dict) (k : str) (v : Z) : dict :=
  match d with
  | [] => [(k, v)]
  | (k', v') :: d' =>
      if str_eqb k' k then (k', v) :: d' else (k', v') :: dict_set d' k v
  end.

(** [d[k] += 1] raises [KeyError] when [k] is absent. *)
Definition dict_incr (d : dict) (k : str) : result dict :=
  match dict_get d k with
  | Some c => Ok (dict_set d k (c + 1)%Z)
  | None => Raise KeyError
  end.

Definition keys (d : dict) : list str := map fst d.

(** ** Reading the reads *)

(** [c.isspace()] for a character with a code point below 256: tab, line
    feed, vertical tab, form feed, carriage return, the four separators
    28 to 31, space, next line (133) and no-break space (160). *)
Definition is_space (c : ascii) : bool :=
  let n := nat_of_ascii c in
  ((9 <=? n) && (n <=? 13) || (28 <=? n) && (n <=? 32) ||
   (n =? 133) || (n =? 160))%nat.

Fixpoint lstrip (x : str) : str :=
  match x with
  | [] => []
  | c :: x' => if is_space c then lstrip x' else x
  end.

(** [x.strip()] *)
Definition strip (x : str) : str := rev (lstrip (rev (lstrip x))).

(** How the body of a generator is left: its loop runs out of items, or a
    [next(file)] call inside the body finds no line.  The [StopIteration] of
    such a call ends the generator; from Python 3.7 on the consumer receives
    it as a [RuntimeError]. *)
Inductive generator_end : Type :=
| Exhausted
| Interrupted.

(** [read_fastq], on the lines that iterating the open file gives: the reads
    that the generator yields, and how it ends.  Each round takes one line
    for the [for] loop, yields the next one stripped, and skips two more. *)
Fixpoint read_fastq (lines : list str) : list str * generator_end :=
  match lines with
  | [] => ([], Exhausted)
  | _ :: [] => ([], Interrupted)
  | _ :: line :: after =>
      match after with
      | _ :: _ :: rest =>
          let (reads, e) := read_fastq rest in (strip line :: reads, e)
      | _ => ([strip line], Interrupted)
      end
  end.

(** ** Frequency table *)

(** [cut_kmer]: the generator yields [read[i:i+kmer_size]] for
    [i] in [range(len(read) - kmer_size + 1)]. *)
Definition cut_kmer (read : str) (kmer_size : nat) : list str :=
  map (fun i => firstn kmer_size (skipn i read))
      (seq 0 (length read + 1 - kmer_size)).

(** The loop of [build_kmer_dict] over the reads that the generator
    yields. *)
Definition build_kmer_dict_loop (reads : list str) (kmer_size : nat)
  : result dict :=
  foldM (fun kmer_counts seq =>
           let kmer_counts :=
             fold_left (fun d i => dict_set d i 0%Z) (cut_kmer seq kmer_size)
                       kmer_counts in
           foldM dict_incr (cut_kmer seq kmer_size) kmer_counts)
        reads [].

(** [build_kmer_dict]: [fastq_file] is the file, as the list of its lines.
    The [for] loop consumes [read_fastq(fastq_file)]; when the generator is
    interrupted, the loop receives [RuntimeError] after the last read and the
    table is not returned. *)
Definition build_kmer_dict (fastq_file : list str) (kmer_size : nat)
  : result dict :=
  let (reads, e) := read_fastq fastq_file in
  kmer_counts <- build_kmer_dict_loop reads kmer_size ;;
  match e with
  | Exhausted => Ok kmer_counts
  | Interrupted => Raise RuntimeError
  end.

(** ** Directed graphs (networkx.DiGraph) *)

(** Nodes are labels. *)
Abbreviation node := str (only parsing).
Definition edge := (node * node * Z)%type.

Record DiGraph : Type := mkDiGraph {
  nodes : list node;
  edges : list edge
}.

Definition src (e : edge) : node := fst (fst e).
Definition dst (e : edge) : node := snd (fst e).
Definition weight (e : edge) : Z := snd e.
Definition edge_key (e : edge) : node * node := fst e.

Definition empty_graph : DiGraph := mkDiGraph [] [].

(** Representation invariant of a networkx graph: nodes are unique, there is
    at most one edge per ordered pair, and edges join nodes of the graph. *)
Definition wf (g : DiGraph) : Prop :=
  NoDup (nodes g) /\
  NoDup (map edge_key (edges g)) /\
  forall e, In e (edges g) -> In (src e) (nodes g) /\ In (dst e) (nodes g).

Definition add_node (ns : list node) (n : node) : list node :=
  if mem n ns then ns else ns ++ [n].

Fixpoint set_edge (es : list edge) (u v : node) (w : Z) : list edge :=
  match es with
  | [] => [(u, v, w)]
  | e :: es' =>
      if str_eqb (src e) u && str_eqb (dst e) v
      then (src e, dst e, w) :: es'
      else e :: set_edge es' u v w
  end.

(** [G.add_edge(u, v, weight=w)] *)
Definition add_edge (g : DiGraph) (u v : node) (w : Z) : DiGraph :=
  mkDiGraph (add_node (add_node (nodes g) u) v) (set_edge (edges g) u v w).

(** [G.successors(n)] and [G.predecessors(n)], in dictionary order. *)
Definition successors (g : DiGraph) (n : node) : list node :=
  map dst (filter (fun e => str_eqb (src e) n) (edges g)).

Definition predecessors (g : DiGraph) (n : node) : list node :=
  map src (filter (fun e => str_eqb (dst e) n) (edges g)).

(** [G.remove_nodes_from(ns)]: nodes that are absent are skipped silently. *)
Definition remove_node (g : DiGraph) (n : node) : DiGraph :=
  mkDiGraph (filter (fun m => negb (str_eqb m n)) (nodes g))
            (filter (fun e => negb (str_eqb (src e) n) && negb (str_eqb (dst e) n))
                    (edges g)).

Definition remove_nodes_from (g : DiGraph) (ns : list node) : DiGraph :=
  fold_left remove_node ns g.

(** [build_graph]: [k[:-1]] is [removelast k] and [k[1:]] is [tl k]. *)
Definition build_graph (kmer_dict : dict) : DiGraph :=
  fold_left (fun graphique kv => add_edge graphique (removelast (fst kv)) (tl (fst kv)) (snd kv))
            kmer_dict empty_graph.

(** [remove_paths]: the four branches on the two flags, with the slices
    [path], [path[1:-1]], [path[1:]] and [path[:-1]]. *)
Definition remove_paths (graph : DiGraph) (path_list : list (list node))
           (delete_entry_node delete_sink_node : bool) : DiGraph :=
  fold_left
    (fun graph path =>
       if delete_entry_node && delete_sink_node then
         remove_nodes_from graph path
       else if negb delete_entry_node && negb delete_sink_node then
         remove_nodes_from graph (removelast (tl path))
       else if negb delete_entry_node && delete_sink_node then
         remove_nodes_from graph (tl path)
       else if delete_entry_node && negb delete_sink_node then
         remove_nodes_from graph (removelast path)
       else graph)
    path_list graph.

(** ** Floats *)

(** The integer nearest to [n / d], for [d > 0]; of two nearest integers the
    even one is taken. *)
Definition round_half_even (n d : Z) : Z :=
  let q := (n / d)%Z in
  match (2 * (n mod d) ?= d)%Z with
  | Lt => q
  | Gt => (q + 1)%Z
  | Eq => if Z.even q then q else (q + 1)%Z
  end.

(** [floor (log2 q)] for [q > 0]. *)
Definition Qlog2 (q : Q) : Z :=
  let l := (Z.log2 (Qnum q) - Z.log2 (Zpos (Qden q)))%Z in
  if Qle_bool (2 ^ l) q then l else (l - 1)%Z.

(** The binary64 numbers around [a > 0] are the multiples of [2 ^ ex], where
    [ex] is 52 below the binary exponent of [a], and at least -1074. *)
Definition quantum_exp (a : Q) : Z := Z.max (Qlog2 a - 52) (-1074).

(** The multiple of the quantum nearest to [a > 0]. *)
Definition round_to_quantum (a : Q) : Q :=
  let ex := quantum_exp a in
  let x := a / 2 ^ ex in
  inject_Z (round_half_even (Qnum x) (Zpos (Qden x))) * 2 ^ ex.

(** [float(q)] for a fraction [q], computed by Python as the true division
    of two ints: the binary64 number nearest to [q], the one with the even
    significand when two are equally near.  A result of magnitude
    [2 ^ 1024] or more is an [OverflowError]. *)
Definition float_of_Q (q : Q) : result Q :=
  if Qeq_bool q 0 then Ok 0
  else
    let f := round_to_quantum (Qabs q) in
    if Qle_bool (2 ^ 1024) f then Raise OverflowError
    else Ok (Qred (if Qle_bool 0 q then f else - f)).

(** ** The [statistics] module *)

Definition Qsum (l : list Q) : Q := fold_right Qplus 0 l.

Definition Qlen (l : list Q) : Q := inject_Z (Z.of_nat (length l)).

(** The exact mean of the data, as the module computes it with fractions
    on the way to the variance. *)
Definition Qmean (data : list Q) : result Q :=
  match data with
  | [] => Raise StatisticsError
  | _ => Ok (Qsum data / Qlen data)
  end.

(** [statistics.mean] on ints: the exact quotient of the sum by the count
    when it is an integer (the result is then an int), otherwise its
    conversion to a float. *)
Definition mean (data : list Z) : result Q :=
  match data with
  | [] => Raise StatisticsError
  | _ =>
      let total := fold_right Z.add 0%Z data in
      let n := Z.of_nat (length data) in
      if (total mod n =? 0)%Z then Ok (inject_Z (total / n))
      else float_of_Q (inject_Z total / inject_Z n)
  end.

(** Sum of squared deviations about [c]. *)
Definition sum_sq (c : Q) (data : list Q) : Q :=
  Qsum (map (fun x => (x - c) * (x - c)) data).

(** [statistics.variance]: at least two data points are required. *)
Definition variance (data : list Q) : result Q :=
  if (length data <? 2)%nat then Raise StatisticsError
  else
    xbar <- Qmean data ;;
    Ok (sum_sq xbar data / inject_Z (Z.of_nat (length data - 1))).

Definition Qlt_bool (a b : Q) : bool := negb (Qle_bool b a).

(** [statistics.stdev(data) > 0]: the square root of the variance is
    positive exactly when the variance is. *)
Definition stdev_gt_0 (data : list Q) : result bool :=
  v <- variance data ;; Ok (Qlt_bool 0 v).

(** [max(l)]: the first maximal element. *)
Fixpoint max_from (best : Q) (l : list Q) : Q :=
  match l with
  | [] => best
  | x :: l' => max_from (if Qlt_bool best x then x else best) l'
  end.

Definition py_max (l : list Q) : result Q :=
  match l with
  | [] => Raise ValueError
  | x :: l' => Ok (max_from x l')
  end.

(** [l.index(x)]: the first position holding a value equal to [x]. *)
Fixpoint index (l : list Q) (x : Q) : result nat :=
  match l with
  | [] => Raise ValueError
  | y :: l' => if Qeq_bool y x then Ok 0%nat else i <- index l' x ;; Ok (S i)
  end.

(** ** Best-path selection *)

(** A path is the list of its nodes. *)
Abbreviation path := (list str) (only parsing).

(** [l[:select] + l[select+1:]] *)
Definition drop_index {A : Type} (select : nat) (l : list A) : list A :=
  firstn select l ++ skipn (select + 1) l.

(** [select_best_path].  [randint a b] stands for the call
    [random.randint(a, b)] on the module's seeded generator.  In the last
    branch [select] is bound to an element of [path_list] (a list of nodes)
    and then used as a slice bound, which Python rejects. *)
Definition select_best_path (randint : nat -> nat -> nat)
           (graph : DiGraph) (path_list : list path)
           (path_length : list Z) (weight_avg_list : list Q)
           (delete_entry_node delete_sink_node : bool) : result DiGraph :=
  ecart_type_pos <- stdev_gt_0 weight_avg_list ;;
  path_list <-
    (if ecart_type_pos : bool then
       m <- py_max weight_avg_list ;;
       select <- index weight_avg_list m ;;
       Ok (drop_index select path_list)
     else
       longueur_pos <- stdev_gt_0 (map inject_Z path_length) ;;
       if longueur_pos : bool then
         m <- py_max (map inject_Z path_length) ;;
         select <- index (map inject_Z path_length) m ;;
         Ok (drop_index select path_list)
       else
         let number_path := randint 0%nat (length path_list) in
         match nth_error path_list number_path with
         | None => Raise IndexError
         | Some _ => Raise TypeError
         end) ;;
  Ok (remove_paths graph path_list delete_entry_node delete_sink_node).

(** ** Path metrics *)

(** [graph.subgraph(path).edges(data=True)]: the edges of [graph] with both
    end points among the nodes of [path], listed source by source in the
    node order of [graph]. *)
Definition subgraph_edges (graph : DiGraph) (path : path) : list edge :=
  flat_map
    (fun n => filter (fun e => str_eqb (src e) n && mem (dst e) path) (edges graph))
    (filter (fun n => mem n path) (nodes graph)).

Definition path_average_weight (graph : DiGraph) (path : path) : result Q :=
  mean (map weight (subgraph_edges graph path)).

(** ** networkx algorithms *)

(** Depth-first enumeration behind [nx.all_simple_paths]: [visited] is the
    path walked so far, ending in [cur]. *)
Fixpoint simple_paths_from (fuel : nat) (g : DiGraph) (target : node)
         (visited : list node) (cur : node) : list path :=
  match fuel with
  | O => []
  | S fuel' =>
      flat_map
        (fun child =>
           if mem child visited then []
           else if str_eqb child target then [visited ++ [child]]
           else simple_paths_from fuel' g target (visited ++ [child]) child)
        (successors g cur)
  end.

(** [nx.all_simple_paths(G, source, target)] with the default cutoff
    [len(G) - 1].  When the source is the target, networkx up to 3.2 yields
    nothing and networkx from 3.3 on yields the one-node path; the flag
    [trivial_path] tells which library is installed.  The program only calls
    the function with a target that is a node of [G]. *)
Definition all_simple_paths (trivial_path : bool) (g : DiGraph)
           (source target : node) : result (list path) :=
  if negb (mem source (nodes g)) then Raise NodeNotFound
  else if negb (mem target (nodes g)) then Raise NodeNotFound
  else if str_eqb source target
  then Ok (if trivial_path then [[source]] else [])
  else Ok (simple_paths_from (length (nodes g) - 1) g target [source] source).

(** Bounded search: is [v] reachable from [u] along at most [fuel] edges? *)
Fixpoint reach (fuel : nat) (g : DiGraph) (u v : node) : bool :=
  str_eqb u v ||
  match fuel with
  | O => false
  | S fuel' => existsb (fun x => reach fuel' g x v) (successors g u)
  end.

(** [nx.has_path(G, source, target)] *)
Definition has_path (g : DiGraph) (source target : node) : result bool :=
  if negb (mem source (nodes g)) || negb (mem target (nodes g))
  then Raise NodeNotFound
  else Ok (reach (length (nodes g)) g source target).

(** Topological peeling: drop the nodes that have no predecessor left. *)
Fixpoint peel (fuel : nat) (g : DiGraph) (remaining : list node) : list node :=
  match fuel with
  | O => remaining
  | S fuel' =>
      peel fuel' g
           (filter (fun n => existsb (fun p => mem p remaining) (predecessors g n))
                   remaining)
  end.

(** [nx.is_directed_acyclic_graph(G)] *)
Definition is_directed_acyclic_graph (g : DiGraph) : bool :=
  match peel (length (nodes g)) g (nodes g) with
  | [] => true
  | _ => false
  end.

(** Inner loop of the LCA search: follow successors that are still common
    ancestors. *)
Fixpoint descend (fuel : nat) (g : DiGraph) (common : list node) (c : node)
  : node :=
  match fuel with
  | O => c
  | S fuel' =>
      match find (fun x => mem x common) (successors g c) with
      | Some lower => descend fuel' g common lower
      | None => c
      end
  end.

(** [nx.lowest_common_ancestor(G, node1, node2)] (networkx 3): the common
    ancestors are the nodes from which both arguments are reachable, a node
    being its own ancestor; the search starts from one of them and descends.
    Python starts from an arbitrary element of a set, so that which of
    several lowest common ancestors is returned is not determined; the model
    starts from the first common ancestor in node order.  The general results
    below hold for whatever node is returned; the example graphs have a
    single common ancestor. *)
Definition lowest_common_ancestor (g : DiGraph) (node1 node2 : node)
  : result (option node) :=
  if negb (is_directed_acyclic_graph g) then Raise NetworkXError
  else if (length (nodes g) =? 0)%nat then Raise NetworkXPointlessConcept
  else if negb (mem node1 (nodes g)) || negb (mem node2 (nodes g))
  then Raise NodeNotFound
  else
    let n := length (nodes g) in
    let common :=
      filter (fun a => reach n g a node1 && reach n g a node2) (nodes g) in
    match common with
    | [] => Ok None
    | c :: _ => Ok (Some (descend n g common c))
    end.

(** ** Bubble resolution *)

(** [solve_bubble] *)
Definition solve_bubble (trivial_path : bool) (randint : nat -> nat -> nat)
           (graph : DiGraph) (ancestor_node descendant_node : node)
  : result DiGraph :=
  path_list <- all_simple_paths trivial_path graph ancestor_node descendant_node ;;
  metrics <-
    foldM (fun acc path =>
             w <- path_average_weight graph path ;;
             Ok (fst acc ++ [Z.of_nat (length path)], snd acc ++ [w]))
          path_list ([], []) ;;
  select_best_path randint graph path_list (fst metrics) (snd metrics)
                   false false.

(** State of the scan in [simplify_bubbles]: the flag [bubble] and the
    variable [noeud_ancetre] ([None] is Python's [None]). *)
Definition scan_state := (bool * option node)%type.

(** [for j in range(i + 1, len(liste_predecesseurs))]: stops at the first
    pair with a common ancestor. *)
Fixpoint scan_j (g : DiGraph) (noeud_i : node) (rest : list node)
         (st : scan_state) : result scan_state :=
  match rest with
  | [] => Ok st
  | noeud_j :: rest' =>
      noeud_ancetre <- lowest_common_ancestor g noeud_i noeud_j ;;
      match noeud_ancetre with
      | Some a => Ok (true, Some a)
      | None => scan_j g noeud_i rest' (fst st, None)
      end
  end.

(** [for i in range(len(liste_predecesseurs))]: the [break] above leaves
    only the inner loop, so this loop goes on with the next [i]. *)
Fixpoint scan_i (g : DiGraph) (preds : list node) (st : scan_state)
  : result scan_state :=
  match preds with
  | [] => Ok st
  | noeud_i :: rest =>
      st' <- scan_j g noeud_i rest st ;;
      scan_i g rest st'
  end.

(** [for node in nodes]: returns the final state and the node at which the
    loop was left. *)
Fixpoint scan_nodes (g : DiGraph) (ns : list node) (st : scan_state)
  : result (scan_state * option node) :=
  match ns with
  | [] => Ok (st, None)
  | n :: ns' =>
      let liste_predecesseurs := predecessors g n in
      st' <- (if (1 <? length liste_predecesseurs)%nat
              then scan_i g liste_predecesseurs st
              else Ok st) ;;
      if fst st' then Ok (st', Some n) else scan_nodes g ns' st'
  end.

(** [simplify_bubbles].  [depth] bounds the number of nested calls: [None]
    means that the recursion is deeper than [depth]. *)
Fixpoint simplify_bubbles (depth : nat) (trivial_path : bool)
         (randint : nat -> nat -> nat) (graph : DiGraph)
  : option (result DiGraph) :=
  match depth with
  | O => None
  | S depth' =>
      match scan_nodes graph (nodes graph) (false, None) with
      | Raise e => Some (Raise e)
      | Ok ((true, noeud_ancetre), Some n) =>
          match noeud_ancetre with
          | None => Some (Raise NodeNotFound)
          | Some a =>
              match solve_bubble trivial_path randint graph a n with
              | Raise e => Some (Raise e)
              | Ok graph' => simplify_bubbles depth' trivial_path randint graph'
              end
          end
      | Ok _ => Some (Ok graph)
      end
  end.

(** ** Sources, sinks and contigs *)

Definition get_starting_nodes (graph : DiGraph) : list node :=
  filter (fun i => (length (predecessors graph i) =? 0)%nat) (nodes graph).

Definition get_sink_nodes (graph : DiGraph) : list node :=
  filter (fun i => (length (successors graph i) =? 0)%nat) (nodes graph).

(** [node[-1]] *)
Definition last_char (x : str) : result ascii :=
  match x with
  | [] => Raise IndexError
  | _ => Ok (last x Ascii.zero)
  end.

(** The contig of one path: [path[0]] followed by the last character of
    every later node. *)
Definition contig_of (p : path) : result str :=
  match p with
  | [] => Raise IndexError
  | n0 :: rest =>
      foldM (fun contig n => c <- last_char n ;; Ok (contig ++ [c])) rest n0
  end.

Definition get_contigs (trivial_path : bool) (graph : DiGraph)
           (starting_nodes ending_nodes : list node)
  : result (list (str * nat)) :=
  foldM
    (fun contigus i =>
       foldM
         (fun contigus j =>
            connected <- has_path graph i j ;;
            if connected : bool then
              paths <- all_simple_paths trivial_path graph i j ;;
              foldM (fun contigus p =>
                       contig <- contig_of p ;;
                       Ok (contigus ++ [(contig, length contig)]))
                    paths contigus
            else Ok contigus)
         ending_nodes contigus)
    starting_nodes [].

(** ** Writing the contigs *)

Definition newline : ascii := ascii_of_nat 10.

(** [str(n)] *)
Definition str_of_nat (n : nat) : str :=
  list_ascii_of_string (NilEmpty.string_of_uint (Nat.to_uint n)).

(** Pieces of [width] characters, the last one possibly shorter. *)
Fixpoint chunks (fuel width : nat) (x : str) : list str :=
  match fuel with
  | O => []
  | S fuel' =>
      match x with
      | [] => []
      | _ => firstn width x :: chunks fuel' width (skipn width x)
      end
  end.

(** ["\n".join(lines)] *)
Definition join_lines (lines : list str) : str :=
  match lines with
  | [] => []
  | l :: lines' => l ++ flat_map (fun x => newline :: x) lines'
  end.

(** A text without whitespace and without hyphen is one word for
    [textwrap]. *)
Definition unbroken (text : str) : bool :=
  forallb (fun c => negb (is_space c) && negb (Ascii.eqb c "-")) text.

(** [textwrap.fill(text, width)] for a positive [width], on a text that is
    one word: the word is cut every [width] characters and the pieces are
    joined by line feeds.  Other texts are not modelled ([None]). *)
Definition fill (text : str) (width : nat) : option str :=
  if unbroken text
  then Some (join_lines (chunks (length text) width text))
  else None.

(** The header line [f">contig_{cpt} len={n}\n"]. *)
Definition contig_header (cpt n : nat) : str :=
  s ">contig_" ++ str_of_nat cpt ++ s " len=" ++ str_of_nat n ++ [newline].

(** The loop of [save_contigs]: [file] is what has been written so far. *)
Fixpoint save_contigs_loop (contigs_list : list (str * nat)) (cpt : nat)
         (file : str) : option str :=
  match contigs_list with
  | [] => Some file
  | c :: rest =>
      match fill (fst c) 80 with
      | Some body =>
          save_contigs_loop rest (S cpt) (file ++ contig_header cpt (snd c) ++ body)
      | None => None
      end
  end.

(** [save_contigs]: the name of the file that is written and its content.
    The file is opened under the fixed name "contigs.fasta"; the parameter
    [output_file] is not used. *)
Definition save_contigs (contigs_list : list (str * nat)) (output_file : str)
  : option (str * str) :=
  match save_contigs_loop contigs_list 0 [] with
  | Some content => Some (s "contigs.fasta", content)
  | None => None
  end.

(** * Specification vocabulary *)

(** Number of windows of [read] equal to [km]. *)
Definition occurrences_in (read : str) (kmer_size : nat) (km : str) : Z :=
  Z.of_nat (count_occ str_eq_dec (cut_kmer read kmer_size) km).

(** Total number of occurrences of [km] over all reads. *)
Definition total_occurrences (reads : list str) (kmer_size : nat) (km : str) : Z :=
  fold_right (fun r acc => (occurrences_in r kmer_size km + acc)%Z) 0%Z reads.

(** Number of occurrences of [km] in the last read that contains it. *)
Definition last_read_occurrences (reads : list str) (kmer_size : nat) (km : str)
  : option Z :=
  fold_left (fun acc r =>
               if mem km (cut_kmer r kmer_size)
               then Some (occurrences_in r kmer_size km) else acc)
            reads None.

(** The Python slice [x[a:b]] for [a <= b]. *)
Definition substring (a b : nat) (x : str) : str := firstn (b - a) (skipn a x).

(** The edge that the graph builder derives from one table entry. *)
Definition edge_of_kmer (kmer_size : nat) (kv : str * Z) : edge :=
  (substring 0 (kmer_size - 1) (fst kv), substring 1 kmer_size (fst kv), snd kv).

(** The nodes of [path] that one iteration of [remove_paths] deletes. *)
Definition removed_slice (delete_entry_node delete_sink_node : bool) (p : path)
  : list node :=
  if delete_entry_node && delete_sink_node then p
  else if negb delete_entry_node && negb delete_sink_node then removelast (tl p)
  else if negb delete_entry_node && delete_sink_node then tl p
  else removelast p.

(** [n] stands at a position of [p] that is deleted: any position, except
    the first one unless [delete_entry_node], and except the last one unless
    [delete_sink_node]. *)
Definition doomed (delete_entry_node delete_sink_node : bool) (p : path) (n : node)
  : Prop :=
  exists i, nth_error p i = Some n /\
            (delete_entry_node = true \/ (0 < i)%nat) /\
            (delete_sink_node = true \/ (i + 1 < length p)%nat).

(** [n] is an interior node of [p]: neither at its first nor at its last
    position. *)
Definition interior (p : path) (n : node) : Prop := doomed false false p n.

Definition first_node (p : path) : option node := hd_error p.
Definition last_node (p : path) : option node := nth_error p (length p - 1).

(** Boolean check of the representation invariant. *)
Fixpoint nodupb {A : Type} (eqb : A -> A -> bool) (l : list A) : bool :=
  match l with
  | [] => true
  | x :: l' => negb (existsb (eqb x) l') && nodupb eqb l'
  end.

Definition key_eqb (a b : node * node) : bool :=
  str_eqb (fst a) (fst b) && str_eqb (snd a) (snd b).

Definition wfb (g : DiGraph) : bool :=
  nodupb str_eqb (nodes g) &&
  nodupb key_eqb (map edge_key (edges g)) &&
  forallb (fun e => mem (src e) (nodes g) && mem (dst e) (nodes g)) (edges g).

(** No end point of a listed path is an interior node of a listed path.
    This holds for simple paths that share their two end points, the lists
    that [solve_bubble] passes on. *)
Definition endpoints_not_interior (pl : list path) : Prop :=
  forall p q n, In p pl -> In q pl ->
                first_node p = Some n \/ last_node p = Some n ->
                ~ interior q n.

(** Graph of the reads ["AAAC"] with k = 3: a self-loop on "AA". *)
Definition loop_graph : DiGraph :=
  build_graph [(s "AAA", 1%Z); (s "AAC", 1%Z)].

(** All the values of a list are equal. *)
Definition all_equal (l : list Q) : Prop :=
  forall x y, In x l -> In y l -> x == y.

(** Position [i] holds the first maximum of [l]: no value is greater, and
    every earlier value is smaller. *)
Definition first_max (l : list Q) (i : nat) : Prop :=
  exists m, nth_error l i = Some m /\
            (forall j x, nth_error l j = Some x -> x <= m) /\
            (forall j x, (j < i)%nat -> nth_error l j = Some x -> x < m).


(** The selection policy of [select_best_path] when the candidates are not
    fully tied: position [select] is kept. *)
Definition kept_by_policy (weight_avg_list : list Q) (path_length : list Z)
           (select : nat) : Prop :=
  (~ all_equal weight_avg_list /\ first_max weight_avg_list select) \/
  (all_equal weight_avg_list /\
   ~ all_equal (map inject_Z path_length) /\
   first_max (map inject_Z path_length) select).

(** Build a graph from a list of weighted edges given as literals. *)
Definition graph_of (l : list (string * string * Z)) : DiGraph :=
  fold_left (fun g e => add_edge g (s (fst (fst e))) (s (snd (fst e))) (snd e))
            l empty_graph.


(** The bubble of the specification: A-B-D of weight 1, A-C-D of weight 5. *)
Definition bubble_graph : DiGraph :=
  graph_of [("A", "B", 1); ("B", "D", 1); ("A", "C", 5); ("C", "D", 5)]%string%Z.

(** A bubble whose two branches have the same weight and the same length. *)
Definition tie_graph : DiGraph :=
  graph_of [("A", "B", 1); ("B", "D", 1); ("A", "C", 1); ("C", "D", 1)]%string%Z.

(** A heavy route A-B-D next to the light direct edge A-D. *)
Definition shortcut_graph : DiGraph :=
  graph_of [("A", "B", 5); ("B", "D", 5); ("A", "D", 1)]%string%Z.

(** Two routes from A to D that share the interior node B. *)
Definition fork_graph : DiGraph :=
  graph_of [("A", "B", 5); ("B", "C", 5); ("C", "D", 5);
            ("B", "E", 1); ("E", "D", 1)]%string%Z.

(** The bubble of the specification with a tip X entering the light branch. *)
Definition tip_graph : DiGraph :=
  graph_of [("A", "B", 1); ("B", "D", 1); ("A", "C", 5); ("C", "D", 5);
            ("X", "B", 1)]%string%Z.

(** A random source that always answers 0. *)
Definition randint0 (a b : nat) : nat := 0%nat.

(** The edges of [g] that join two nodes of [p], in edge order. *)
Definition induced_edges (g : DiGraph) (p : path) : list edge :=
  filter (fun e => mem (src e) p && mem (dst e) p) (edges g).

Definition Zsum (l : list Z) : Z := fold_right Z.add 0%Z l.

(** [f] is a finite binary64 number: an integer below [2 ^ 53] in magnitude
    times a power of two from [2 ^ -1074] to [2 ^ 971]. *)
Definition binary64 (f : Q) : Prop :=
  exists m ex : Z,
    (Z.abs m < 2 ^ 53)%Z /\ (-1074 <= ex <= 971)%Z /\ f == inject_Z m * 2 ^ ex.

(** [f] is a binary64 number nearest to [q]. *)
Definition nearest_binary64 (q f : Q) : Prop :=
  binary64 f /\ forall g, binary64 g -> Qabs (f - q) <= Qabs (g - q).

(** The arithmetic mean of a list of integers. *)
Definition arithmetic_mean (ws : list Z) : Q :=
  inject_Z (Zsum ws) / inject_Z (Z.of_nat (length ws)).

Definition integral (q : Q) : Prop := exists z : Z, q == inject_Z z.

(** [r] is the outcome of averaging ints whose arithmetic mean is [q]: [q]
    itself when it is an integer; otherwise a binary64 number nearest to
    [q], or [OverflowError] when [q] lies beyond the binary64 range, that
    is from [2 ^ 1024 - 2 ^ 970] on in magnitude. *)
Definition mean_outcome (q : Q) (r : result Q) : Prop :=
  (integral q -> exists m, r = Ok m /\ m == q) /\
  (~ integral q -> Qabs q < 2 ^ 1024 - 2 ^ 970 ->
   exists f, r = Ok f /\ nearest_binary64 q f) /\
  (~ integral q -> 2 ^ 1024 - 2 ^ 970 <= Qabs q -> r = Raise OverflowError).

(** The ordered pairs of consecutive nodes of a path. *)
Fixpoint consecutive_pairs (p : path) : list (node * node) :=
  match p with
  | u :: (v :: _) as p' => (u, v) :: consecutive_pairs p'
  | _ => []
  end.

(** [weights_along g p ws]: every consecutive pair of [p] is an edge of [g],
    and [ws] lists the weights of these edges in path order. *)
Inductive weights_along (g : DiGraph) : path -> list Z -> Prop :=
| weights_one (n : node) : weights_along g [n] []
| weights_step (u v : node) (p : path) (w : Z) (ws : list Z) :
    In (u, v, w) (edges g) ->
    weights_along g (v :: p) ws ->
    weights_along g (u :: v :: p) (w :: ws).

(** No edge of [g] joins two nodes of [p] other than consecutive ones. *)
Definition chordless (g : DiGraph) (p : path) : Prop :=
  forall e, In e (edges g) -> In (src e) p -> In (dst e) p ->
            In (src e, dst e) (consecutive_pairs p).

(** A single route A-B-C whose weights have a mean beyond the float
    range. *)
Definition huge_graph : DiGraph :=
  graph_of [("A", "B", 2 ^ 1024); ("B", "C", 2 ^ 1024 + 1)]%string%Z.

(** A two-edge route A-B-C of weight 1 with the chord A-C of weight 4. *)
Definition chord_graph : DiGraph :=
  graph_of [("A", "B", 1); ("B", "C", 1); ("A", "C", 4)]%string%Z.

(** Degrees, counted on the edge list. *)
Definition in_degree (g : DiGraph) (n : node) : nat :=
  length (filter (fun e => str_eqb (dst e) n) (edges g)).

Definition out_degree (g : DiGraph) (n : node) : nat :=
  length (filter (fun e => str_eqb (src e) n) (edges g)).

(** A node without any incident edge. *)
Definition isolated (g : DiGraph) (n : node) : Prop :=
  forall e, In e (edges g) -> src e <> n /\ dst e <> n.

(** [tip_graph] after bubble simplification: B is gone and X is left without
    any edge. *)
Definition simplified_tip_graph : DiGraph :=
  mkDiGraph [s "A"; s "D"; s "C"; s "X"]
            [(s "A", s "C", 5%Z); (s "C", s "D", 5%Z)].

(** ** Walks and simple paths *)

Definition has_edge (g : DiGraph) (u v : node) : Prop :=
  exists w, In (u, v, w) (edges g).

(** [chain g u l]: starting from [u], the nodes of [l] are visited in turn,
    each step following an edge. *)
Fixpoint chain (g : DiGraph) (u : node) (l : list node) : Prop :=
  match l with
  | [] => True
  | v :: l' => has_edge g u v /\ chain g v l'
  end.

(** [p] is a walk of [g] from [a] to [d]. *)
Definition walk (g : DiGraph) (a d : node) (p : path) : Prop :=
  In a (nodes g) /\
  exists l, p = a :: l /\ chain g a l /\ last p a = d.

(** [p] is a simple path of [g] from [a] to [d]: a walk without repeated
    node. *)
Definition simple_path (g : DiGraph) (a d : node) (p : path) : Prop :=
  walk g a d p /\ NoDup p.

(** [d] is reachable from [a] (every node is reachable from itself). *)
Definition reaches (g : DiGraph) (a d : node) : Prop :=
  exists p, walk g a d p.

(** No nonempty closed walk. *)
Definition acyclic (g : DiGraph) : Prop :=
  forall n l, l <> [] -> chain g n l -> last l n <> n.

(** A bubble: a node with two distinct predecessors that share a common
    ancestor from which at least two distinct simple paths reach the node. *)
Definition bubble (g : DiGraph) : Prop :=
  exists d p q a p1 p2,
    p <> q /\ has_edge g p d /\ has_edge g q d /\
    reaches g a p /\ reaches g a q /\
    simple_path g a d p1 /\ simple_path g a d p2 /\ p1 <> p2.

(** ** Contigs *)

(** Last character of a label. *)
Definition lastc (x : str) : ascii := last x Ascii.zero.

(** The sequence spelled by a path: the first label in full, then the last
    character of every later label. *)
Definition contig_label (p : path) : str :=
  match p with
  | [] => []
  | n0 :: rest => n0 ++ map lastc rest
  end.

(** The record emitted for the path [n0; n1; ...; nm]: its sequence and
    the length [len(n0) + m]. *)
Definition contig_record (p : path) : str * nat :=
  (contig_label p, (length (hd [] p) + (length p - 1))%nat).

(** Data-model invariant of a de Bruijn graph: along every edge the two
    labels are non-empty and overlap, the source without its first character
    being the target without its last one. *)
Definition debruijn (g : DiGraph) : Prop :=
  forall e, In e (edges g) ->
            src e <> [] /\ dst e <> [] /\ tl (src e) = removelast (dst e).

(** Graph of the read "TCAGA" with k = 3. *)
Definition tcaga_graph : DiGraph :=
  build_graph [(s "TCA", 1%Z); (s "CAG", 1%Z); (s "AGA", 1%Z)].

(** Graph of the read "CAAA" with k = 3: a self-loop on AA entered from CA. *)
Definition loop_tip_graph : DiGraph :=
  build_graph [(s "CAA", 1%Z); (s "AAA", 1%Z)].

(** The paths that [nx.all_simple_paths] yields between two nodes. *)
Definition paths_between (trivial_path : bool) (g : DiGraph) (i j : node)
  : list path :=
  match all_simple_paths trivial_path g i j with
  | Ok L => L
  | Raise _ => []
  end.

(** Decidable sufficient condition for the absence of bubbles: between any
    two nodes at most one simple path is enumerated. *)
Definition unique_paths_check (g : DiGraph) : bool :=
  forallb (fun a =>
             forallb (fun d => (length (paths_between false g a d) <=? 1)%nat)
                     (nodes g))
          (nodes g).

(** ** Further vocabulary *)

(** No k-mer occurs in two different reads of the list. *)
Definition kmers_not_shared (reads : list str) (kmer_size : nat) : Prop :=
  forall l1 r l2 km,
    reads = l1 ++ r :: l2 ->
    In km (cut_kmer r kmer_size) ->
    forall r', In r' l2 -> ~ In km (cut_kmer r' kmer_size).

(** A bubble A-B-D / A-C-D whose closing node D has a third predecessor E
    that comes from an unrelated source X. *)
Definition three_pred_graph : DiGraph :=
  graph_of [("A", "B", 1); ("A", "C", 1); ("X", "E", 1);
            ("B", "D", 1); ("C", "D", 1); ("E", "D", 1)]%string%Z.

(** [v] comes right after [u] in the list [ns]. *)
Definition follows (ns : list node) (u v : node) : Prop :=
  exists l1 l2, ns = l1 ++ u :: v :: l2.

(** [g] is the path graph on the list [ns] of distinct nodes: its edges join
    each node of [ns] to the next one. *)
Definition path_graph (g : DiGraph) (ns : list node) : Prop :=
  NoDup ns /\
  (forall n, In n (nodes g) <-> In n ns) /\
  (forall u v, has_edge g u v <-> follows ns u v).

(** * Basic facts *)

Lemma str_eqb_eq (a b : str) : str_eqb a b = true <-> a = b.
Proof.
  unfold str_eqb. destruct (str_eq_dec a b); split; congruence.
Qed.

Lemma str_eqb_neq (a b : str) : str_eqb a b = false <-> a <> b.
Proof.
  unfold str_eqb. destruct (str_eq_dec a b); split; congruence.
Qed.

Lemma str_eqb_refl (a : str) : str_eqb a a = true.
Proof. now apply str_eqb_eq. Qed.

Lemma str_eqb_sym (a b : str) : str_eqb a b = str_eqb b a.
Proof.
  unfold str_eqb. destruct (str_eq_dec a b), (str_eq_dec b a); congruence.
Qed.

Lemma mem_In (x : str) (l : list str) : mem x l = true <-> In x l.
Proof.
  unfold mem. destruct (in_dec str_eq_dec x l); split; congruence.
Qed.

Lemma mem_not_In (x : str) (l : list str) : mem x l = false <-> ~ In x l.
Proof.
  unfold mem. destruct (in_dec str_eq_dec x l); split; congruence.
Qed.

Ltac str_cases :=
  repeat match goal with
         | H : str_eqb _ _ = true |- _ => apply str_eqb_eq in H
         | H : str_eqb _ _ = false |- _ => apply str_eqb_neq in H
         | H : mem _ _ = true |- _ => apply mem_In in H
         | H : mem _ _ = false |- _ => apply mem_not_In in H
         end.

(** * Frequency table *)

Lemma dict_get_set_same (d : dict) (k : str) (v : Z) :
  dict_get (dict_set d k v) k = Some v.
Proof.
  induction d as [|[k' v'] d IH]; simpl.
  - now rewrite str_eqb_refl.
  - destruct (str_eqb k' k) eqn:E; simpl; rewrite E; auto.
Qed.

Lemma dict_get_set_other (d : dict) (k k0 : str) (v : Z) :
  k <> k0 -> dict_get (dict_set d k v) k0 = dict_get d k0.
Proof.
  intros Hne. induction d as [|[k' v'] d IH]; simpl.
  - apply str_eqb_neq in Hne. now rewrite Hne.
  - destruct (str_eqb k' k) eqn:E; simpl.
    + str_cases. subst k'. apply str_eqb_neq in Hne. now rewrite Hne.
    + destruct (str_eqb k' k0); auto.
Qed.

(** First loop over the windows of a read: every window is reset to 0. *)
Lemma reset_get (ks : list str) (d : dict) (km : str) :
  dict_get (fold_left (fun d i => dict_set d i 0%Z) ks d) km =
  if mem km ks then Some 0%Z else dict_get d km.
Proof.
  revert d. induction ks as [|k ks IH]; intros d; simpl.
  - reflexivity.
  - rewrite IH. unfold mem at 2.
    destruct (in_dec str_eq_dec km (k :: ks)) as [Hin|Hnin].
    + destruct (mem km ks) eqn:E; auto.
      str_cases. destruct Hin as [->|]; [|contradiction].
      apply dict_get_set_same.
    + assert (mem km ks = false) as ->
          by (apply mem_not_In; intros ?; apply Hnin; now right).
      apply dict_get_set_other. intros ->. apply Hnin. now left.
Qed.

(** Second loop: every window adds one to its own counter. *)
Lemma incr_get (ks : list str) (d : dict) :
  (forall k, In k ks -> dict_get d k <> None) ->
  exists d', foldM dict_incr ks d = Ok d' /\
             forall km, dict_get d' km =
                        option_map (fun c => (c + Z.of_nat (count_occ str_eq_dec ks km))%Z)
                                   (dict_get d km).
Proof.
  revert d. induction ks as [|k ks IH]; intros d Hd; simpl.
  - exists d. split; auto. intros km.
    destruct (dict_get d km); simpl; f_equal; lia.
  - unfold dict_incr at 1.
    destruct (dict_get d k) as [c|] eqn:Ek.
    2:{ exfalso. apply (Hd k); auto. now left. }
    simpl.
    destruct (IH (dict_set d k (c + 1)%Z)) as (d' & Hrun & Hget).
    { intros k0 Hin. destruct (str_eq_dec k k0) as [->|Hne].
      - now rewrite dict_get_set_same.
      - rewrite dict_get_set_other by assumption. apply Hd. now right. }
    exists d'. split; auto. intros km. rewrite Hget.
    destruct (str_eq_dec k km) as [->|Hne].
    + rewrite dict_get_set_same, Ek. simpl. f_equal. lia.
    + rewrite dict_get_set_other by assumption.
      destruct (dict_get d km); simpl; f_equal.
Qed.

(** One iteration of the loop over reads. *)
Lemma build_kmer_dict_step (seq : str) (kmer_size : nat) (d : dict) :
  exists d',
    foldM dict_incr (cut_kmer seq kmer_size)
          (fold_left (fun d i => dict_set d i 0%Z) (cut_kmer seq kmer_size) d) = Ok d' /\
    forall km, dict_get d' km =
               if mem km (cut_kmer seq kmer_size)
               then Some (occurrences_in seq kmer_size km)
               else dict_get d km.
Proof.
  destruct (incr_get (cut_kmer seq kmer_size)
              (fold_left (fun d i => dict_set d i 0%Z) (cut_kmer seq kmer_size) d))
    as (d' & Hrun & Hget).
  { intros k Hin. rewrite reset_get. apply mem_In in Hin. now rewrite Hin. }
  exists d'. split; auto. intros km. rewrite Hget, reset_get.
  destruct (mem km (cut_kmer seq kmer_size)) eqn:E; simpl.
  - reflexivity.
  - str_cases. destruct (dict_get d km); simpl; auto.
    f_equal. rewrite (proj1 (count_occ_not_In str_eq_dec _ _) E). lia.
Qed.

(** What the loop of [build_kmer_dict] computes: it never raises, and the
    count of a
    k-mer is its number of occurrences in the last read that contains it. *)
Lemma build_kmer_dict_last_read (reads : list str) (kmer_size : nat) :
  exists d, build_kmer_dict_loop reads kmer_size = Ok d /\
            forall km, dict_get d km = last_read_occurrences reads kmer_size km.
Proof.
  unfold build_kmer_dict_loop, last_read_occurrences.
  assert (G : forall d0 acc0,
             (forall km, dict_get d0 km = acc0 km) ->
             exists d,
               foldM (fun kmer_counts seq =>
                        let kmer_counts :=
                          fold_left (fun d i => dict_set d i 0%Z)
                                    (cut_kmer seq kmer_size) kmer_counts in
                        foldM dict_incr (cut_kmer seq kmer_size) kmer_counts)
                     reads d0 = Ok d /\
               forall km, dict_get d km =
                          fold_left (fun acc r =>
                                       if mem km (cut_kmer r kmer_size)
                                       then Some (occurrences_in r kmer_size km)
                                       else acc) reads (acc0 km)).
  { induction reads as [|r reads IH]; intros d0 acc0 H0; simpl.
    - exists d0. auto.
    - destruct (build_kmer_dict_step r kmer_size d0) as (d1 & Hrun & Hget).
      rewrite Hrun. simpl.
      apply (IH d1 (fun km => if mem km (cut_kmer r kmer_size)
                              then Some (occurrences_in r kmer_size km)
                              else acc0 km)).
      intros km. rewrite Hget, H0. reflexivity. }
  apply (G [] (fun _ => None)). reflexivity.
Qed.

(** [build_kmer_dict] on a file whose generator runs to its end. *)
Lemma build_kmer_dict_complete (fastq_file reads : list str) (k : nat) :
  read_fastq fastq_file = (reads, Exhausted) ->
  build_kmer_dict fastq_file k = build_kmer_dict_loop reads k.
Proof.
  intros H. unfold build_kmer_dict. rewrite H.
  destruct (build_kmer_dict_loop reads k); reflexivity.
Qed.

(** On a file whose generator is interrupted, the table is lost. *)
Lemma build_kmer_dict_interrupted (fastq_file : list str) (k : nat) :
  snd (read_fastq fastq_file) = Interrupted ->
  build_kmer_dict fastq_file k = Raise RuntimeError.
Proof.
  unfold build_kmer_dict. destruct (read_fastq fastq_file) as [reads e].
  simpl. intros ->.
  destruct (build_kmer_dict_last_read reads k) as (d & -> & _). reflexivity.
Qed.

Lemma build_kmer_dict_Ok (fastq_file : list str) (k : nat) (d : dict) :
  build_kmer_dict fastq_file k = Ok d ->
  snd (read_fastq fastq_file) = Exhausted /\
  build_kmer_dict_loop (fst (read_fastq fastq_file)) k = Ok d.
Proof.
  unfold build_kmer_dict. destruct (read_fastq fastq_file) as [reads e].
  simpl. destruct (build_kmer_dict_loop reads k) as [d'|]; simpl;
    [|discriminate].
  destruct e; [|discriminate]. intros H. injection H as <-. auto.
Qed.

(** C7 (code defect): a file of two records with the reads "TCA" and "TCA"
    and k = 3 contains the k-mer "TCA" twice in total, but
    [build_kmer_dict] resets the counter at the second read and returns the
    count 1: counts do not accumulate across records. *)
Theorem build_kmer_dict_no_accumulation :
  read_fastq [s "@r1"; s "TCA"; s "+"; s "III"; s "@r2"; s "TCA"; s "+"; s "III"] =
    ([s "TCA"; s "TCA"], Exhausted) /\
  build_kmer_dict [s "@r1"; s "TCA"; s "+"; s "III";
                   s "@r2"; s "TCA"; s "+"; s "III"] 3 = Ok [(s "TCA", 1%Z)] /\
  total_occurrences [s "TCA"; s "TCA"] 3 (s "TCA") = 2%Z.
Proof. repeat split; vm_compute; reflexivity. Qed.

(** * Graph builder *)

Lemma removelast_firstn_len {A : Type} (l : list A) :
  removelast l = firstn (length l - 1) l.
Proof.
  induction l as [|x l IH]; simpl; auto.
  destruct l as [|y l]; simpl in *; auto.
  rewrite IH. now rewrite Nat.sub_0_r.
Qed.

Lemma prefix_is_slice (k : nat) (km : str) :
  length km = k -> removelast km = substring 0 (k - 1) km.
Proof.
  intros <-. unfold substring. rewrite Nat.sub_0_r. simpl.
  apply removelast_firstn_len.
Qed.

Lemma suffix_is_slice (k : nat) (km : str) :
  length km = k -> tl km = substring 1 k km.
Proof.
  intros <-. unfold substring. destruct km as [|c km]; simpl; auto.
  rewrite Nat.sub_0_r. now rewrite firstn_all.
Qed.

(** A k-mer with [k >= 2] is determined by its prefix and its suffix. *)
Lemma kmer_of_prefix_suffix (a b : str) :
  (2 <= length a)%nat -> (2 <= length b)%nat ->
  removelast a = removelast b -> tl a = tl b -> a = b.
Proof.
  destruct a as [|x [|x' a]]; simpl; try lia.
  destruct b as [|y [|y' b]]; simpl; try lia.
  intros _ _ Hp Hs. injection Hp as -> _. now rewrite Hs.
Qed.

Lemma add_node_In (ns : list node) (n m : node) :
  In m (add_node ns n) <-> In m ns \/ m = n.
Proof.
  unfold add_node. destruct (mem n ns) eqn:E; str_cases.
  - split; auto. intros [H| ->]; auto.
  - rewrite in_app_iff. simpl. intuition.
Qed.

Lemma add_node_NoDup (ns : list node) (n : node) :
  NoDup ns -> NoDup (add_node ns n).
Proof.
  intros H. unfold add_node. destruct (mem n ns) eqn:E; str_cases; auto.
  apply NoDup_app; auto.
  - constructor; [intros []|constructor].
  - intros x Hx [<-|[]]. contradiction.
Qed.

Lemma set_edge_fresh (es : list edge) (u v : node) (w : Z) :
  ~ In (u, v) (map edge_key es) -> set_edge es u v w = es ++ [(u, v, w)].
Proof.
  induction es as [|[[u' v'] w'] es IH]; simpl; intros Hn; auto.
  unfold src, dst; simpl.
  destruct (str_eqb u' u && str_eqb v' v) eqn:E.
  - apply andb_true_iff in E as [E1 E2]. str_cases. subst.
    exfalso. apply Hn. now left.
  - f_equal. apply IH. intros H. apply Hn. now right.
Qed.

(** The loop of [build_graph], started from any graph whose edges do not
    clash with the new ones. *)
Lemma build_graph_loop (d : dict) (g0 : DiGraph) :
  NoDup (map edge_key (edges g0) ++
         map (fun kv => (removelast (fst kv), tl (fst kv))) d) ->
  let g := fold_left (fun graphique kv =>
                        add_edge graphique (removelast (fst kv)) (tl (fst kv)) (snd kv))
                     d g0 in
  edges g = edges g0 ++ map (fun kv => (removelast (fst kv), tl (fst kv), snd kv)) d /\
  (NoDup (nodes g0) -> NoDup (nodes g)) /\
  (forall n, In n (nodes g) <->
             In n (nodes g0) \/
             exists kv, In kv d /\ (n = removelast (fst kv) \/ n = tl (fst kv))).
Proof.
  revert g0. induction d as [|[km c] d IH]; intros g0 Hnd; simpl.
  - rewrite app_nil_r. repeat split; auto.
    intros [H|(kv & [] & _)]; auto.
  - simpl in Hnd.
    assert (Hfresh : ~ In (removelast km, tl km) (map edge_key (edges g0))).
    { intros Hin. apply NoDup_remove_2 in Hnd. apply Hnd.
      apply in_or_app. now left. }
    specialize (IH (add_edge g0 (removelast km) (tl km) c)).
    simpl in IH. rewrite (set_edge_fresh _ _ _ _ Hfresh) in IH.
    destruct IH as (He & Hn & Hi).
    { rewrite map_app. simpl. rewrite <- app_assoc. simpl. exact Hnd. }
    split; [|split].
    + rewrite He, <- app_assoc. reflexivity.
    + intros H. apply Hn. now do 2 apply add_node_NoDup.
    + intros n. rewrite Hi, !add_node_In. split.
      * intros [[[H| ->]| ->]|(kv & Hin & H)]; auto.
        -- right. exists (km, c). split; [now left|now left].
        -- right. exists (km, c). split; [now left|now right].
        -- right. exists kv. split; [now right|assumption].
      * intros [H|(kv & [<-|Hin] & H)]; auto.
        -- simpl in H. destruct H as [->| ->]; auto.
        -- right. exists kv. auto.
Qed.

Lemma build_graph_keys_NoDup (k : nat) (d : dict) :
  (2 <= k)%nat -> NoDup (keys d) ->
  (forall km, In km (keys d) -> length km = k) ->
  NoDup (map (fun kv : str * Z => (removelast (fst kv), tl (fst kv))) d).
Proof.
  intros Hk Hnd Hlen.
  replace (map (fun kv : str * Z => (removelast (fst kv), tl (fst kv))) d)
    with (map (fun km : str => (removelast km, tl km)) (keys d))
    by (unfold keys; now rewrite map_map).
  revert Hnd Hlen. generalize (keys d) as ks.
  induction ks as [|a ks IH]; intros Hnd Hlen; simpl; constructor.
  - intros Hin. apply in_map_iff in Hin as (b & Hb & Hin).
    injection Hb as Hp Hs.
    assert (a = b).
    { apply kmer_of_prefix_suffix; auto.
      - rewrite (Hlen a); [lia|now left].
      - rewrite (Hlen b); [lia|now right]. }
    subst b. now inversion Hnd.
  - apply IH; [now inversion Hnd|]. intros km H. apply Hlen. now right.
Qed.

(** C3.  For a table whose keys are distinct strings of length [k >= 2],
    [build_graph] returns the graph whose nodes are exactly the length-(k-1)
    prefixes and suffixes of the k-mers and whose edges are, entry by entry,
    the edge from the prefix [km[0:k-1]] to the suffix [km[1:k]] weighted by
    the count of [km]; no two edges join the same ordered pair, so each k-mer
    has exactly one edge and there is no other edge.  The empty table gives
    the empty graph; the function is total, so no input raises. *)
Theorem build_graph_correct (k : nat) (kmer_dict : dict) :
  (2 <= k)%nat ->
  NoDup (keys kmer_dict) ->
  (forall km, In km (keys kmer_dict) -> length km = k) ->
  let g := build_graph kmer_dict in
  (forall n, In n (nodes g) <->
             exists km, In km (keys kmer_dict) /\
                        (n = substring 0 (k - 1) km \/ n = substring 1 k km)) /\
  edges g = map (edge_of_kmer k) kmer_dict /\
  NoDup (map edge_key (edges g)) /\
  wf g /\
  build_graph [] = empty_graph.
Proof.
  intros Hk Hnd Hlen g.
  pose proof (build_graph_keys_NoDup k kmer_dict Hk Hnd Hlen) as Hkeys.
  destruct (build_graph_loop kmer_dict empty_graph) as (He & Hn & Hi);
    [exact Hkeys|].
  fold (build_graph kmer_dict) in He, Hn, Hi. fold g in He, Hn, Hi.
  simpl in He, Hi.
  assert (Hedges : edges g = map (edge_of_kmer k) kmer_dict).
  { rewrite He. apply map_ext_in. intros [km c] Hin. unfold edge_of_kmer. simpl.
    assert (length km = k) as Hl
        by (apply Hlen; unfold keys; apply in_map_iff; exists (km, c); auto).
    now rewrite (prefix_is_slice k km Hl), (suffix_is_slice k km Hl). }
  assert (Hkeys' : NoDup (map edge_key (edges g))).
  { rewrite He, map_map. exact Hkeys. }
  assert (Hnodes : forall n, In n (nodes g) <->
             exists km, In km (keys kmer_dict) /\
                        (n = substring 0 (k - 1) km \/ n = substring 1 k km)).
  { intros n. rewrite Hi. split.
    - intros [[]|((km & c) & Hin & H)]. simpl in H.
      assert (In km (keys kmer_dict)) as Hkm
          by (unfold keys; apply in_map_iff; exists (km, c); auto).
      exists km. split; auto.
      rewrite <- (prefix_is_slice k km (Hlen km Hkm)), <- (suffix_is_slice k km (Hlen km Hkm)).
      exact H.
    - intros (km & Hkm & H). right.
      unfold keys in Hkm. apply in_map_iff in Hkm as ((km' & c) & Heq & Hin).
      simpl in Heq. subst km'.
      assert (In km (keys kmer_dict)) as Hkm
          by (unfold keys; apply in_map_iff; exists (km, c); auto).
      exists (km, c). split; auto. simpl.
      rewrite (prefix_is_slice k km (Hlen km Hkm)), (suffix_is_slice k km (Hlen km Hkm)).
      exact H. }
  split; [exact Hnodes|]. split; [exact Hedges|]. split; [exact Hkeys'|].
  split; [|reflexivity].
  split; [apply Hn; constructor|]. split; [exact Hkeys'|].
  intros e H. rewrite He in H. apply in_map_iff in H as (kv & <- & Hin).
  split; apply Hi; right; exists kv; split; auto.
Qed.

Lemma build_graph_correct_witness :
  let d := [(s "TCA", 1%Z); (s "CAG", 1%Z); (s "AGA", 1%Z)] in
  edges (build_graph d) = map (edge_of_kmer 3) d.
Proof.
  intros d.
  refine (proj1 (proj2 (build_graph_correct 3 d _ _ _))).
  - lia.
  - repeat constructor; simpl; intuition discriminate.
  - intros km [<-|[<-|[<-|[]]]]; reflexivity.
Defined.

(** * The representation invariant *)

Lemma nodupb_NoDup {A : Type} (eqb : A -> A -> bool) (l : list A) :
  (forall a b, eqb a b = true <-> a = b) ->
  nodupb eqb l = true -> NoDup l.
Proof.
  intros Heq. induction l as [|x l IH]; simpl; intros H; constructor.
  - apply andb_true_iff in H as [H _]. apply negb_true_iff in H.
    intros Hin. apply not_true_iff_false in H. apply H.
    apply existsb_exists. exists x. split; auto. now apply Heq.
  - apply IH. now apply andb_true_iff in H as [_ H].
Qed.

Lemma key_eqb_eq (a b : node * node) : key_eqb a b = true <-> a = b.
Proof.
  destruct a as [a1 a2], b as [b1 b2]. unfold key_eqb. simpl.
  rewrite andb_true_iff, !str_eqb_eq. split.
  - intros [-> ->]. reflexivity.
  - intros H. injection H as -> ->. auto.
Qed.

Lemma wfb_sound (g : DiGraph) : wfb g = true -> wf g.
Proof.
  unfold wfb, wf. rewrite !andb_true_iff. intros [[H1 H2] H3].
  split; [|split].
  - apply (nodupb_NoDup str_eqb); auto using str_eqb_eq.
  - apply (nodupb_NoDup key_eqb); auto using key_eqb_eq.
  - intros e He. rewrite forallb_forall in H3. specialize (H3 e He).
    apply andb_true_iff in H3 as [Ha Hb]. str_cases. auto.
Qed.

(** Dropping edges keeps the ordered pairs distinct. *)
Lemma edge_keys_filter (keep : edge -> bool) (es : list edge) :
  NoDup (map edge_key es) -> NoDup (map edge_key (filter keep es)).
Proof.
  intros H. induction es as [|x l IH]; simpl in *; auto.
  inversion H as [|? ? Hn Hd]; subst.
  destruct (keep x); simpl; auto. constructor; auto.
  intros Hin. apply Hn. apply in_map_iff in Hin as (y & Hy & Hin).
  apply in_map_iff. exists y. split; auto.
  now apply filter_In in Hin as [Hin _].
Qed.

(** * Removing nodes *)

Lemma remove_node_nodes (g : DiGraph) (n m : node) :
  In m (nodes (remove_node g n)) <-> In m (nodes g) /\ m <> n.
Proof.
  unfold remove_node. simpl. rewrite filter_In, negb_true_iff, str_eqb_neq.
  reflexivity.
Qed.

Lemma remove_node_edges (g : DiGraph) (n : node) (e : edge) :
  In e (edges (remove_node g n)) <->
  In e (edges g) /\ src e <> n /\ dst e <> n.
Proof.
  unfold remove_node. simpl.
  rewrite filter_In, andb_true_iff, !negb_true_iff, !str_eqb_neq.
  reflexivity.
Qed.

Lemma remove_node_wf (g : DiGraph) (n : node) : wf g -> wf (remove_node g n).
Proof.
  intros (Hn & Hk & He). split; [|split].
  - simpl. now apply NoDup_filter.
  - simpl. now apply edge_keys_filter.
  - intros e H. apply remove_node_edges in H as (H & Hs & Hd).
    destruct (He e H). split; apply remove_node_nodes; auto.
Qed.

Lemma remove_nodes_from_nodes (ns : list node) (g : DiGraph) (m : node) :
  In m (nodes (remove_nodes_from g ns)) <-> In m (nodes g) /\ ~ In m ns.
Proof.
  unfold remove_nodes_from. revert g.
  induction ns as [|n ns IH]; intros g; simpl.
  - tauto.
  - rewrite IH, remove_node_nodes. intuition.
Qed.

Lemma remove_nodes_from_edges (ns : list node) (g : DiGraph) (e : edge) :
  In e (edges (remove_nodes_from g ns)) <->
  In e (edges g) /\ ~ In (src e) ns /\ ~ In (dst e) ns.
Proof.
  unfold remove_nodes_from. revert g.
  induction ns as [|n ns IH]; intros g; simpl.
  - tauto.
  - rewrite IH, remove_node_edges. intuition.
Qed.

Lemma remove_nodes_from_wf (ns : list node) (g : DiGraph) :
  wf g -> wf (remove_nodes_from g ns).
Proof.
  unfold remove_nodes_from. revert g.
  induction ns as [|n ns IH]; intros g H; simpl; auto.
  apply IH. now apply remove_node_wf.
Qed.

Lemma remove_nodes_from_app (g : DiGraph) (a b : list node) :
  remove_nodes_from g (a ++ b) = remove_nodes_from (remove_nodes_from g a) b.
Proof. unfold remove_nodes_from. apply fold_left_app. Qed.

(** [remove_paths] removes, path after path, the slice selected by the
    flags. *)
Lemma remove_paths_slices (pl : list path) (g : DiGraph) (de ds : bool) :
  remove_paths g pl de ds =
  remove_nodes_from g (flat_map (removed_slice de ds) pl).
Proof.
  unfold remove_paths. revert g.
  induction pl as [|p pl IH]; intros g; simpl; auto.
  rewrite remove_nodes_from_app, <- IH. f_equal.
  unfold removed_slice. destruct de, ds; reflexivity.
Qed.

Lemma In_tl_nth {A : Type} (l : list A) (x : A) :
  In x (tl l) <-> exists i, nth_error l i = Some x /\ (0 < i)%nat.
Proof.
  destruct l as [|y l]; simpl.
  - split; [intros []|]. intros (i & H & _). destruct i; discriminate.
  - rewrite In_iff_nth_error. split.
    + intros (i & H). exists (S i). split; auto. lia.
    + intros (i & H & Hi). destruct i; [lia|]. exists i. exact H.
Qed.

Lemma In_removelast_nth {A : Type} (l : list A) (x : A) :
  In x (removelast l) <->
  exists i, nth_error l i = Some x /\ (i + 1 < length l)%nat.
Proof.
  rewrite removelast_firstn_len, In_iff_nth_error. split.
  - intros (i & H). rewrite nth_error_firstn in H.
    destruct (i <? length l - 1)%nat eqn:E; [|discriminate].
    apply Nat.ltb_lt in E. exists i. split; auto. lia.
  - intros (i & H & Hi). exists i. rewrite nth_error_firstn.
    assert ((i <? length l - 1)%nat = true) as -> by (apply Nat.ltb_lt; lia).
    exact H.
Qed.

Lemma tl_length {A : Type} (l : list A) : length (tl l) = (length l - 1)%nat.
Proof. destruct l; simpl; lia. Qed.

Lemma nth_error_tl {A : Type} (l : list A) (i : nat) :
  nth_error (tl l) i = nth_error l (S i).
Proof. destruct l; simpl; auto. now destruct i. Qed.

Lemma removed_slice_doomed (de ds : bool) (p : path) (n : node) :
  In n (removed_slice de ds p) <-> doomed de ds p n.
Proof.
  unfold removed_slice, doomed. destruct de, ds; simpl.
  - rewrite In_iff_nth_error. split.
    + intros (i & H). exists i. auto.
    + intros (i & H & _). exists i. exact H.
  - rewrite In_removelast_nth. split.
    + intros (i & H & Hi). exists i. auto.
    + intros (i & H & _ & [Hf|Hi]); [discriminate|]. exists i. auto.
  - rewrite In_tl_nth. split.
    + intros (i & H & Hi). exists i. auto.
    + intros (i & H & [Hf|Hi] & _); [discriminate|]. exists i. auto.
  - rewrite In_removelast_nth. split.
    + intros (i & H & Hi). rewrite nth_error_tl in H. rewrite tl_length in Hi.
      exists (S i). repeat split; auto; right; lia.
    + intros (i & H & [Hf|Hi] & [Hf'|Hi']); try discriminate.
      destruct i; [lia|]. exists i. rewrite nth_error_tl, tl_length.
      split; auto. lia.
Qed.

(** The nodes and edges that survive [remove_paths]. *)
Lemma remove_paths_nodes (g : DiGraph) (pl : list path) (de ds : bool) (n : node) :
  In n (nodes (remove_paths g pl de ds)) <->
  In n (nodes g) /\ ~ exists p, In p pl /\ doomed de ds p n.
Proof.
  rewrite remove_paths_slices, remove_nodes_from_nodes, in_flat_map.
  split; intros [H Hn]; split; auto; intros (p & Hp & Hd); apply Hn;
    exists p; split; auto; now apply removed_slice_doomed.
Qed.

Lemma remove_paths_edges (g : DiGraph) (pl : list path) (de ds : bool) (e : edge) :
  In e (edges (remove_paths g pl de ds)) <->
  In e (edges g) /\
  (~ exists p, In p pl /\ doomed de ds p (src e)) /\
  (~ exists p, In p pl /\ doomed de ds p (dst e)).
Proof.
  rewrite remove_paths_slices, remove_nodes_from_edges, !in_flat_map.
  split; intros (H & Hs & Hd); repeat split; auto;
    intros (p & Hp & Hx); [apply Hs|apply Hd|apply Hs|apply Hd];
    exists p; split; auto; now apply removed_slice_doomed.
Qed.

Lemma remove_paths_wf (g : DiGraph) (pl : list path) (de ds : bool) :
  wf g -> wf (remove_paths g pl de ds).
Proof. rewrite remove_paths_slices. apply remove_nodes_from_wf. Qed.

(** * [remove_paths] with both flags unset *)

Lemma interior_short (p : path) (n : node) :
  (length p <= 2)%nat -> ~ interior p n.
Proof.
  intros Hl (i & _ & [Hf|H0] & [Hf'|H1]); try discriminate. lia.
Qed.

Lemma remove_paths_short (pl : list path) (g : DiGraph) :
  (forall p, In p pl -> (length p <= 2)%nat) ->
  remove_paths g pl false false = g.
Proof.
  intros Hl. rewrite remove_paths_slices.
  replace (flat_map (removed_slice false false) pl) with (@nil node); auto.
  symmetry. induction pl as [|p pl IH]; simpl; auto.
  rewrite IH by (intros q Hq; apply Hl; now right).
  assert (length p <= 2)%nat as Hp by (apply Hl; now left).
  destruct p as [|a [|b [|c p]]]; simpl in *; auto. lia.
Qed.

(** C10, counterexample.  In the graph of the read "AAAC" (k = 3) the walk
    AA, AA, AC follows the self-loop on AA.  Removing this single listed path
    with both flags unset deletes AA, the first node of the path. *)
Lemma remove_paths_removes_first_node :
  let p := [s "AA"; s "AA"; s "AC"] in
  In (s "AA", s "AA", 1%Z) (edges loop_graph) /\
  In (s "AA", s "AC", 1%Z) (edges loop_graph) /\
  first_node p = Some (s "AA") /\
  In (s "AA") (nodes loop_graph) /\
  ~ In (s "AA") (nodes (remove_paths loop_graph [p] false false)).
Proof.
  vm_compute. repeat split; auto.
  intros [H|[]]. discriminate.
Qed.

(** C10, amended.  With both flags unset [remove_paths] removes exactly the
    nodes that stand at an interior position of a listed path.  A path of at
    most two nodes has no interior position, and a list of such paths leaves
    the graph unchanged.  When no end point of a listed path is interior to a
    listed path, every first and last node stays in the graph, and so does a
    direct edge [u -> v] listed as the path [[u; v]]. *)
Theorem remove_paths_keeps_endpoints (g : DiGraph) (pl : list path) :
  endpoints_not_interior pl ->
  let g' := remove_paths g pl false false in
  (forall n, In n (nodes g') <->
             In n (nodes g) /\ ~ exists p, In p pl /\ interior p n) /\
  (forall p n, In p pl ->
               first_node p = Some n \/ last_node p = Some n ->
               In n (nodes g) -> In n (nodes g')) /\
  (forall u v w, In [u; v] pl -> In (u, v, w) (edges g) ->
                 In (u, v, w) (edges g')) /\
  (forall p n, (length p <= 2)%nat -> ~ interior p n) /\
  ((forall p, In p pl -> (length p <= 2)%nat) -> g' = g).
Proof.
  intros Hends g'. subst g'.
  split; [|split; [|split; [|split]]].
  - intros n. apply remove_paths_nodes.
  - intros p n Hp Hn Hin. apply remove_paths_nodes. split; auto.
    intros (q & Hq & Hi). exact (Hends p q n Hp Hq Hn Hi).
  - intros u v w Hp He. apply remove_paths_edges. split; auto.
    split; intros (q & Hq & Hi).
    + apply (Hends [u; v] q u Hp Hq); [now left|exact Hi].
    + apply (Hends [u; v] q v Hp Hq); [now right|exact Hi].
  - apply interior_short.
  - intros Hl. now apply remove_paths_short.
Qed.

(** * Statistics *)

Lemma Qlt_bool_iff (a b : Q) : Qlt_bool a b = true <-> a < b.
Proof.
  unfold Qlt_bool. rewrite negb_true_iff, <- not_true_iff_false, Qle_bool_iff.
  split; [apply Qnot_le_lt|apply Qlt_not_le].
Qed.

Lemma sq_nonneg (y : Q) : 0 <= y * y.
Proof.
  destruct (Qlt_le_dec y 0).
  - setoid_replace (y * y) with ((- y) * (- y)) by ring.
    apply Qmult_le_0_compat; lra.
  - apply Qmult_le_0_compat; lra.
Qed.

Lemma sum_sq_nonneg (c : Q) (l : list Q) : 0 <= sum_sq c l.
Proof.
  unfold sum_sq. induction l as [|x l IH]; simpl; [lra|].
  pose proof (sq_nonneg (x - c)). lra.
Qed.

Lemma sum_sq_zero (c : Q) (l : list Q) :
  sum_sq c l == 0 <-> forall x, In x l -> x == c.
Proof.
  unfold sum_sq. induction l as [|x l IH]; simpl.
  - split; [intros _ y []|reflexivity].
  - pose proof (sq_nonneg (x - c)). pose proof (sum_sq_nonneg c l) as Hl.
    unfold sum_sq in Hl. split.
    + intros H0 y [<-|Hy].
      * assert ((x - c) * (x - c) == 0) as H1 by lra.
        apply Qmult_integral in H1. destruct H1; lra.
      * apply IH; auto. lra.
    + intros Hall.
      assert (x == c) as Hx by (apply Hall; now left).
      assert (Qsum (map (fun x0 => (x0 - c) * (x0 - c)) l) == 0) as ->
          by (apply IH; intros y Hy; apply Hall; now right).
      rewrite Hx. ring.
Qed.

Lemma Qlen_cons (x : Q) (l : list Q) : Qlen (x :: l) == Qlen l + 1.
Proof.
  unfold Qlen. simpl length.
  rewrite Nat2Z.inj_succ, <- Z.add_1_r, inject_Z_plus. reflexivity.
Qed.

Lemma Qlen_nonneg (l : list Q) : 0 <= Qlen l.
Proof.
  unfold Qlen. change 0 with (inject_Z 0). rewrite <- Zle_Qle. lia.
Qed.

Lemma Qsum_const (c : Q) (l : list Q) :
  (forall x, In x l -> x == c) -> Qsum l == Qlen l * c.
Proof.
  induction l as [|x l IH]; intros Hall.
  - unfold Qlen. simpl. ring.
  - rewrite Qlen_cons. simpl Qsum.
    rewrite IH by (intros y Hy; apply Hall; now right).
    rewrite (Hall x) by now left. ring.
Qed.

(** The mean of a constant list is that constant. *)
Lemma Qmean_const (c : Q) (l : list Q) :
  l <> [] -> (forall x, In x l -> x == c) ->
  exists m, Qmean l = Ok m /\ m == c.
Proof.
  intros Hne Hall. destruct l as [|x l]; [congruence|].
  exists (Qsum (x :: l) / Qlen (x :: l)). split; [reflexivity|].
  rewrite (Qsum_const c) by assumption.
  pose proof (Qlen_nonneg l). pose proof (Qlen_cons x l).
  field. lra.
Qed.

(** [stdev(l) > 0] fails on fewer than two values and otherwise tells
    whether two values differ. *)
Lemma stdev_gt_0_spec (l : list Q) :
  (2 <= length l)%nat ->
  exists b, stdev_gt_0 l = Ok b /\
            (b = true -> ~ all_equal l) /\ (b = false -> all_equal l).
Proof.
  intros Hlen. unfold stdev_gt_0, variance.
  assert ((length l <? 2)%nat = false) as -> by (apply Nat.ltb_ge; lia).
  destruct l as [|x0 l0] eqn:El; [simpl in Hlen; lia|]. rewrite <- El in *.
  assert (Qmean l = Ok (Qsum l / Qlen l)) as Hm by (rewrite El; reflexivity).
  rewrite Hm. simpl bind.
  set (xbar := Qsum l / Qlen l) in *.
  set (d := inject_Z (Z.of_nat (length l - 1))).
  assert (0 < d) as Hd.
  { unfold d. change 0 with (inject_Z 0). rewrite <- Zlt_Qlt. lia. }
  eexists. split; [reflexivity|]. split.
  - intros Hb Heq. apply Qlt_bool_iff in Hb.
    destruct (Qmean_const x0 l) as (m & Hm' & Hmc).
    { rewrite El. discriminate. }
    { intros y Hy. apply Heq; auto. rewrite El. now left. }
    rewrite Hm in Hm'. injection Hm' as <-.
    assert (sum_sq xbar l == 0) as Hz.
    { apply sum_sq_zero. intros y Hy. rewrite Hmc. apply Heq; auto.
      rewrite El. now left. }
    rewrite Hz in Hb. unfold Qdiv in Hb. rewrite Qmult_0_l in Hb. lra.
  - intros Hb y z Hy Hz.
    apply not_true_iff_false in Hb. rewrite Qlt_bool_iff in Hb.
    assert (sum_sq xbar l == 0) as H0.
    { pose proof (sum_sq_nonneg xbar l) as Hge.
      destruct (Qlt_le_dec 0 (sum_sq xbar l)) as [Hlt|Hle]; [|lra].
      exfalso. apply Hb. unfold Qdiv. apply Qmult_lt_0_compat; auto.
      now apply Qinv_lt_0_compat. }
    rewrite sum_sq_zero in H0. rewrite (H0 y Hy), (H0 z Hz). reflexivity.
Qed.

Lemma stdev_gt_0_short (l : list Q) :
  (length l < 2)%nat -> stdev_gt_0 l = Raise StatisticsError.
Proof.
  intros H. unfold stdev_gt_0, variance.
  now assert ((length l <? 2)%nat = true) as -> by (apply Nat.ltb_lt; lia).
Qed.

(** [max]: an upper bound that is a member of the list. *)
Lemma max_from_spec (l : list Q) (best : Q) :
  (max_from best l = best \/ In (max_from best l) l) /\
  best <= max_from best l /\
  forall x, In x l -> x <= max_from best l.
Proof.
  revert best. induction l as [|x l IH]; intros best; simpl.
  - split; [now left|]. split; [lra|intros ? []].
  - destruct (Qlt_bool best x) eqn:E.
    + apply Qlt_bool_iff in E.
      destruct (IH x) as (Hin & Hle & Hub). split; [|split].
      * right. destruct Hin as [->|Hin]; auto.
      * lra.
      * intros y [<-|Hy]; auto.
    + apply not_true_iff_false in E. rewrite Qlt_bool_iff in E.
      apply Qnot_lt_le in E.
      destruct (IH best) as (Hin & Hle & Hub). split; [|split]; auto.
      * destruct Hin as [->|Hin]; auto.
      * intros y [<-|Hy]; auto. lra.
Qed.

Lemma py_max_spec (l : list Q) :
  l <> [] ->
  exists m, py_max l = Ok m /\ In m l /\ forall x, In x l -> x <= m.
Proof.
  destruct l as [|x l]; [congruence|]. intros _.
  exists (max_from x l). split; [reflexivity|].
  destruct (max_from_spec l x) as (Hin & Hle & Hub).
  split.
  - destruct Hin as [->|Hin]; [now left|now right].
  - intros y [<-|Hy]; auto.
Qed.

(** [index]: the first position holding an equal value. *)
Lemma index_spec (l : list Q) (m : Q) :
  In m l ->
  exists i x, index l m = Ok i /\ nth_error l i = Some x /\ x == m /\
              forall j y, (j < i)%nat -> nth_error l j = Some y -> ~ y == m.
Proof.
  induction l as [|y l IH]; intros Hin; [destruct Hin|]. simpl.
  destruct (Qeq_bool y m) eqn:E.
  - apply Qeq_bool_iff in E. exists 0%nat, y. repeat split; auto.
    intros j z Hj. lia.
  - assert (~ y == m) as Hne
        by (intros H; apply Qeq_bool_iff in H; congruence).
    destruct Hin as [->|Hin]; [exfalso; apply Hne; reflexivity|].
    destruct (IH Hin) as (i & x & Hi & Hx & Hxm & Hfirst).
    exists (S i), x. rewrite Hi. simpl. repeat split; auto.
    intros j z Hj Hz. destruct j; simpl in Hz.
    + injection Hz as <-. exact Hne.
    + apply (Hfirst j); auto. lia.
Qed.

(** [l.index(max(l))] is the position of the first maximum. *)
Lemma index_max_first_max (l : list Q) :
  l <> [] ->
  exists m i, py_max l = Ok m /\ index l m = Ok i /\
              (i < length l)%nat /\ first_max l i.
Proof.
  intros Hne. destruct (py_max_spec l Hne) as (m & Hm & Hin & Hub).
  destruct (index_spec l m Hin) as (i & x & Hi & Hx & Hxm & Hfirst).
  exists m, i. repeat split; auto.
  - apply nth_error_Some. congruence.
  - exists x. split; auto. split.
    + intros j y Hy. rewrite Hxm. apply Hub. eapply nth_error_In; eauto.
    + intros j y Hj Hy. rewrite Hxm.
      assert (y <= m) by (apply Hub; eapply nth_error_In; eauto).
      pose proof (Hfirst j y Hj Hy) as Hne'.
      apply Qle_lteq in H. destruct H; auto. contradiction.
Qed.

(** * Best-path selection *)

Lemma drop_index_length {A : Type} (i : nat) (l : list A) :
  (i < length l)%nat -> length (drop_index i l) = (length l - 1)%nat.
Proof.
  intros H. unfold drop_index.
  rewrite length_app, length_firstn, length_skipn. lia.
Qed.

Lemma In_drop_index {A : Type} (i : nat) (l : list A) (x : A) :
  In x (drop_index i l) -> In x l.
Proof.
  unfold drop_index. rewrite in_app_iff. intros [H|H].
  - rewrite <- (firstn_skipn i l). apply in_or_app. now left.
  - rewrite <- (firstn_skipn (i + 1) l). apply in_or_app. now right.
Qed.



(** The third branch: on a full tie the function raises, whatever number the
    random source returns. *)
Lemma select_best_path_tie_raises (randint : nat -> nat -> nat) (g : DiGraph)
      (pl : list path) (lens : list Z) (ws : list Q) (de ds : bool) :
  (2 <= length ws)%nat ->
  (2 <= length lens)%nat ->
  all_equal ws -> all_equal (map inject_Z lens) ->
  select_best_path randint g pl lens ws de ds =
    Raise (if (randint 0 (length pl) <? length pl)%nat
           then TypeError else IndexError).
Proof.
  intros Hw Hl Hew Hel. unfold select_best_path.
  destruct (stdev_gt_0_spec ws Hw) as (b & Hb & Hbt & Hbf).
  rewrite Hb. simpl bind. destruct b; [exfalso; now apply Hbt|].
  destruct (stdev_gt_0_spec (map inject_Z lens)) as (b' & Hb' & Hbt' & Hbf').
  { now rewrite length_map. }
  rewrite Hb'. simpl bind. destruct b'; [exfalso; now apply Hbt'|].
  destruct (nth_error pl (randint 0%nat (length pl))) eqn:E.
  - assert (randint 0 (length pl) < length pl)%nat as H
        by (apply nth_error_Some; congruence).
    apply Nat.ltb_lt in H. now rewrite H.
  - apply nth_error_None in E. apply Nat.ltb_ge in E. now rewrite E.
Qed.




(** Whenever [select_best_path] returns, it has removed all the paths but
    one position of the list. *)
Lemma select_best_path_returns (randint : nat -> nat -> nat) (g g' : DiGraph)
      (pl : list path) (lens : list Z) (ws : list Q) (de ds : bool) :
  select_best_path randint g pl lens ws de ds = Ok g' ->
  exists select, g' = remove_paths g (drop_index select pl) de ds.
Proof.
  unfold select_best_path. intros H.
  destruct (stdev_gt_0 ws) as [[|]|]; simpl in H; try discriminate.
  - destruct (py_max ws) as [m|]; simpl in H; try discriminate.
    destruct (index ws m) as [i|]; simpl in H; try discriminate.
    injection H as <-. now exists i.
  - destruct (stdev_gt_0 (map inject_Z lens)) as [[|]|]; simpl in H;
      try discriminate.
    + destruct (py_max (map inject_Z lens)) as [m|]; simpl in H;
        try discriminate.
      destruct (index (map inject_Z lens) m) as [i|]; simpl in H;
        try discriminate.
      injection H as <-. now exists i.
    + destruct (nth_error pl (randint 0%nat (length pl))); discriminate.
Qed.

(** When [select_best_path] returns for lists of the same length, the
    position it keeps is a position of the path list, chosen by the policy. *)
Lemma select_best_path_selects (randint : nat -> nat -> nat) (g g' : DiGraph)
      (pl : list path) (lens : list Z) (ws : list Q) (de ds : bool) :
  length lens = length pl ->
  length ws = length pl ->
  select_best_path randint g pl lens ws de ds = Ok g' ->
  exists select,
    (select < length pl)%nat /\
    kept_by_policy ws lens select /\
    g' = remove_paths g (drop_index select pl) de ds.
Proof.
  intros Hl Hw H.
  destruct (le_lt_dec 2 (length pl)) as [HN|Hshort].
  2:{ unfold select_best_path in H.
      rewrite stdev_gt_0_short in H by lia. discriminate. }
  unfold select_best_path in H.
  destruct (stdev_gt_0_spec ws) as (b & Hb & Hbt & Hbf); [lia|].
  rewrite Hb in H. simpl bind in H. destruct b.
  - destruct (index_max_first_max ws) as (m & i & Hm & Hi & Hlt & Hfm).
    { destruct ws; [simpl in Hw; lia|discriminate]. }
    rewrite Hm in H. simpl bind in H. rewrite Hi in H. simpl bind in H.
    injection H as <-.
    exists i. split; [lia|]. split; auto. left. auto.
  - destruct (stdev_gt_0_spec (map inject_Z lens)) as (b' & Hb' & Hbt' & Hbf').
    { rewrite length_map. lia. }
    rewrite Hb' in H. simpl bind in H. destruct b'.
    + destruct (index_max_first_max (map inject_Z lens))
        as (m & i & Hm & Hi & Hlt & Hfm).
      { destruct lens; [simpl in Hl; lia|discriminate]. }
      rewrite Hm in H. simpl bind in H. rewrite Hi in H. simpl bind in H.
      injection H as <-. rewrite length_map in Hlt.
      exists i. split; [lia|]. split; auto. right. auto.
    + destruct (nth_error pl (randint 0%nat (length pl))); discriminate.
Qed.

(** Every path at another position than [select] is in the list that
    [drop_index] leaves. *)
Lemma drop_index_others (select i : nat) (pl : list path) (p : path) :
  nth_error pl i = Some p -> i <> select -> In p (drop_index select pl).
Proof.
  intros Hi Hne. unfold drop_index. apply in_or_app.
  destruct (lt_dec i select) as [Hlt|Hge].
  - left. apply (nth_error_In _ i). rewrite nth_error_firstn.
    apply Nat.ltb_lt in Hlt. now rewrite Hlt.
  - right. apply (nth_error_In _ (i - (select + 1))).
    rewrite nth_error_skipn. rewrite <- Hi. f_equal. lia.
Qed.

(** C5, counterexample.  In [fork_graph] the two routes from A to D share
    the interior node B.  With their mean weights the route through C is
    retained and the route through E is discarded with both flags unset; its
    interior node B, which belongs to the retained route, is deleted. *)
Lemma select_best_path_deletes_retained_node :
  let retained := [s "A"; s "B"; s "C"; s "D"] in
  let discarded := [s "A"; s "B"; s "E"; s "D"] in
  exists w1 w2 g',
    path_average_weight fork_graph retained = Ok w1 /\
    path_average_weight fork_graph discarded = Ok w2 /\
    select_best_path randint0 fork_graph [retained; discarded]
                     [4; 4]%Z [w1; w2] false false = Ok g' /\
    g' = remove_paths fork_graph [discarded] false false /\
    In (s "B") retained /\
    In (s "B") (nodes fork_graph) /\
    ~ In (s "B") (nodes g').
Proof.
  intros retained discarded. do 3 eexists.
  split; [vm_compute; reflexivity|]. split; [vm_compute; reflexivity|].
  split; [vm_compute; reflexivity|].
  split; [vm_compute; reflexivity|]. split; [simpl; auto|].
  split; [vm_compute; auto|].
  vm_compute. intros [H|[H|[H|[]]]]; discriminate.
Qed.

(** C5, amended.  When [select_best_path] returns for [N] candidate paths
    with their [N] lengths and [N] mean weights, it has retained the path at
    one position of the list, the one that the policy selects, and discarded
    the [N - 1] paths at the other positions.  It has removed from the graph
    exactly the nodes standing at a deleted position of a discarded path:
    every interior position, the first position only if [delete_entry_node]
    and the last one only if [delete_sink_node].  Interior nodes of
    discarded paths are gone; a node of the retained path is gone as well
    when it stands at a deleted position of a discarded path, and the
    retained path stays whole exactly when none of its nodes does. *)
Theorem select_best_path_removal (randint : nat -> nat -> nat) (g g' : DiGraph)
        (pl : list path) (lens : list Z) (ws : list Q) (de ds : bool) :
  length lens = length pl ->
  length ws = length pl ->
  select_best_path randint g pl lens ws de ds = Ok g' ->
  exists select retained,
    nth_error pl select = Some retained /\
    kept_by_policy ws lens select /\
    let discarded := drop_index select pl in
    length discarded = (length pl - 1)%nat /\
    (forall i p, nth_error pl i = Some p -> i <> select -> In p discarded) /\
    (forall p, In p discarded -> In p pl) /\
    g' = remove_paths g discarded de ds /\
    (forall n, In n (nodes g') <->
               In n (nodes g) /\ ~ exists p, In p discarded /\ doomed de ds p n) /\
    (forall p n, In p discarded -> interior p n -> ~ In n (nodes g')) /\
    (forall p n, In p discarded -> NoDup p -> first_node p = Some n ->
                 de = false -> ~ doomed de ds p n) /\
    (forall p n, In p discarded -> NoDup p -> last_node p = Some n ->
                 ds = false -> ~ doomed de ds p n) /\
    (incl retained (nodes g) ->
     (incl retained (nodes g') <->
      forall n, In n retained ->
                ~ exists p, In p discarded /\ doomed de ds p n)).
Proof.
  intros Hl Hw H.
  destruct (select_best_path_selects randint g g' pl lens ws de ds Hl Hw H)
    as (select & Hlt & Hpol & ->).
  destruct (nth_error pl select) as [retained|] eqn:Hret.
  2:{ apply nth_error_None in Hret. lia. }
  exists select, retained. split; [exact Hret|]. split; [exact Hpol|].
  intros discarded.
  split; [now apply drop_index_length|].
  split; [intros i p; apply drop_index_others|].
  split; [intros p; apply In_drop_index|].
  split; [reflexivity|]. split; [apply remove_paths_nodes|].
  split; [|split; [|split]].
  - intros p n Hp (i & Hi & H0 & H1) Hin.
    apply remove_paths_nodes in Hin as [_ Hn]. apply Hn.
    exists p. split; auto. exists i. split; auto.
    destruct H0 as [?|H0]; [discriminate|].
    destruct H1 as [?|H1]; [discriminate|]. auto.
  - intros p n Hp Hnd Hf -> (i & Hi & [?|H0] & _); [discriminate|].
    unfold first_node in Hf. destruct p as [|x p]; [discriminate|].
    injection Hf as ->.
    assert (i = 0)%nat; [|lia].
    apply (proj1 (NoDup_nth_error (n :: p)) Hnd).
    + apply nth_error_Some. congruence.
    + now rewrite Hi.
  - intros p n Hp Hnd Hlast -> (i & Hi & _ & [?|H1]); [discriminate|].
    unfold last_node in Hlast.
    assert (i = length p - 1)%nat; [|lia].
    apply (proj1 (NoDup_nth_error p) Hnd).
    + apply nth_error_Some. congruence.
    + now rewrite Hi, Hlast.
  - intros Hincl. split.
    + intros Hin n Hn. apply Hin in Hn.
      now apply remove_paths_nodes in Hn as [_ Hn].
    + intros Hall n Hn. apply remove_paths_nodes. split; auto.
Qed.

Lemma select_best_path_removal_witness :
  exists select retained,
    nth_error [[s "A"; s "B"; s "D"]; [s "A"; s "C"; s "D"]] select =
      Some retained /\
    kept_by_policy [1; 5] [3; 3]%Z select /\
    length (drop_index select [[s "A"; s "B"; s "D"]; [s "A"; s "C"; s "D"]]) =
      1%nat /\
    remove_paths bubble_graph [[s "A"; s "B"; s "D"]] false false =
    remove_paths bubble_graph
                 (drop_index select [[s "A"; s "B"; s "D"]; [s "A"; s "C"; s "D"]])
                 false false.
Proof.
  destruct (select_best_path_removal randint0 bubble_graph
              (remove_paths bubble_graph [[s "A"; s "B"; s "D"]] false false)
              [[s "A"; s "B"; s "D"]; [s "A"; s "C"; s "D"]]
              [3; 3]%Z [1; 5] false false)
    as (select & retained & Hret & Hpol & Hlen & _ & _ & Hg & _).
  - reflexivity.
  - reflexivity.
  - vm_compute. reflexivity.
  - exists select, retained. auto.
Defined.

Lemma remove_paths_keeps_endpoints_witness :
  let pl := [[s "A"; s "B"; s "D"]; [s "A"; s "D"]] in
  endpoints_not_interior pl /\
  forall w, In (s "A", s "D", w) (edges shortcut_graph) ->
            In (s "A", s "D", w)
               (edges (remove_paths shortcut_graph pl false false)).
Proof.
  intros pl.
  assert (Hends : endpoints_not_interior pl).
  { intros p q n Hp Hq Hn Hi. apply removed_slice_doomed in Hi.
    destruct Hp as [<-|[<-|[]]]; destruct Hq as [<-|[<-|[]]];
      destruct Hn as [Hn|Hn]; vm_compute in Hn; injection Hn as <-;
      vm_compute in Hi; intuition discriminate. }
  split; [exact Hends|].
  intros w Hw.
  apply (proj1 (proj2 (proj2 (remove_paths_keeps_endpoints shortcut_graph pl Hends)))).
  - right. now left.
  - exact Hw.
Defined.

(** * Floats *)

Lemma round_half_even_near (n d : Z) :
  (0 < d)%Z ->
  (2 * Z.abs (round_half_even n d * d - n) <= d)%Z.
Proof.
  intros Hd. unfold round_half_even.
  pose proof (Z.div_mod n d ltac:(lia)) as E.
  pose proof (Z.mod_pos_bound n d Hd) as B.
  set (q := (n / d)%Z) in *. set (r := (n mod d)%Z) in *.
  clearbody q r. subst n.
  assert (E1 : (q * d - (d * q + r) = - r)%Z) by ring.
  assert (E2 : ((q + 1) * d - (d * q + r) = d - r)%Z) by ring.
  destruct (Z.compare_spec (2 * r) d) as [C|C|C];
    [destruct (Z.even q)| |]; rewrite ?E1, ?E2; lia.
Qed.

Lemma round_half_even_nearest (n d k : Z) :
  (0 < d)%Z ->
  (Z.abs (round_half_even n d * d - n) <= Z.abs (k * d - n))%Z.
Proof.
  intros Hd. pose proof (round_half_even_near n d Hd) as H.
  destruct (Z.eq_dec k (round_half_even n d)) as [->|Hne]; [lia|].
  set (m := round_half_even n d) in *. clearbody m.
  assert (d <= Z.abs (k * d - m * d))%Z.
  { replace (k * d - m * d)%Z with ((k - m) * d)%Z by ring.
    rewrite Z.abs_mul, (Z.abs_eq d) by lia.
    assert (1 <= Z.abs (k - m))%Z by lia. nia. }
  lia.
Qed.

Lemma Qround_nearest (x : Q) (k : Z) :
  Qabs (inject_Z (round_half_even (Qnum x) (Zpos (Qden x))) - x) <=
  Qabs (inject_Z k - x).
Proof.
  destruct x as [n d]. simpl Qnum. simpl Qden.
  pose proof (round_half_even_nearest n (Zpos d) k ltac:(lia)) as H.
  unfold Qle, Qabs, Qminus, Qplus, Qopp, inject_Z. simpl.
  rewrite !Z.mul_1_r.
  replace (round_half_even n (Z.pos d) * Z.pos d + - n)%Z
    with (round_half_even n (Z.pos d) * Z.pos d - n)%Z by lia.
  replace (k * Z.pos d + - n)%Z with (k * Z.pos d - n)%Z by lia.
  nia.
Qed.

Lemma pow2_pos (z : Z) : 0 < 2 ^ z.
Proof. apply Qpower_0_lt. reflexivity. Qed.

Lemma pow2_plus (a b : Z) : 2 ^ (a + b) == 2 ^ a * 2 ^ b.
Proof. apply Qpower_plus. discriminate. Qed.

Lemma pow2_succ (a : Z) : 2 ^ (a + 1) == 2 * 2 ^ a.
Proof. rewrite pow2_plus. change (2 ^ 1) with 2. ring. Qed.

Lemma pow2_le (a b : Z) : (a <= b)%Z -> 2 ^ a <= 2 ^ b.
Proof. intros H. apply Qpower_le_compat_l; [exact H|discriminate]. Qed.

Lemma pow2_lt (a b : Z) : (a < b)%Z -> 2 ^ a < 2 ^ b.
Proof. intros H. apply Qpower_lt_compat_l; [exact H|reflexivity]. Qed.

Lemma pow2_lt_inv (a b : Z) : 2 ^ a < 2 ^ b -> (a < b)%Z.
Proof. intros H. apply (Qpower_lt_compat_l_inv 2); [exact H|reflexivity]. Qed.

Lemma pow2_inject (a : Z) : (0 <= a)%Z -> inject_Z (2 ^ a) == 2 ^ a.
Proof. intros H. apply (Zpower_Qpower 2 a H). Qed.

Lemma Qlog2_spec (q : Q) :
  0 < q -> 2 ^ Qlog2 q <= q /\ q < 2 ^ (Qlog2 q + 1).
Proof.
  intros Hq. destruct q as [n d].
  assert (Hn : (0 < n)%Z) by (unfold Qlt in Hq; simpl in Hq; lia).
  unfold Qlog2. simpl Qnum. simpl Qden.
  set (ln := Z.log2 n). set (ld := Z.log2 (Z.pos d)).
  destruct (Z.log2_spec n Hn) as [Hn1 Hn2]. fold ln in Hn1, Hn2.
  destruct (Z.log2_spec (Z.pos d) ltac:(lia)) as [Hd1 Hd2]. fold ld in Hd1, Hd2.
  assert (Hln : (0 <= ln)%Z) by apply Z.log2_nonneg.
  assert (Hld : (0 <= ld)%Z) by apply Z.log2_nonneg.
  pose proof (pow2_inject ln Hln) as En.
  pose proof (pow2_inject ld Hld) as Ed.
  pose proof (pow2_pos ln) as Pn. pose proof (pow2_pos ld) as Pd.
  assert (Qn1 : 2 ^ ln <= inject_Z n) by (rewrite <- En, <- Zle_Qle; exact Hn1).
  assert (Qn2 : inject_Z n < 2 * 2 ^ ln).
  { rewrite <- pow2_succ, <- pow2_inject by lia. rewrite <- Zlt_Qlt.
    replace (ln + 1)%Z with (Z.succ ln) by lia. exact Hn2. }
  assert (Qd1 : 2 ^ ld <= inject_Z (Z.pos d)) by (rewrite <- Ed, <- Zle_Qle; exact Hd1).
  assert (Qd2 : inject_Z (Z.pos d) < 2 * 2 ^ ld).
  { rewrite <- pow2_succ, <- pow2_inject by lia. rewrite <- Zlt_Qlt.
    replace (ld + 1)%Z with (Z.succ ld) by lia. exact Hd2. }
  assert (Eq : n # d == inject_Z n / inject_Z (Z.pos d)) by apply Qmake_Qdiv.
  assert (HD : 0 < inject_Z (Z.pos d)) by (rewrite <- (Zlt_Qlt 0); lia).
  assert (El : forall z, 2 ^ (ln - ld + z) == 2 ^ z * 2 ^ ln / 2 ^ ld).
  { intros z. rewrite pow2_plus. unfold Z.sub. rewrite pow2_plus, Qpower_opp.
    field. apply Qnot_eq_sym, Qlt_not_eq, Pd. }
  assert (Hup : n # d < 2 ^ (ln - ld + 1)).
  { rewrite Eq, El. change (2 ^ 1) with 2.
    apply Qlt_shift_div_r; [exact HD|].
    setoid_replace (2 * 2 ^ ln / 2 ^ ld * inject_Z (Z.pos d))
      with (2 * 2 ^ ln * (inject_Z (Z.pos d) / 2 ^ ld))
      by (field; apply Qnot_eq_sym, Qlt_not_eq, Pd).
    assert (1 <= inject_Z (Z.pos d) / 2 ^ ld).
    { apply Qle_shift_div_l; [exact Pd|]. now rewrite Qmult_1_l. }
    nra. }
  assert (Hlow : 2 ^ (ln - ld + -1) <= n # d).
  { rewrite Eq, El. change (2 ^ (-1)) with (/ 2).
    apply Qle_shift_div_l; [exact HD|].
    setoid_replace (/ 2 * 2 ^ ln / 2 ^ ld * inject_Z (Z.pos d))
      with (2 ^ ln * ((inject_Z (Z.pos d) / 2 ^ ld) / 2))
      by (field; apply Qnot_eq_sym, Qlt_not_eq, Pd).
    assert (inject_Z (Z.pos d) / 2 ^ ld / 2 <= 1).
    { apply Qle_shift_div_r; [reflexivity|].
      apply Qle_shift_div_r; [exact Pd|]. lra. }
    nra. }
  destruct (Qle_bool (2 ^ (ln - ld)) (n # d)) eqn:T.
  - apply Qle_bool_iff in T. split; auto.
  - assert (n # d < 2 ^ (ln - ld)) as T'.
    { apply Qnot_le_lt. intros H. apply Qle_bool_iff in H. congruence. }
    split.
    + replace (ln - ld - 1)%Z with (ln - ld + -1)%Z by lia. exact Hlow.
    + replace (ln - ld - 1 + 1)%Z with (ln - ld)%Z by lia. exact T'.
Qed.

Lemma Qround_near (x : Q) :
  Qabs (inject_Z (round_half_even (Qnum x) (Zpos (Qden x))) - x) <= 1 # 2.
Proof.
  destruct x as [n d]. simpl Qnum. simpl Qden.
  pose proof (round_half_even_near n (Zpos d) ltac:(lia)) as H.
  unfold Qle, Qabs, Qminus, Qplus, Qopp, inject_Z. simpl.
  rewrite !Z.mul_1_r.
  replace (round_half_even n (Z.pos d) * Z.pos d + - n)%Z
    with (round_half_even n (Z.pos d) * Z.pos d - n)%Z by lia.
  lia.
Qed.

Lemma Qabs_scale (u p : Q) : 0 < p -> Qabs (u * p) == Qabs u * p.
Proof.
  intros Hp. rewrite Qabs_Qmult. rewrite (Qabs_pos p); [reflexivity|].
  now apply Qlt_le_weak.
Qed.

Lemma round_half_even_tie (n d : Z) :
  (0 < d)%Z ->
  (2 * Z.abs (round_half_even n d * d - n) = d)%Z ->
  Z.even (round_half_even n d) = true.
Proof.
  intros Hd. unfold round_half_even.
  pose proof (Z.div_mod n d ltac:(lia)) as E.
  pose proof (Z.mod_pos_bound n d Hd) as B.
  set (q := (n / d)%Z) in *. set (r := (n mod d)%Z) in *.
  clearbody q r. subst n.
  assert (E1 : (q * d - (d * q + r) = - r)%Z) by ring.
  assert (E2 : ((q + 1) * d - (d * q + r) = d - r)%Z) by ring.
  destruct (Z.compare_spec (2 * r) d) as [C|C|C].
  - destruct (Z.even q) eqn:Ev; auto. intros _.
    rewrite Z.even_add, Ev. reflexivity.
  - rewrite E1. lia.
  - rewrite E2. lia.
Qed.

Lemma Qround_tie (x : Q) :
  Qabs (inject_Z (round_half_even (Qnum x) (Zpos (Qden x))) - x) == 1 # 2 ->
  Z.even (round_half_even (Qnum x) (Zpos (Qden x))) = true.
Proof.
  destruct x as [n d]. simpl Qnum. simpl Qden. intros H.
  apply round_half_even_tie; [lia|].
  unfold Qeq, Qabs, Qminus, Qplus, Qopp, inject_Z in H. simpl in H.
  rewrite !Z.mul_1_r in H.
  replace (round_half_even n (Z.pos d) * Z.pos d + - n)%Z
    with (round_half_even n (Z.pos d) * Z.pos d - n)%Z in H by lia.
  lia.
Qed.

Lemma inject_Z_sub (a b : Z) : inject_Z (a - b) == inject_Z a - inject_Z b.
Proof.
  unfold Z.sub, Qminus. now rewrite inject_Z_plus, inject_Z_opp.
Qed.

Lemma Qabs_cases (x : Q) :
  (0 <= x /\ Qabs x == x) \/ (x <= 0 /\ Qabs x == - x).
Proof.
  destruct (Qlt_le_dec x 0) as [H|H].
  - right. split; [now apply Qlt_le_weak|]. apply Qabs_neg. now apply Qlt_le_weak.
  - left. split; auto. now apply Qabs_pos.
Qed.

Ltac qabs t :=
  let A := fresh "A" in
  destruct (Qabs_cases t) as [[? ?]|[? ?]];
  set (A := Qabs t) in *; clearbody A.

(** Facts about the rounding of a positive number to its quantum. *)
Lemma round_to_quantum_facts (a : Q) :
  0 < a ->
  let e := Qlog2 a in
  let ex := quantum_exp a in
  exists m : Z,
    round_to_quantum a == inject_Z m * 2 ^ ex /\
    (0 <= m <= 2 ^ 53)%Z /\
    (ex = (e - 52)%Z -> (2 ^ 52 <= m)%Z) /\
    Qabs (round_to_quantum a - a) <= 2 ^ ex / 2 /\
    (Qabs (round_to_quantum a - a) == 2 ^ ex / 2 -> Z.even m = true) /\
    (forall k : Z, Qabs (round_to_quantum a - a) <= Qabs (inject_Z k * 2 ^ ex - a)).
Proof.
  intros Ha e ex. destruct (Qlog2_spec a Ha) as [Hlo Hhi]. fold e in Hlo, Hhi.
  unfold round_to_quantum. fold ex.
  set (x := a / 2 ^ ex).
  set (m := round_half_even (Qnum x) (Zpos (Qden x))).
  pose proof (pow2_pos ex) as HP.
  assert (Hx : x * 2 ^ ex == a).
  { unfold x. field. apply Qnot_eq_sym, Qlt_not_eq, HP. }
  assert (Hscale : forall k : Z,
             Qabs (inject_Z k * 2 ^ ex - a) == Qabs (inject_Z k - x) * 2 ^ ex).
  { intros k. rewrite <- Qabs_scale by exact HP.
    apply Qabs_wd. rewrite <- Hx. ring. }
  assert (Hnear : forall k : Z, Qabs (inject_Z m - x) <= Qabs (inject_Z k - x))
    by (intros k; apply Qround_nearest).
  assert (Hx0 : 0 < x).
  { unfold x. apply Qlt_shift_div_l; [exact HP|]. now rewrite Qmult_0_l. }
  assert (Hex : (e - 52 <= ex)%Z) by (unfold ex, quantum_exp; fold e; lia).
  assert (Hx53 : x < 2 ^ 53).
  { unfold x. apply Qlt_shift_div_r; [exact HP|].
    rewrite <- pow2_plus. apply (Qlt_le_trans _ _ _ Hhi). apply pow2_le. lia. }
  assert (Hm0 : (0 <= m)%Z).
  { destruct (Z_lt_le_dec m 0) as [Hneg|]; auto. exfalso.
    pose proof (Hnear 0%Z) as H.
    assert (inject_Z m <= -1) as Hm1.
    { change (-1) with (inject_Z (-1)). rewrite <- Zle_Qle. lia. }
    change (inject_Z 0) with 0 in H.
    qabs (inject_Z m - x); qabs (0 - x); lra. }
  assert (Hm53 : (m <= 2 ^ 53)%Z).
  { destruct (Z_lt_le_dec (2 ^ 53) m) as [Hbig|]; auto. exfalso.
    pose proof (Hnear (2 ^ 53)%Z) as H.
    assert (inject_Z (2 ^ 53) + 1 <= inject_Z m) as Hm1.
    { change 1 with (inject_Z 1). rewrite <- inject_Z_plus, <- Zle_Qle. lia. }
    rewrite (pow2_inject 53) in H, Hm1 by lia.
    qabs (inject_Z m - x); qabs (2 ^ 53 - x); lra. }
  exists m. split; [reflexivity|]. split; [lia|]. split; [|split; [|split]].
  - intros Heq. destruct (Z_lt_le_dec m (2 ^ 52)) as [Hsmall|]; auto. exfalso.
    assert (H52 : 2 ^ 52 <= x).
    { unfold x. apply Qle_shift_div_l; [exact HP|].
      rewrite <- pow2_plus. rewrite Heq.
      replace (52 + (e - 52))%Z with e by lia. exact Hlo. }
    pose proof (Hnear (2 ^ 52)%Z) as H.
    assert (inject_Z m + 1 <= inject_Z (2 ^ 52)) as Hm1.
    { change 1 with (inject_Z 1). rewrite <- inject_Z_plus, <- Zle_Qle. lia. }
    rewrite (pow2_inject 52) in H, Hm1 by lia.
    qabs (inject_Z m - x); qabs (2 ^ 52 - x); lra.
  - rewrite Hscale. pose proof (Qround_near x) as H. fold m in H.
    set (P := 2 ^ ex) in *. clearbody P.
    set (A := Qabs (inject_Z m - x)) in *. clearbody A.
    apply Qle_shift_div_l; [reflexivity|]. nra.
  - rewrite Hscale. intros Htie. apply Qround_tie. fold m.
    set (P := 2 ^ ex) in *. clearbody P.
    set (A := Qabs (inject_Z m - x)) in *. clearbody A.
    assert (A * P == (1 # 2) * P) as HAP by (rewrite Htie; field).
    apply Qmult_inj_r in HAP; auto.
    apply Qnot_eq_sym, Qlt_not_eq, HP.
  - intros k. rewrite !Hscale. apply Qmult_le_compat_r; [apply Hnear|].
    now apply Qlt_le_weak.
Qed.

Lemma binary64_opp (f : Q) : binary64 f -> binary64 (- f).
Proof.
  intros (m & ex & Hm & Hex & Hf). exists (- m)%Z, ex.
  split; [lia|]. split; auto. rewrite Hf, inject_Z_opp. ring.
Qed.

Lemma binary64_eq (f f' : Q) : f == f' -> binary64 f -> binary64 f'.
Proof.
  intros E (m & ex & Hm & Hex & Hf). exists m, ex.
  split; auto. split; auto. now rewrite <- E.
Qed.

Lemma binary64_bound (g : Q) (ex : Z) :
  binary64 g ->
  (exists k : Z, g == inject_Z k * 2 ^ ex) \/ g < 2 ^ (ex + 52).
Proof.
  intros (m & eg & Hm & Heg & Hg).
  destruct (Z_le_gt_dec ex eg) as [Hle|Hgt].
  - left. exists (m * 2 ^ (eg - ex))%Z.
    rewrite Hg, inject_Z_mult, pow2_inject by lia.
    replace eg with ((eg - ex) + ex)%Z at 1 by lia.
    rewrite pow2_plus. ring.
  - right. rewrite Hg.
    assert (inject_Z m < 2 ^ 53).
    { rewrite <- pow2_inject by lia. rewrite <- Zlt_Qlt. lia. }
    assert (2 ^ eg <= 2 ^ (ex - 1)) by (apply pow2_le; lia).
    assert (2 ^ (ex + 52) == 2 ^ 53 * 2 ^ (ex - 1)).
    { rewrite <- pow2_plus. apply Qpower_comp; [reflexivity|lia]. }
    pose proof (pow2_pos eg). pose proof (pow2_pos (ex - 1)).
    rewrite H1.
    set (P := 2 ^ eg) in *. set (R := 2 ^ (ex - 1)) in *.
    set (M := inject_Z m) in *. clearbody P R M.
    destruct (Qlt_le_dec M 0); nra.
Qed.

(** What rounding to the quantum gives for a positive number. *)
Lemma round_to_quantum_spec (a : Q) :
  0 < a ->
  (2 ^ 1024 - 2 ^ 970 <= a <-> 2 ^ 1024 <= round_to_quantum a) /\
  (round_to_quantum a < 2 ^ 1024 ->
   binary64 (round_to_quantum a) /\
   forall g, binary64 g -> Qabs (round_to_quantum a - a) <= Qabs (g - a)).
Proof.
  intros Ha. destruct (Qlog2_spec a Ha) as [Hlo Hhi].
  destruct (round_to_quantum_facts a Ha) as (m & Hf & Hm & Hm52 & Hhalf & Htie & Hnear).
  set (e := Qlog2 a) in *. set (ex := quantum_exp a) in *.
  set (f := round_to_quantum a) in *.
  assert (Hex : ex = Z.max (e - 52) (-1074)) by reflexivity.
  pose proof (pow2_pos ex) as HP.
  assert (HM0 : 0 <= inject_Z m) by (rewrite <- (Zle_Qle 0); lia).
  assert (HM53 : inject_Z m <= 2 ^ 53)
    by (rewrite <- pow2_inject by lia; rewrite <- Zle_Qle; lia).
  (* In the normal range the result is at least [2 ^ e]. *)
  assert (Hnormal : ex = (e - 52)%Z -> 2 ^ e <= f).
  { intros Heq. specialize (Hm52 Heq).
    assert (2 ^ 52 <= inject_Z m)
      by (rewrite <- pow2_inject by lia; rewrite <- Zle_Qle; lia).
    assert (2 ^ e == 2 ^ 52 * 2 ^ ex)
      by (rewrite <- pow2_plus; apply Qpower_comp; [reflexivity|lia]).
    rewrite Hf, H0. apply Qmult_le_compat_r; auto. now apply Qlt_le_weak. }
  split; [split|].
  - (* beyond the threshold the result overflows *)
    intros Hbig.
    assert (He : (1023 <= e)%Z).
    { assert (2 ^ 1023 < 2 ^ (e + 1)).
      { apply (Qle_lt_trans _ a); [|exact Hhi].
        apply (Qle_trans _ (2 ^ 1024 - 2 ^ 970)); [|exact Hbig].
        vm_compute. discriminate. }
      apply pow2_lt_inv in H. lia. }
    assert (Heq : ex = (e - 52)%Z) by lia.
    destruct (Z.eq_dec e 1023) as [E1023|Hne].
    + assert (Hex971 : ex = 971%Z) by lia.
      assert (Hm' : (2 ^ 53 <= m)%Z).
      { destruct (Z_lt_le_dec m (2 ^ 53)) as [Hlt|]; auto. exfalso.
        assert (inject_Z m <= 2 ^ 53 - 1) as Hm1.
        { setoid_replace (2 ^ 53 - 1) with (inject_Z (2 ^ 53 - 1))
            by (vm_compute; reflexivity).
          rewrite <- Zle_Qle. lia. }
        assert (Hfa : Qabs (f - a) == 2 ^ ex / 2).
        { apply Qle_antisym; [exact Hhalf|].
          rewrite Hex971 in *.
          assert (f <= (2 ^ 53 - 1) * 2 ^ 971).
          { rewrite Hf. apply Qmult_le_compat_r; auto. now apply Qlt_le_weak. }
          assert ((2 ^ 53 - 1) * 2 ^ 971 + 2 ^ 971 / 2 == 2 ^ 1024 - 2 ^ 970)
            by (vm_compute; reflexivity).
          qabs (f - a); set (P := 2 ^ 971) in *; clearbody P; lra. }
        (* a tie: the significand would be even *)
        apply Htie in Hfa.
        (* but [2 ^ 53 - 1] is odd *)
        assert (m = 2 ^ 53 - 1)%Z as Em.
        { destruct (Z_lt_le_dec m (2 ^ 53 - 1)) as [Hlt2|]; [|lia]. exfalso.
          assert (inject_Z m <= 2 ^ 53 - 2) as Hm2.
          { setoid_replace (2 ^ 53 - 2) with (inject_Z (2 ^ 53 - 2))
              by (vm_compute; reflexivity).
            rewrite <- Zle_Qle. lia. }
          rewrite Hex971 in *.
          assert (f <= (2 ^ 53 - 2) * 2 ^ 971).
          { rewrite Hf. apply Qmult_le_compat_r; auto. now apply Qlt_le_weak. }
          assert ((2 ^ 53 - 2) * 2 ^ 971 + 2 ^ 971 / 2 < 2 ^ 1024 - 2 ^ 970)
            by (vm_compute; reflexivity).
          qabs (f - a); set (P := 2 ^ 971) in *; clearbody P; lra. }
        rewrite Em in Hfa. vm_compute in Hfa. discriminate. }
      rewrite Hf, Hex971.
      assert (2 ^ 53 <= inject_Z m)
        by (rewrite <- pow2_inject by lia; rewrite <- Zle_Qle; lia).
      assert (2 ^ 1024 == 2 ^ 53 * 2 ^ 971) by (vm_compute; reflexivity).
      rewrite H0. apply Qmult_le_compat_r; auto. vm_compute. discriminate.
    + apply (Qle_trans _ (2 ^ e)); [apply pow2_le; lia|]. now apply Hnormal.
  - (* an overflowing result comes from beyond the threshold *)
    intros Hover.
    assert (Hex971 : (971 <= ex)%Z).
    { destruct (Z_lt_le_dec ex 971) as [Hlt|]; auto. exfalso.
      assert (2 ^ ex <= 2 ^ 970) by (apply pow2_le; lia).
      assert (f <= 2 ^ 53 * 2 ^ 970).
      { rewrite Hf. apply (Qle_trans _ (2 ^ 53 * 2 ^ ex)).
        - apply Qmult_le_compat_r; auto. now apply Qlt_le_weak.
        - rewrite !(Qmult_comm (2 ^ 53)). apply Qmult_le_compat_r; auto.
          vm_compute. discriminate. }
      assert (2 ^ 53 * 2 ^ 970 < 2 ^ 1024) by (vm_compute; reflexivity).
      lra. }
    assert (Heq : ex = (e - 52)%Z) by lia.
    destruct (Z.eq_dec ex 971) as [E971|Hne].
    + rewrite E971 in *.
      assert (2 ^ 971 / 2 == 2 ^ 970) by (vm_compute; reflexivity).
      qabs (f - a); lra.
    + apply (Qle_trans _ (2 ^ 1024)); [vm_compute; discriminate|].
      apply (Qle_trans _ (2 ^ e)); [apply pow2_le; lia|exact Hlo].
  - intros Hfin.
    assert (Hex971 : (ex <= 971)%Z).
    { destruct (Z_le_gt_dec ex 971) as [|Hgt]; auto. exfalso.
      assert (Heq : ex = (e - 52)%Z) by lia.
      pose proof (Hnormal Heq).
      assert (2 ^ 1024 <= 2 ^ e) by (apply pow2_le; lia). lra. }
    assert (Hexlo : (-1074 <= ex)%Z) by lia.
    split.
    + destruct (Z_lt_le_dec m (2 ^ 53)) as [Hlt|Hge].
      * exists m, ex. split; [lia|]. split; [lia|exact Hf].
      * assert (m = 2 ^ 53)%Z as Em by lia.
        assert (ex <> 971%Z).
        { intros E971. rewrite Em, E971 in Hf.
          assert (inject_Z (2 ^ 53) * 2 ^ 971 == 2 ^ 1024) by (vm_compute; reflexivity).
          lra. }
        exists (2 ^ 52)%Z, (ex + 1)%Z. split; [lia|]. split; [lia|].
        rewrite Hf, Em, pow2_succ.
        assert (inject_Z (2 ^ 53) == 2 * inject_Z (2 ^ 52)) by (vm_compute; reflexivity).
        rewrite H0. ring.
    + intros g Hg.
      destruct (binary64_bound g ex Hg) as [(k & Hk)|Hsmall].
      * rewrite (Qabs_wd (g - a) (inject_Z k * 2 ^ ex - a)) by (now rewrite Hk).
        apply Hnear.
      * assert (Heq : ex = (e - 52)%Z \/ ex = (-1074)%Z) by lia.
        destruct Heq as [Heq|Heq].
        -- assert (2 ^ (ex + 52) == 2 ^ e)
             by (apply Qpower_comp; [reflexivity|lia]).
           pose proof (Hnear (2 ^ 52)%Z) as Hk.
           assert (inject_Z (2 ^ 52) * 2 ^ ex == 2 ^ e).
           { rewrite pow2_inject by lia. rewrite <- pow2_plus.
             apply Qpower_comp; [reflexivity|lia]. }
           assert (Hk' : Qabs (f - a) <= Qabs (2 ^ e - a)).
           { setoid_replace (2 ^ e - a) with (inject_Z (2 ^ 52) * 2 ^ ex - a)
               by (rewrite H0; reflexivity).
             exact Hk. }
           clear Hk. rewrite H in Hsmall.
           qabs (f - a); qabs (2 ^ e - a); qabs (g - a); lra.
        -- (* in the subnormal range every binary64 number is a multiple *)
           destruct Hg as (mg & eg & Hmg & Heg & Hg).
           pose proof (Hnear (mg * 2 ^ (eg - ex))%Z) as Hk.
           assert (inject_Z (mg * 2 ^ (eg - ex)) * 2 ^ ex == g).
           { rewrite Hg, inject_Z_mult, pow2_inject by lia.
             replace eg with ((eg - ex) + ex)%Z at 2 by lia.
             rewrite pow2_plus. ring. }
           setoid_replace (g - a) with (inject_Z (mg * 2 ^ (eg - ex)) * 2 ^ ex - a)
             by (rewrite H; reflexivity).
           exact Hk.
Qed.

(** [float_of_Q] returns a binary64 number nearest to its argument, and
    raises exactly from [2 ^ 1024 - 2 ^ 970] on, the middle between the
    greatest binary64 number and [2 ^ 1024]. *)
Lemma float_of_Q_spec (q : Q) :
  (Qabs q < 2 ^ 1024 - 2 ^ 970 ->
   exists f, float_of_Q q = Ok f /\ nearest_binary64 q f) /\
  (2 ^ 1024 - 2 ^ 970 <= Qabs q -> float_of_Q q = Raise OverflowError).
Proof.
  unfold float_of_Q. destruct (Qeq_bool q 0) eqn:E0.
  - apply Qeq_bool_iff in E0. split.
    + intros _. exists 0. split; auto. split.
      * exists 0%Z, 0%Z. split; [reflexivity|]. split; [lia|reflexivity].
      * intros g _. setoid_replace (0 - q) with 0 by (rewrite E0; ring).
        apply Qabs_nonneg.
    + intros H. exfalso. rewrite E0 in H. vm_compute in H. now apply H.
  - assert (Hq : ~ q == 0).
    { intros H. apply Qeq_bool_iff in H. congruence. }
    assert (Ha : 0 < Qabs q).
    { destruct (Qabs_cases q) as [[H1 H2]|[H1 H2]]; rewrite H2.
      - destruct (Qle_lt_or_eq _ _ H1) as [|E]; auto. elim Hq. now symmetry.
      - destruct (Qle_lt_or_eq _ _ H1) as [H|E]; [lra|]. contradiction. }
    destruct (round_to_quantum_spec (Qabs q) Ha) as [Hover Hfin].
    split.
    + intros Hsmall.
      assert (Hlt : round_to_quantum (Qabs q) < 2 ^ 1024).
      { apply Qnot_le_lt. intros H. apply Hover in H. lra. }
      assert (Qle_bool (2 ^ 1024) (round_to_quantum (Qabs q)) = false) as ->.
      { destruct (Qle_bool (2 ^ 1024) (round_to_quantum (Qabs q))) eqn:T; auto.
        apply Qle_bool_iff in T. lra. }
      destruct (Hfin Hlt) as [Hb Hn]. eexists. split; [reflexivity|].
      set (f := round_to_quantum (Qabs q)) in *.
      destruct (Qle_bool 0 q) eqn:S.
      * apply Qle_bool_iff in S.
        assert (Eq : Qabs q == q) by (now apply Qabs_pos).
        split.
        -- apply (binary64_eq f); [symmetry; apply Qred_correct|exact Hb].
        -- intros g Hg. rewrite Qred_correct.
           specialize (Hn g Hg).
           setoid_replace (f - q) with (f - Qabs q) by (rewrite Eq; reflexivity).
           setoid_replace (g - q) with (g - Qabs q) by (rewrite Eq; reflexivity).
           exact Hn.
      * assert (S' : q <= 0).
        { apply Qlt_le_weak, Qnot_le_lt. intros H. apply Qle_bool_iff in H.
          congruence. }
        assert (Eq : Qabs q == - q) by (now apply Qabs_neg).
        split.
        -- apply (binary64_eq (- f)); [symmetry; apply Qred_correct|].
           now apply binary64_opp.
        -- intros g Hg. rewrite Qred_correct.
           specialize (Hn (- g) (binary64_opp g Hg)).
           setoid_replace (- f - q) with (- (f - Qabs q)) by (rewrite Eq; ring).
           setoid_replace (g - q) with (- (- g - Qabs q)) by (rewrite Eq; ring).
           now rewrite !Qabs_opp.
    + intros Hbig. apply Hover in Hbig. apply Qle_bool_iff in Hbig.
      now rewrite Hbig.
Qed.

(** * The mean of ints *)

Lemma integral_mod (total n : Z) :
  (0 < n)%Z ->
  (integral (inject_Z total / inject_Z n) <-> (total mod n = 0)%Z).
Proof.
  intros Hn.
  assert (HN : ~ inject_Z n == 0).
  { intros H. change 0 with (inject_Z 0) in H. rewrite inject_Z_injective in H. lia. }
  split.
  - intros (z & Hz).
    assert (inject_Z total == inject_Z (z * n)) as E.
    { rewrite inject_Z_mult, <- Hz. field. exact HN. }
    rewrite inject_Z_injective in E. rewrite E. apply Z.mod_mul. lia.
  - intros Hm. exists (total / n)%Z.
    pose proof (Z.div_mod total n ltac:(lia)) as E. rewrite Hm in E.
    rewrite E at 1. rewrite Z.add_0_r, inject_Z_mult. field. exact HN.
Qed.

Lemma mean_spec (data : list Z) :
  data <> [] -> mean_outcome (arithmetic_mean data) (mean data).
Proof.
  intros Hne. unfold mean, arithmetic_mean, Zsum.
  destruct data as [|w data]; [congruence|].
  set (total := fold_right Z.add 0%Z (w :: data)).
  set (n := Z.of_nat (length (w :: data))).
  assert (Hn : (0 < n)%Z) by (unfold n; simpl length; lia).
  pose proof (integral_mod total n Hn) as Hint.
  destruct (float_of_Q_spec (inject_Z total / inject_Z n)) as [Hok Hover].
  destruct (Z.eqb_spec (total mod n) 0) as [E|E].
  - split; [|split].
    + intros _. eexists. split; [reflexivity|].
      pose proof (Z.div_mod total n ltac:(lia)) as D. rewrite E in D.
      rewrite D at 2. rewrite Z.add_0_r, inject_Z_mult. field.
      intros H. change 0 with (inject_Z 0) in H. rewrite inject_Z_injective in H. lia.
    + intros H. elim H. now apply Hint.
    + intros H. elim H. now apply Hint.
  - split; [|split].
    + intros H. elim E. now apply Hint.
    + intros _. exact Hok.
    + intros _. exact Hover.
Qed.

Lemma mean_perm (l l' : list Z) : Permutation l l' -> mean l = mean l'.
Proof.
  intros H. unfold mean.
  assert (fold_right Z.add 0%Z l = fold_right Z.add 0%Z l') as Es
      by (induction H; simpl; lia).
  pose proof (Permutation_length H) as El.
  destruct l as [|x l], l' as [|x' l']; try discriminate; auto.
  now rewrite Es, El.
Qed.

Lemma mean_raises (data : list Z) :
  mean data = Raise StatisticsError <-> data = [].
Proof.
  split; [|intros ->; reflexivity].
  destruct data as [|w data]; auto. intros H. exfalso.
  destruct (mean_spec (w :: data)) as (H1 & H2 & H3); [discriminate|].
  unfold mean in H.
  destruct ((fold_right Z.add 0 (w :: data) mod Z.of_nat (length (w :: data)) =? 0)%Z);
    [discriminate|].
  unfold float_of_Q in H.
  destruct (Qeq_bool _ 0); [discriminate|].
  destruct (Qle_bool (2 ^ 1024) _); discriminate.
Qed.

(** * Path metrics *)

Lemma Qsum_inject (l : list Z) : Qsum (map inject_Z l) == inject_Z (Zsum l).
Proof.
  induction l as [|x l IH]; simpl; [reflexivity|].
  rewrite IH, inject_Z_plus. reflexivity.
Qed.

Lemma Zsum_perm (l l' : list Z) : Permutation l l' -> Zsum l = Zsum l'.
Proof.
  induction 1; simpl; lia.
Qed.

Lemma wf_edges_NoDup (g : DiGraph) : wf g -> NoDup (edges g).
Proof.
  intros (_ & Hk & _). eapply NoDup_map_inv. exact Hk.
Qed.

(** In a well-formed graph an ordered pair carries one weight. *)
Lemma wf_weight_unique (g : DiGraph) (u v : node) (w w' : Z) :
  wf g -> In (u, v, w) (edges g) -> In (u, v, w') (edges g) -> w = w'.
Proof.
  intros (_ & Hk & _). induction (edges g) as [|e es IH]; simpl; [intros []|].
  simpl in Hk. inversion Hk as [|? ? Hn Hd]; subst.
  intros [->|H1] [H2|H2].
  - congruence.
  - exfalso. apply Hn. apply in_map_iff. exists (u, v, w'). auto.
  - subst e. exfalso. apply Hn. apply in_map_iff. exists (u, v, w). auto.
  - auto.
Qed.

Lemma subgraph_edges_In (g : DiGraph) (p : path) (e : edge) :
  wf g ->
  (In e (subgraph_edges g p) <-> In e (induced_edges g p)).
Proof.
  intros (_ & _ & He). unfold subgraph_edges, induced_edges.
  rewrite in_flat_map, filter_In, andb_true_iff, !mem_In. split.
  - intros (n & Hn & H). apply filter_In in Hn as [Hn Hp].
    apply filter_In in H as [H Hc]. apply andb_true_iff in Hc as [Hs Hd].
    str_cases. subst n. auto.
  - intros (H & Hs & Hd). exists (src e). split.
    + apply filter_In. split; [apply He; auto|now apply mem_In].
    + apply filter_In. split; auto.
      rewrite str_eqb_refl. simpl. now apply mem_In.
Qed.

Lemma subgraph_edges_NoDup (g : DiGraph) (p : path) :
  wf g -> NoDup (subgraph_edges g p).
Proof.
  intros Hwf. pose proof (wf_edges_NoDup g Hwf) as Hes.
  destruct Hwf as (Hn & _ & _). unfold subgraph_edges.
  assert (Hm : NoDup (filter (fun n => mem n p) (nodes g)))
    by now apply NoDup_filter.
  revert Hm. generalize (filter (fun n => mem n p) (nodes g)) as ns.
  induction ns as [|n ns IH]; simpl; intros Hm; [constructor|].
  inversion Hm as [|? ? Hnin Hnd]; subst.
  apply NoDup_app.
  - now apply NoDup_filter.
  - now apply IH.
  - intros e H1 H2. apply filter_In in H1 as [_ H1].
    apply andb_true_iff in H1 as [H1 _]. str_cases.
    apply in_flat_map in H2 as (m & Hm' & H2).
    apply filter_In in H2 as [_ H2].
    apply andb_true_iff in H2 as [H2 _]. str_cases. congruence.
Qed.

Lemma subgraph_edges_perm (g : DiGraph) (p : path) :
  wf g -> Permutation (subgraph_edges g p) (induced_edges g p).
Proof.
  intros Hwf. apply NoDup_Permutation.
  - now apply subgraph_edges_NoDup.
  - apply NoDup_filter. now apply wf_edges_NoDup.
  - intros e. now apply subgraph_edges_In.
Qed.

(** [path_average_weight] averages the weights of the induced edges. *)
Lemma path_average_weight_mean (g : DiGraph) (p : path) :
  wf g ->
  path_average_weight g p = mean (map weight (induced_edges g p)).
Proof.
  intros Hwf. unfold path_average_weight. apply mean_perm.
  apply Permutation_map. now apply subgraph_edges_perm.
Qed.

(** [path_average_weight] raises nothing but [StatisticsError] and
    [OverflowError]. *)
Lemma path_average_weight_raises (g : DiGraph) (p : path) (e : exn) :
  path_average_weight g p = Raise e ->
  e = StatisticsError \/ e = OverflowError.
Proof.
  unfold path_average_weight, mean.
  destruct (map weight (subgraph_edges g p)) as [|w ws]; [intros H; left; congruence|].
  destruct (_ =? 0)%Z; [discriminate|].
  unfold float_of_Q. destruct (Qeq_bool _ 0); [discriminate|].
  destruct (Qle_bool (2 ^ 1024) _); [|discriminate].
  intros H. right. congruence.
Qed.

Lemma consecutive_pairs_In (p : path) (u v : node) :
  In (u, v) (consecutive_pairs p) -> In u p /\ In v p.
Proof.
  induction p as [|a p IH]; simpl; [intros []|].
  destruct p as [|b p]; [intros []|].
  intros [H|H].
  - injection H as <- <-. split; [now left|right; now left].
  - destruct (IH H). split; now right.
Qed.

Lemma consecutive_pairs_NoDup (p : path) :
  NoDup p -> NoDup (consecutive_pairs p).
Proof.
  induction p as [|a p IH]; simpl; intros H; [constructor|].
  destruct p as [|b p]; [constructor|].
  inversion H as [|? ? Hn Hd]; subst. constructor; auto.
  intros Hin. apply consecutive_pairs_In in Hin as [Ha _]. contradiction.
Qed.

(** The edges that a walk follows. *)
Lemma weights_along_edges (g : DiGraph) (p : path) (ws : list Z) :
  weights_along g p ws ->
  exists es, map weight es = ws /\
             map edge_key es = consecutive_pairs p /\
             forall e, In e es -> In e (edges g).
Proof.
  induction 1 as [n|u v p w ws He Hw (es & Hws & Hks & Hin)].
  - exists []. repeat split; auto. intros e [].
  - exists ((u, v, w) :: es). simpl. rewrite Hws, Hks.
    repeat split; auto. intros e [<-|H]; auto.
Qed.

(** On a simple walk without chords, the induced edges are the edges of the
    walk. *)
Lemma induced_edges_of_walk (g : DiGraph) (p : path) (ws : list Z) :
  wf g -> NoDup p -> weights_along g p ws -> chordless g p ->
  exists es, Permutation (induced_edges g p) es /\ map weight es = ws.
Proof.
  intros Hwf Hnd Hw Hch.
  destruct (weights_along_edges g p ws Hw) as (es & Hws & Hks & Hin).
  exists es. split; auto.
  apply NoDup_Permutation.
  - apply NoDup_filter. now apply wf_edges_NoDup.
  - apply (NoDup_map_inv edge_key). rewrite Hks.
    now apply consecutive_pairs_NoDup.
  - intros e. unfold induced_edges.
    rewrite filter_In, andb_true_iff, !mem_In. split.
    + intros (He & Hs & Hd).
      pose proof (Hch e He Hs Hd) as Hpair.
      rewrite <- Hks in Hpair. apply in_map_iff in Hpair as (e' & Hk & He').
      destruct e as [[u v] w], e' as [[u' v'] w']. unfold edge_key in Hk.
      simpl in Hk. injection Hk as -> ->.
      now rewrite (wf_weight_unique g u v w w' Hwf He (Hin _ He')).
    + intros He. split; [now apply Hin|].
      assert (In (edge_key e) (consecutive_pairs p)) as Hpair
          by (rewrite <- Hks; now apply in_map).
      destruct e as [[u v] w]. now apply consecutive_pairs_In in Hpair.
Qed.

(** C4, counterexample.  (1) In [chord_graph] the path A, B, C follows two
    edges of weight 1, so its mean weight is 1, but the chord A-C of weight 4
    is averaged in and the result is 2.  (2) In [shortcut_graph] the list
    B, A is not a path (there is no edge from B to A), yet the result is the
    weight 5 of the edge from A to B instead of a failure. *)
Lemma path_average_weight_counts_chords :
  (weights_along chord_graph [s "A"; s "B"; s "C"] [1; 1]%Z /\
   path_average_weight chord_graph [s "A"; s "B"; s "C"] = Ok 2 /\
   arithmetic_mean [1; 1]%Z == 1) /\
  ((forall w, ~ In (s "B", s "A", w) (edges shortcut_graph)) /\
   path_average_weight shortcut_graph [s "B"; s "A"] = Ok 5).
Proof.
  split; split.
  - apply weights_step; [vm_compute; auto|].
    apply weights_step; [vm_compute; auto|]. apply weights_one.
  - split; vm_compute; reflexivity.
  - intros w H. vm_compute in H. intuition discriminate.
  - vm_compute. reflexivity.
Qed.

(** C4, amended.  [path_average_weight] averages the weights of all the
    edges of the graph that join two nodes of the path, in either direction
    and consecutive or not; it validates nothing, and it raises
    [StatisticsError] exactly when no edge joins two nodes of the path.
    Otherwise its outcome is the arithmetic mean of these weights as a Python
    number: the mean itself when it is an integer, else the binary64 number
    nearest to it, or [OverflowError] when the mean lies beyond the binary64
    range.  On a simple path without chords the weights are those along its
    consecutive pairs. *)
Theorem path_average_weight_induced (g : DiGraph) (p : path) :
  wf g ->
  (path_average_weight g p = Raise StatisticsError <-> induced_edges g p = []) /\
  (induced_edges g p <> [] ->
   mean_outcome (arithmetic_mean (map weight (induced_edges g p)))
                (path_average_weight g p)) /\
  (forall ws, NoDup p -> weights_along g p ws -> chordless g p -> ws <> [] ->
              mean_outcome (arithmetic_mean ws) (path_average_weight g p)).
Proof.
  intros Hwf. rewrite (path_average_weight_mean g p Hwf).
  split; [|split].
  - rewrite mean_raises. split.
    + intros H. now apply map_eq_nil in H.
    + intros ->. reflexivity.
  - intros Hne. apply mean_spec. intros H. now apply map_eq_nil in H.
  - intros ws Hnd Hw Hch Hne.
    destruct (induced_edges_of_walk g p ws Hwf Hnd Hw Hch) as (es & Hp & Hws).
    rewrite (mean_perm _ _ (Permutation_map weight Hp)), Hws.
    now apply mean_spec.
Qed.

Lemma path_average_weight_induced_witness :
  exists m, path_average_weight bubble_graph [s "A"; s "C"; s "D"] = Ok m /\
            m == arithmetic_mean [5; 5]%Z.
Proof.
  refine (proj1 (proj2 (proj2 (path_average_weight_induced bubble_graph
                                 [s "A"; s "C"; s "D"] _)) [5; 5]%Z _ _ _ _) _).
  - apply wfb_sound. vm_compute. reflexivity.
  - repeat constructor; simpl; intuition discriminate.
  - apply weights_step; [vm_compute; auto 10|].
    apply weights_step; [vm_compute; auto 10|]. apply weights_one.
  - intros e He Hs Hd. vm_compute in He.
    repeat (destruct He as [<-|He]; [vm_compute in Hs, Hd |- *; intuition discriminate|]).
    destruct He.
  - discriminate.
  - exists 5%Z. vm_compute. reflexivity.
Defined.

(** A mean that is not an integer is rounded: the path A, B, D of
    [shortcut_graph] has the induced weights 5, 5 and 1, and the result is
    the binary64 number nearest to 11/3, not 11/3. *)
Example path_average_weight_rounds :
  path_average_weight shortcut_graph [s "A"; s "B"; s "D"] =
    Ok (8256599316845909 # 2251799813685248) /\
  ~ (8256599316845909 # 2251799813685248) == 11 # 3.
Proof.
  split; [vm_compute; reflexivity|]. intros H. vm_compute in H. discriminate.
Qed.

(** * Sources and sinks *)

Lemma filter_length_0 {A : Type} (f : A -> bool) (l : list A) :
  length (filter f l) = 0%nat <-> forall x, In x l -> f x = false.
Proof.
  induction l as [|x l IH]; simpl.
  - split; auto. intros _ y [].
  - destruct (f x) eqn:E; simpl.
    + split; [discriminate|]. intros H. specialize (H x (or_introl eq_refl)).
      congruence.
    + rewrite IH. split.
      * intros H y [<-|Hy]; auto.
      * intros H y Hy. apply H. now right.
Qed.

Lemma get_starting_nodes_In (g : DiGraph) (n : node) :
  In n (get_starting_nodes g) <-> In n (nodes g) /\ in_degree g n = 0%nat.
Proof.
  unfold get_starting_nodes, predecessors, in_degree.
  rewrite filter_In, Nat.eqb_eq, length_map. reflexivity.
Qed.

Lemma get_sink_nodes_In (g : DiGraph) (n : node) :
  In n (get_sink_nodes g) <-> In n (nodes g) /\ out_degree g n = 0%nat.
Proof.
  unfold get_sink_nodes, successors, out_degree.
  rewrite filter_In, Nat.eqb_eq, length_map. reflexivity.
Qed.

Lemma in_degree_0 (g : DiGraph) (n : node) :
  in_degree g n = 0%nat <-> forall e, In e (edges g) -> dst e <> n.
Proof.
  unfold in_degree. rewrite filter_length_0.
  split; intros H e He; apply str_eqb_neq; auto.
Qed.

Lemma out_degree_0 (g : DiGraph) (n : node) :
  out_degree g n = 0%nat <-> forall e, In e (edges g) -> src e <> n.
Proof.
  unfold out_degree. rewrite filter_length_0.
  split; intros H e He; apply str_eqb_neq; auto.
Qed.

(** C8, counterexample.  Simplifying [tip_graph] removes B and leaves the
    graph with the edges A-C and C-D and the node X without any edge: X is
    both a source and a sink of a graph that has edges. *)
Lemma sources_and_sinks_overlap :
  (forall trivial_path randint,
      simplify_bubbles 2 trivial_path randint tip_graph =
      Some (Ok simplified_tip_graph)) /\
  edges simplified_tip_graph <> [] /\
  In (s "X") (get_starting_nodes simplified_tip_graph) /\
  In (s "X") (get_sink_nodes simplified_tip_graph).
Proof.
  split; [intros trivial_path randint; vm_compute; reflexivity|].
  split; [discriminate|]. split; vm_compute; auto.
Qed.

(** C8, amended.  [get_starting_nodes] returns exactly the nodes of in-degree
    0 (no edge enters them) and [get_sink_nodes] exactly the nodes of
    out-degree 0.  A node is in both lists exactly when it is an isolated
    node of the graph, so the two lists are disjoint whenever the graph has
    no isolated node. *)
Theorem sources_sinks_partition (g : DiGraph) :
  (forall n, In n (get_starting_nodes g) <->
             In n (nodes g) /\ forall e, In e (edges g) -> dst e <> n) /\
  (forall n, In n (get_sink_nodes g) <->
             In n (nodes g) /\ forall e, In e (edges g) -> src e <> n) /\
  (forall n, In n (get_starting_nodes g) /\ In n (get_sink_nodes g) <->
             In n (nodes g) /\ isolated g n) /\
  ((forall n, In n (nodes g) -> ~ isolated g n) ->
   forall n, In n (get_starting_nodes g) -> ~ In n (get_sink_nodes g)).
Proof.
  assert (H1 : forall n, In n (get_starting_nodes g) <->
             In n (nodes g) /\ forall e, In e (edges g) -> dst e <> n).
  { intros n. now rewrite get_starting_nodes_In, in_degree_0. }
  assert (H2 : forall n, In n (get_sink_nodes g) <->
             In n (nodes g) /\ forall e, In e (edges g) -> src e <> n).
  { intros n. now rewrite get_sink_nodes_In, out_degree_0. }
  assert (H3 : forall n, In n (get_starting_nodes g) /\ In n (get_sink_nodes g) <->
             In n (nodes g) /\ isolated g n).
  { intros n. rewrite H1, H2. unfold isolated. split.
    - intros [[Hn Hd] [_ Hs]]. split; auto.
    - intros [Hn Hi]. repeat split; auto; intros e He; now apply Hi. }
  split; [exact H1|]. split; [exact H2|]. split; [exact H3|].
  intros Hiso n Hs Ht. apply (Hiso n); [now apply H1 in Hs|].
  apply H3. auto.
Qed.

Lemma sources_sinks_partition_witness :
  (forall n, In n (nodes bubble_graph) -> ~ isolated bubble_graph n) /\
  (forall n, In n (get_starting_nodes bubble_graph) ->
             ~ In n (get_sink_nodes bubble_graph)).
Proof.
  assert (H : forall n, In n (nodes bubble_graph) -> ~ isolated bubble_graph n).
  { intros n Hn Hiso. vm_compute in Hn.
    destruct Hn as [<-|[<-|[<-|[<-|[]]]]].
    - destruct (Hiso (s "A", s "B", 1%Z)) as [Hs _]; [vm_compute; auto|].
      now apply Hs.
    - destruct (Hiso (s "A", s "B", 1%Z)) as [_ Hd]; [vm_compute; auto|].
      now apply Hd.
    - destruct (Hiso (s "B", s "D", 1%Z)) as [_ Hd]; [vm_compute; auto|].
      now apply Hd.
    - destruct (Hiso (s "A", s "C", 5%Z)) as [_ Hd]; [vm_compute; auto|].
      now apply Hd. }
  split; [exact H|].
  exact (proj2 (proj2 (proj2 (sources_sinks_partition bubble_graph))) H).
Defined.

(** * Walks *)

Lemma successors_In (g : DiGraph) (u v : node) :
  In v (successors g u) <-> has_edge g u v.
Proof.
  unfold successors, has_edge. rewrite in_map_iff. split.
  - intros ([[a b] w] & Hb & H). apply filter_In in H as [H Ha].
    unfold src, dst in *. simpl in *. str_cases. subst. now exists w.
  - intros (w & H). exists (u, v, w). split; auto.
    apply filter_In. split; auto. apply str_eqb_refl.
Qed.

Lemma predecessors_In (g : DiGraph) (u v : node) :
  In u (predecessors g v) <-> has_edge g u v.
Proof.
  unfold predecessors, has_edge. rewrite in_map_iff. split.
  - intros ([[a b] w] & Hb & H). apply filter_In in H as [H Ha].
    unfold src, dst in *. simpl in *. str_cases. subst. now exists w.
  - intros (w & H). exists (u, v, w). split; auto.
    apply filter_In. split; auto. apply str_eqb_refl.
Qed.

Lemma has_edge_nodes (g : DiGraph) (u v : node) :
  wf g -> has_edge g u v -> In u (nodes g) /\ In v (nodes g).
Proof.
  intros (_ & _ & He) (w & H). exact (He _ H).
Qed.

Lemma chain_nodes (g : DiGraph) (u : node) (l : list node) :
  wf g -> chain g u l -> incl l (nodes g).
Proof.
  intros Hwf. revert u. induction l as [|v l IH]; intros u; simpl.
  - intros _ x [].
  - intros [He Hc] x [<-|Hx].
    + now apply (has_edge_nodes g u v Hwf He).
    + eapply IH; eauto.
Qed.

Lemma last_cons_default {A : Type} (x d d' : A) (l : list A) :
  last (x :: l) d = last (x :: l) d'.
Proof.
  revert x. induction l as [|y l IH]; intros x; simpl; auto.
  apply (IH y).
Qed.

Lemma last_cons_last {A : Type} (x d : A) (l : list A) :
  last (x :: l) d = last l x.
Proof.
  revert x. induction l as [|y l IH]; intros x; auto.
  change (last (x :: y :: l) d) with (last (y :: l) d).
  rewrite (IH y). simpl. destruct l; auto. apply last_cons_default.
Qed.

Lemma last_In {A : Type} (l : list A) (d : A) : l <> [] -> In (last l d) l.
Proof.
  induction l as [|x l IH]; [congruence|]. intros _.
  destruct l as [|y l]; [now left|].
  right. apply IH. discriminate.
Qed.

Lemma chain_app (g : DiGraph) (u : node) (l1 l2 : list node) :
  chain g u (l1 ++ l2) <-> chain g u l1 /\ chain g (last l1 u) l2.
Proof.
  revert u. induction l1 as [|v l1 IH]; intros u.
  - simpl. tauto.
  - rewrite last_cons_last. simpl. rewrite IH. tauto.
Qed.

Lemma walk_nodes (g : DiGraph) (a d : node) (p : path) :
  wf g -> walk g a d p -> incl p (nodes g).
Proof.
  intros Hwf (Ha & l & -> & Hc & _) x [<-|Hx]; auto.
  eapply chain_nodes; eauto.
Qed.

Lemma simple_path_length (g : DiGraph) (a d : node) (p : path) :
  wf g -> simple_path g a d p -> (length p <= length (nodes g))%nat.
Proof.
  intros Hwf [Hw Hnd]. apply NoDup_incl_length; auto.
  eapply walk_nodes; eauto.
Qed.

(** A simple path from a node to itself is the one-node path. *)
Lemma simple_path_refl (g : DiGraph) (a : node) (p : path) :
  simple_path g a a p -> p = [a].
Proof.
  intros [(_ & l & -> & _ & Hl) Hnd].
  destruct l as [|x l]; auto. exfalso.
  inversion Hnd as [|? ? Hn _]; subst. apply Hn.
  change (last (a :: x :: l) a) with (last (x :: l) a) in Hl.
  pose proof (last_In (x :: l) a ltac:(discriminate)) as H.
  now rewrite Hl in H.
Qed.

(** * Enumeration of simple paths *)

Lemma successors_NoDup (g : DiGraph) (u : node) :
  wf g -> NoDup (successors g u).
Proof.
  intros (_ & Hk & _). unfold successors.
  induction (edges g) as [|e es IH]; simpl; [constructor|].
  simpl in Hk. inversion Hk as [|? ? Hn Hd]; subst.
  destruct (str_eqb (src e) u) eqn:E; simpl; auto.
  constructor; auto. intros Hin. apply Hn.
  apply in_map_iff in Hin as (e' & Hd' & He').
  apply filter_In in He' as [He' Hs]. str_cases.
  apply in_map_iff. exists e'. split; auto.
  destruct e as [[a b] w], e' as [[a' b'] w'].
  unfold edge_key, src, dst in *. simpl in *. congruence.
Qed.

Lemma predecessors_NoDup (g : DiGraph) (v : node) :
  wf g -> NoDup (predecessors g v).
Proof.
  intros (_ & Hk & _). unfold predecessors.
  induction (edges g) as [|e es IH]; simpl; [constructor|].
  simpl in Hk. inversion Hk as [|? ? Hn Hd]; subst.
  destruct (str_eqb (dst e) v) eqn:E; simpl; auto.
  constructor; auto. intros Hin. apply Hn.
  apply in_map_iff in Hin as (e' & Hd' & He').
  apply filter_In in He' as [He' Hs]. str_cases.
  apply in_map_iff. exists e'. split; auto.
  destruct e as [[a b] w], e' as [[a' b'] w'].
  unfold edge_key, src, dst in *. simpl in *. congruence.
Qed.

(** Every enumerated path extends [visited] by a simple chain from [cur] to
    the target that avoids [visited]. *)
Lemma simple_paths_from_sound (g : DiGraph) (target : node) (fuel : nat) :
  forall visited cur p,
    In p (simple_paths_from fuel g target visited cur) ->
    exists child l,
      p = visited ++ child :: l /\
      chain g cur (child :: l) /\
      last (child :: l) cur = target /\
      NoDup (child :: l) /\
      (forall x, In x (child :: l) -> ~ In x visited).
Proof.
  induction fuel as [|fuel IH]; intros visited cur p; simpl; [intros []|].
  rewrite in_flat_map. intros (child & Hc & Hp).
  apply successors_In in Hc.
  destruct (mem child visited) eqn:Ev; [destruct Hp|]. str_cases.
  destruct (str_eqb child target) eqn:Et; str_cases.
  - destruct Hp as [<-|[]]. exists child, []. simpl.
    repeat split; auto.
    + constructor; [intros []|constructor].
    + intros x [<-|[]]. exact Ev.
  - apply IH in Hp as (c' & l & -> & Hch & Hl & Hnd & Hav).
    exists child, (c' :: l). rewrite <- app_assoc.
    split; [reflexivity|]. split; [split; auto|].
    split; [rewrite <- Hl; apply (last_cons_default c' cur child l)|]. split.
    + constructor; auto. intros Hin. apply (Hav child Hin).
      apply in_or_app. right. now left.
    + intros x [<-|Hx]; auto. intros Hv. apply (Hav x Hx).
      apply in_or_app. now left.
Qed.

(** Every simple chain from [cur] to the target that avoids [visited] and
    fits in the fuel is enumerated. *)
Lemma simple_paths_from_complete (g : DiGraph) (target : node) (l : list node) :
  forall fuel visited cur,
    (length l <= fuel)%nat ->
    l <> [] ->
    chain g cur l ->
    last l cur = target ->
    NoDup l ->
    (forall x, In x l -> ~ In x visited) ->
    In (visited ++ l) (simple_paths_from fuel g target visited cur).
Proof.
  induction l as [|child l IH]; intros fuel visited cur Hlen Hne Hch Hl Hnd Hav;
    [congruence|].
  destruct fuel as [|fuel]; [simpl in Hlen; lia|].
  simpl in Hch. destruct Hch as [He Hch].
  simpl simple_paths_from. apply in_flat_map. exists child.
  split; [now apply successors_In|].
  assert (mem child visited = false) as ->
      by (apply mem_not_In; apply Hav; now left).
  inversion Hnd as [|? ? Hn Hd]; subst.
  destruct l as [|c' l].
  - simpl. rewrite str_eqb_refl. now left.
  - assert (str_eqb child (last (child :: c' :: l) cur) = false) as ->.
    { apply str_eqb_neq. intros Heq. apply Hn. rewrite Heq.
      change (last (child :: c' :: l) cur) with (last (c' :: l) cur).
      apply last_In. discriminate. }
    replace (visited ++ child :: c' :: l) with ((visited ++ [child]) ++ c' :: l)
      by (now rewrite <- app_assoc).
    apply IH.
    + simpl in *. lia.
    + discriminate.
    + exact Hch.
    + apply (last_cons_default c' child cur l).
    + exact Hd.
    + intros x Hx Hv. apply in_app_or in Hv as [Hv|[<-|[]]].
      * apply (Hav x); auto. now right.
      * contradiction.
Qed.

Lemma NoDup_flat_map {A B : Type} (f : A -> list B) (l : list A) :
  NoDup l ->
  (forall a, In a l -> NoDup (f a)) ->
  (forall a a' b, In a l -> In a' l -> In b (f a) -> In b (f a') -> a = a') ->
  NoDup (flat_map f l).
Proof.
  induction l as [|a l IH]; simpl; intros Hnd Hf Hinj; [constructor|].
  inversion Hnd as [|? ? Hn Hd]; subst.
  apply NoDup_app.
  - apply Hf. now left.
  - apply IH; auto.
    intros a1 a2 b H1 H2. apply Hinj; now right.
  - intros b Hb Hb'. apply in_flat_map in Hb' as (a' & Ha' & Hb').
    assert (a = a') by (apply (Hinj a a' b); auto; now right).
    subst a'. contradiction.
Qed.

(** No path is enumerated twice. *)
Lemma simple_paths_from_NoDup (g : DiGraph) (target : node) (fuel : nat) :
  wf g ->
  forall visited cur, NoDup (simple_paths_from fuel g target visited cur).
Proof.
  intros Hwf. induction fuel as [|fuel IH]; intros visited cur; simpl;
    [constructor|].
  apply NoDup_flat_map.
  - now apply successors_NoDup.
  - intros child _. destruct (mem child visited); [constructor|].
    destruct (str_eqb child target); [|apply IH].
    constructor; [intros []|constructor].
  - assert (Hhead : forall child p,
               In p (if mem child visited then []
                     else if str_eqb child target then [visited ++ [child]]
                          else simple_paths_from fuel g target (visited ++ [child]) child) ->
               exists l, p = visited ++ child :: l).
    { intros child p Hp. destruct (mem child visited); [destruct Hp|].
      destruct (str_eqb child target).
      - destruct Hp as [<-|[]]. now exists [].
      - apply simple_paths_from_sound in Hp as (c & l & -> & _).
        exists (c :: l). now rewrite <- app_assoc. }
    intros a a' p _ _ Hp Hp'.
    apply Hhead in Hp as (l & ->). apply Hhead in Hp' as (l' & Heq).
    apply app_inv_head in Heq. congruence.
Qed.

(** [all_simple_paths] between two distinct nodes of the graph lists every
    simple path from the first to the second, each exactly once. *)
Lemma all_simple_paths_spec (tp : bool) (g : DiGraph) (source target : node) :
  wf g -> In source (nodes g) -> In target (nodes g) -> source <> target ->
  exists L, all_simple_paths tp g source target = Ok L /\
            NoDup L /\
            forall p, In p L <-> simple_path g source target p.
Proof.
  intros Hwf Hs Ht Hne. unfold all_simple_paths.
  apply mem_In in Hs as Hs'. apply mem_In in Ht as Ht'.
  rewrite Hs', Ht'. simpl.
  apply str_eqb_neq in Hne as Hne'. rewrite Hne'.
  eexists. split; [reflexivity|].
  split; [now apply simple_paths_from_NoDup|].
  intros p. split.
  - intros Hp.
    apply simple_paths_from_sound in Hp as (c & l & -> & Hch & Hl & Hnd & Hav).
    split.
    + split; auto. exists (c :: l). split; [reflexivity|].
      split; [exact Hch|]. change (last (c :: l) source = target). exact Hl.
    + simpl. constructor; auto. intros Hin. apply (Hav source Hin). now left.
  - intros [(_ & l & -> & Hch & Hl) Hnd].
    assert (length (source :: l) <= length (nodes g))%nat as Hlen.
    { apply (simple_path_length g source target); auto.
      split; auto. split; auto. now exists l. }
    rewrite last_cons_last in Hl.
    inversion Hnd as [|? ? Hn Hd]; subst.
    change (source :: l) with ([source] ++ l).
    apply simple_paths_from_complete; auto.
    + simpl in Hlen. lia.
    + intros ->. simpl in Hne. congruence.
    + intros x Hx [<-|[]]. contradiction.
Qed.

Lemma all_simple_paths_same (tp : bool) (g : DiGraph) (n : node) :
  In n (nodes g) ->
  all_simple_paths tp g n n = Ok (if tp then [[n]] else []).
Proof.
  intros H. unfold all_simple_paths. apply mem_In in H. rewrite H. simpl.
  now rewrite str_eqb_refl.
Qed.

(** * Reachability *)

Lemma reach_sound (g : DiGraph) (v : node) (fuel : nat) :
  forall u, reach fuel g u v = true ->
            exists l, chain g u l /\ last l u = v.
Proof.
  induction fuel as [|fuel IH]; intros u; simpl; rewrite orb_true_iff.
  - intros [H|H]; [|discriminate]. str_cases. subst. now exists [].
  - intros [H|H].
    + str_cases. subst. now exists [].
    + apply existsb_exists in H as (x & Hx & Hr).
      apply successors_In in Hx.
      destruct (IH x Hr) as (l & Hc & Hl).
      exists (x :: l). split; [split; auto|].
      now rewrite last_cons_last.
Qed.

Lemma reach_complete (g : DiGraph) (v : node) (l : list node) :
  forall fuel u, (length l <= fuel)%nat -> chain g u l -> last l u = v ->
                 reach fuel g u v = true.
Proof.
  induction l as [|x l IH]; intros fuel u Hlen Hc Hl.
  - simpl in Hl. subst. destruct fuel; simpl; now rewrite str_eqb_refl.
  - destruct fuel as [|fuel]; [simpl in Hlen; lia|].
    simpl. apply orb_true_iff. right. apply existsb_exists.
    destruct Hc as [He Hc]. exists x. split; [now apply successors_In|].
    apply IH; auto.
    + simpl in Hlen. lia.
    + now rewrite last_cons_last in Hl.
Qed.

Lemma reach_reaches (g : DiGraph) (u v : node) (fuel : nat) :
  In u (nodes g) -> reach fuel g u v = true -> reaches g u v.
Proof.
  intros Hu Hr. destruct (reach_sound g v fuel u Hr) as (l & Hc & Hl).
  exists (u :: l). split; auto. exists l. repeat split; auto.
  now rewrite last_cons_last.
Qed.

(** When a simple path exists, [has_path] answers [True]. *)
Lemma has_path_simple_path (g : DiGraph) (a d : node) (p : path) :
  wf g -> In d (nodes g) -> simple_path g a d p -> has_path g a d = Ok true.
Proof.
  intros Hwf Hd [(Ha & l & -> & Hc & Hl) Hnd]. unfold has_path.
  apply mem_In in Ha as Ha'. apply mem_In in Hd as Hd'. rewrite Ha', Hd'.
  simpl. f_equal.
  assert (length (a :: l) <= length (nodes g))%nat as Hlen.
  { apply (simple_path_length g a d); auto. split; auto. split; auto.
    now exists l. }
  apply (reach_complete g d l); auto.
  - simpl in Hlen. lia.
  - now rewrite last_cons_last in Hl.
Qed.

(** * Contig extraction *)

Lemma contig_of_label (p : path) :
  (forall n, In n (tl p) -> n <> []) ->
  p <> [] ->
  contig_of p = Ok (contig_label p).
Proof.
  destruct p as [|n0 rest]; [congruence|]. intros Hne _. simpl in Hne.
  unfold contig_of, contig_label.
  revert n0. induction rest as [|n rest IH]; intros n0; simpl.
  - now rewrite app_nil_r.
  - destruct n as [|c cs]; [exfalso; apply (Hne []); auto; now left|].
    change (last_char (c :: cs)) with (Ok (lastc (c :: cs))).
    simpl bind. rewrite IH by (intros m Hm; apply Hne; now right).
    rewrite <- app_assoc. reflexivity.
Qed.

Lemma contig_label_length (p : path) :
  length (contig_label p) = (length (hd [] p) + (length p - 1))%nat.
Proof.
  destruct p as [|n0 rest]; simpl; auto.
  rewrite length_app, length_map. lia.
Qed.

(** Along an edge of a de Bruijn graph the target label is the source label
    shifted by one character. *)
Lemma debruijn_shift (g : DiGraph) (u v : node) :
  debruijn g -> has_edge g u v ->
  u <> [] /\ v = tl u ++ [lastc v] /\ length v = length u.
Proof.
  intros Hdb (w & He). destruct (Hdb _ He) as (Hu & Hv & Hov).
  unfold src, dst in *. simpl in *.
  assert (v = tl u ++ [lastc v]) as Heq.
  { rewrite Hov. now apply app_removelast_last. }
  repeat split; auto.
  rewrite Heq at 1. rewrite length_app, tl_length. simpl.
  destruct u; [congruence|]. simpl. lia.
Qed.



Lemma chain_entered (g : DiGraph) (l : list node) :
  forall u n, chain g u l -> In n l -> exists m, has_edge g m n.
Proof.
  induction l as [|v l IH]; intros u n Hc Hn; [destruct Hn|].
  destruct Hc as [He Hc]. destruct Hn as [<-|Hn]; [now exists u|].
  eapply IH; eauto.
Qed.

Lemma walk_contig_of (g : DiGraph) (a d : node) (p : path) :
  debruijn g -> walk g a d p -> contig_of p = Ok (contig_label p).
Proof.
  intros Hdb (_ & l & -> & Hc & _). apply contig_of_label; [|discriminate].
  simpl. intros n Hn.
  destruct (chain_entered g l a n Hc Hn) as (m & w & He).
  now destruct (Hdb _ He) as (_ & H & _).
Qed.

(** The innermost loop of [get_contigs]: one record per path. *)
Lemma get_contigs_paths (L : list path) :
  (forall p, In p L -> contig_of p = Ok (contig_label p)) ->
  forall acc,
    foldM (fun contigus p =>
             contig <- contig_of p ;;
             Ok (contigus ++ [(contig, length contig)])) L acc =
    Ok (acc ++ map contig_record L).
Proof.
  induction L as [|p L IH]; intros Hok acc; simpl.
  - now rewrite app_nil_r.
  - rewrite (Hok p) by now left. simpl bind.
    rewrite IH by (intros q Hq; apply Hok; now right).
    rewrite <- app_assoc. simpl. unfold contig_record at 2.
    now rewrite contig_label_length.
Qed.

(** What the library counts as a simple path from [i] to [j]: a simple path
    with at least one edge, and also the one-node path when [trivial_path]
    is set. *)
Lemma paths_between_spec (tp : bool) (g : DiGraph) (i j : node) :
  wf g -> In i (nodes g) -> In j (nodes g) ->
  NoDup (paths_between tp g i j) /\
  (forall p, In p (paths_between tp g i j) <->
             simple_path g i j p /\ (i <> j \/ tp = true)).
Proof.
  intros Hwf Hi Hj. unfold paths_between.
  destruct (str_eq_dec i j) as [<-|Hne].
  - rewrite (all_simple_paths_same tp g i Hi). destruct tp.
    + split; [constructor; [intros []|constructor]|].
      intros p. split.
      * intros [<-|[]]. split; auto. split.
        -- split; auto. now exists [].
        -- constructor; [intros []|constructor].
      * intros [Hsp _]. left. symmetry. now apply (simple_path_refl g i).
    + split; [constructor|]. intros p. split; [intros []|].
      intros [_ [H|H]]; congruence.
  - destruct (all_simple_paths_spec tp g i j Hwf Hi Hj Hne) as (L & HL & Hnd & Hin).
    rewrite HL. split; auto. intros p. rewrite Hin. tauto.
Qed.

(** One iteration of the loops over sources and sinks. *)
Lemma get_contigs_pair (tp : bool) (g : DiGraph) (i j : node) :
  wf g -> debruijn g -> In i (nodes g) -> In j (nodes g) ->
  forall acc,
    (connected <- has_path g i j ;;
     if connected : bool then
       paths <- all_simple_paths tp g i j ;;
       foldM (fun contigus p =>
                contig <- contig_of p ;;
                Ok (contigus ++ [(contig, length contig)]))
             paths acc
     else Ok acc) = Ok (acc ++ map contig_record (paths_between tp g i j)).
Proof.
  intros Hwf Hdb Hi Hj acc.
  destruct (paths_between_spec tp g i j Hwf Hi Hj) as [_ Hin].
  assert (exists L, all_simple_paths tp g i j = Ok L) as (L & HL).
  { destruct (str_eq_dec i j) as [<-|Hne].
    - rewrite (all_simple_paths_same tp g i Hi). eauto.
    - destruct (all_simple_paths_spec tp g i j Hwf Hi Hj Hne) as (L & HL & _).
      eauto. }
  unfold paths_between in *. rewrite HL in *.
  assert (has_path g i j = Ok true \/
          (has_path g i j = Ok false /\ L = [])) as [Hp|[Hp ->]].
  { destruct (has_path g i j) as [[|]|e] eqn:E; auto.
    - right. split; auto. destruct L as [|p L]; auto.
      assert (simple_path g i j p) as Hsp by (apply Hin; now left).
      rewrite (has_path_simple_path g i j p Hwf Hj Hsp) in E. discriminate.
    - unfold has_path in E. apply mem_In in Hi as Hi'.
      apply mem_In in Hj as Hj'. rewrite Hi', Hj' in E. discriminate. }
  - rewrite Hp. simpl bind.
    apply get_contigs_paths. intros p Hp'. apply Hin in Hp' as [[Hw _] _].
    eapply walk_contig_of; eauto.
  - rewrite Hp. simpl. now rewrite app_nil_r.
Qed.

Lemma get_contigs_sinks (tp : bool) (g : DiGraph) (i : node)
      (ending_nodes : list node) :
  wf g -> debruijn g -> In i (nodes g) -> incl ending_nodes (nodes g) ->
  forall acc,
    foldM (fun contigus j =>
             connected <- has_path g i j ;;
             if connected : bool then
               paths <- all_simple_paths tp g i j ;;
               foldM (fun contigus p =>
                        contig <- contig_of p ;;
                        Ok (contigus ++ [(contig, length contig)]))
                     paths contigus
             else Ok contigus)
          ending_nodes acc =
    Ok (acc ++ flat_map (fun j => map contig_record (paths_between tp g i j))
                        ending_nodes).
Proof.
  intros Hwf Hdb Hi. induction ending_nodes as [|j js IH]; intros He acc; simpl.
  - now rewrite app_nil_r.
  - rewrite (get_contigs_pair tp g i j Hwf Hdb Hi) by (apply He; now left).
    simpl bind.
    rewrite IH by (intros x Hx; apply He; now right).
    now rewrite <- app_assoc.
Qed.



(** The specification's scenario: a file with the single read "TCAGA" and
    k = 3 give one source, one sink and the single contig ("TCAGA", 5). *)
Example tcaga_scenario :
  build_kmer_dict [s "@read"; s "TCAGA"; s "+"; s "IIIII"] 3 =
    Ok [(s "TCA", 1%Z); (s "CAG", 1%Z); (s "AGA", 1%Z)] /\
  get_starting_nodes tcaga_graph = [s "TC"] /\
  get_sink_nodes tcaga_graph = [s "GA"] /\
  (forall trivial_path,
      get_contigs trivial_path tcaga_graph [s "TC"] [s "GA"] =
      Ok [(s "TCAGA", 5%nat)]).
Proof.
  split; [vm_compute; reflexivity|]. split; [vm_compute; reflexivity|].
  split; [vm_compute; reflexivity|].
  intros [|]; vm_compute; reflexivity.
Qed.

(** * The de Bruijn invariant along the pipeline *)

Lemma tl_removelast {A : Type} (l : list A) :
  tl (removelast l) = removelast (tl l).
Proof.
  destruct l as [|x [|y l]]; reflexivity.
Qed.

Lemma build_graph_debruijn (k : nat) (kmer_dict : dict) :
  (2 <= k)%nat -> NoDup (keys kmer_dict) ->
  (forall km, In km (keys kmer_dict) -> length km = k) ->
  debruijn (build_graph kmer_dict).
Proof.
  intros Hk Hnd Hlen.
  destruct (build_graph_loop kmer_dict empty_graph) as (He & _ & _).
  { simpl. now apply (build_graph_keys_NoDup k). }
  fold (build_graph kmer_dict) in He. simpl in He.
  intros e Hin. rewrite He in Hin. apply in_map_iff in Hin as ([km c] & <- & Hin).
  unfold src, dst. simpl.
  assert (length km = k) as Hl
      by (apply Hlen; unfold keys; apply in_map_iff; exists (km, c); auto).
  destruct km as [|a [|b km]]; simpl in Hl; try lia.
  split; [destruct km; discriminate|]. split; [discriminate|].
  apply (tl_removelast (a :: b :: km)).
Qed.

Lemma remove_paths_debruijn (g : DiGraph) (pl : list path) (de ds : bool) :
  debruijn g -> debruijn (remove_paths g pl de ds).
Proof.
  intros H e He. apply remove_paths_edges in He as [He _]. now apply H.
Qed.

Lemma solve_bubble_returns (tp : bool) (randint : nat -> nat -> nat)
      (g g' : DiGraph) (a d : node) :
  solve_bubble tp randint g a d = Ok g' ->
  exists pl, g' = remove_paths g pl false false /\
             forall p, In p pl ->
                       exists L, all_simple_paths tp g a d = Ok L /\ In p L.
Proof.
  unfold solve_bubble. intros H.
  destruct (all_simple_paths tp g a d) as [L|]; simpl in H; [|discriminate].
  destruct (foldM _ L ([], [])) as [m|]; simpl in H; [|discriminate].
  apply select_best_path_returns in H as (select & ->).
  exists (drop_index select L). split; auto.
  intros p Hp. exists L. split; auto. eapply In_drop_index; eauto.
Qed.

(** Whatever [simplify_bubbles] returns is a well-formed de Bruijn graph
    when its argument is. *)
Lemma simplify_bubbles_invariant (tp : bool) (randint : nat -> nat -> nat)
      (depth : nat) :
  forall g g', simplify_bubbles depth tp randint g = Some (Ok g') ->
               (wf g -> wf g') /\ (debruijn g -> debruijn g').
Proof.
  induction depth as [|depth IH]; intros g g'; simpl; [discriminate|].
  destruct (scan_nodes g (nodes g) (false, None)) as [[[b anc] n]|];
    [|discriminate].
  destruct b; [|intros H; injection H as <-; auto].
  destruct n as [n|]; [|intros H; injection H as <-; auto].
  destruct anc as [a|]; [|discriminate].
  destruct (solve_bubble tp randint g a n) as [g1|] eqn:E; [|discriminate].
  intros H. apply IH in H as [H1 H2].
  apply solve_bubble_returns in E as (pl & -> & _).
  split; intros Hg.
  - apply H1. now apply remove_paths_wf.
  - apply H2. now apply remove_paths_debruijn.
Qed.

(** * Acyclicity *)

Lemma chain_pred_in (g : DiGraph) (l : list node) :
  forall n x, chain g n l -> In x l ->
              exists p, has_edge g p x /\ (p = n \/ In p l).
Proof.
  induction l as [|v l IH]; intros n x Hc Hx; [destruct Hx|].
  destruct Hc as [He Hc]. destruct Hx as [<-|Hx].
  - exists n. auto.
  - destruct (IH v x Hc Hx) as (p & Hp & [->|Hin]).
    + exists v. split; auto. right. now left.
    + exists p. split; auto. right. now right.
Qed.

(** The nodes of a closed walk are never peeled off. *)
Lemma peel_keeps_cycle (g : DiGraph) (l : list node) :
  (forall x, In x l -> exists p, has_edge g p x /\ In p l) ->
  forall fuel remaining, incl l remaining -> incl l (peel fuel g remaining).
Proof.
  intros Hcyc. induction fuel as [|fuel IH]; intros remaining Hincl; simpl; auto.
  apply IH. intros x Hx. apply filter_In. split; auto.
  destruct (Hcyc x Hx) as (p & Hp & Hin).
  apply existsb_exists. exists p. split.
  - now apply predecessors_In.
  - apply mem_In. auto.
Qed.

(** Soundness of the acyclicity test. *)
Lemma is_directed_acyclic_graph_sound (g : DiGraph) :
  wf g -> is_directed_acyclic_graph g = true -> acyclic g.
Proof.
  intros Hwf Hdag n l Hne Hc Hl.
  unfold is_directed_acyclic_graph in Hdag.
  assert (incl l (peel (length (nodes g)) g (nodes g))) as Hincl.
  { apply peel_keeps_cycle.
    - intros x Hx. destruct (chain_pred_in g l n x Hc Hx) as (p & Hp & [->|Hin]).
      + exists n. split; auto.
        pose proof (last_In l n Hne) as H. now rewrite Hl in H.
      + exists p. auto.
    - eapply chain_nodes; eauto. }
  destruct (peel (length (nodes g)) g (nodes g)); [|discriminate].
  destruct l as [|x l]; [congruence|]. apply (Hincl x). now left.
Qed.

(** In an acyclic graph every walk is a simple path. *)
Lemma acyclic_chain_NoDup (g : DiGraph) (l : list node) :
  acyclic g -> forall a, chain g a l -> NoDup (a :: l).
Proof.
  intros Hac. induction l as [|v l IH]; intros a Hc.
  - constructor; [intros []|constructor].
  - constructor.
    + intros Hin. apply in_split in Hin as (l1 & l2 & Heq).
      rewrite Heq in Hc. apply chain_app in Hc as [Hc1 Hc2].
      destruct Hc2 as [He _].
      apply (Hac a (l1 ++ [a])).
      * destruct l1; discriminate.
      * apply chain_app. split; auto. split; auto. exact I.
      * apply last_last.
    + destruct Hc as [_ Hc]. now apply IH.
Qed.

(** ** Completeness of the acyclicity test *)

Lemma filter_length_le {A : Type} (f : A -> bool) (l : list A) :
  (length (filter f l) <= length l)%nat.
Proof.
  induction l as [|x l IH]; simpl; auto. destruct (f x); simpl; lia.
Qed.

Lemma filter_length_all {A : Type} (f : A -> bool) (l : list A) :
  length (filter f l) = length l -> forall x, In x l -> f x = true.
Proof.
  induction l as [|x l IH]; simpl; intros H y Hy; [destruct Hy|].
  pose proof (filter_length_le f l).
  destruct (f x) eqn:E; simpl in H; [|lia].
  destruct Hy as [<-|Hy]; auto.
Qed.

(** If every node of a non-empty set has a predecessor in the set, the set
    carries walks of any length. *)
Lemma long_chain (g : DiGraph) (R : list node) :
  R <> [] ->
  (forall x, In x R -> exists p, In p R /\ has_edge g p x) ->
  forall k, exists u l, In u R /\ chain g u l /\ length l = k.
Proof.
  intros Hne Hpred. induction k as [|k (u & l & Hu & Hc & Hl)].
  - destruct R as [|x R]; [congruence|]. exists x, []. simpl. auto.
  - destruct (Hpred u Hu) as (p & Hp & He).
    exists p, (u :: l). simpl. auto.
Qed.

(** One round of peeling an acyclic graph removes a node. *)
Lemma peel_round_shrinks (g : DiGraph) (R : list node) :
  wf g -> acyclic g -> R <> [] ->
  (length (filter (fun n => existsb (fun p => mem p R) (predecessors g n)) R)
   < length R)%nat.
Proof.
  intros Hwf Hac Hne.
  pose proof (filter_length_le
                (fun n => existsb (fun p => mem p R) (predecessors g n)) R) as Hle.
  destruct (Nat.eq_dec
              (length (filter (fun n => existsb (fun p => mem p R)
                                                (predecessors g n)) R))
              (length R)) as [Heq|]; [|lia].
  exfalso.
  pose proof (filter_length_all _ R Heq) as Hall.
  destruct (long_chain g R Hne) with (k := S (length (nodes g)))
    as (u & l & Hu & Hc & Hl).
  { intros x Hx. specialize (Hall x Hx).
    apply existsb_exists in Hall as (p & Hp & Hm).
    exists p. split; [now apply mem_In|now apply predecessors_In]. }
  pose proof (acyclic_chain_NoDup g l Hac u Hc) as Hnd.
  inversion Hnd as [|? ? _ Hndl]; subst.
  pose proof (NoDup_incl_length Hndl (chain_nodes g u l Hwf Hc)). lia.
Qed.

Lemma peel_length (g : DiGraph) (fuel : nat) :
  wf g -> acyclic g ->
  forall R, (length (peel fuel g R) <= length R - fuel)%nat.
Proof.
  intros Hwf Hac. induction fuel as [|fuel IH]; intros R; simpl; [lia|].
  destruct R as [|x R]; [apply (IH [])|].
  pose proof (peel_round_shrinks g (x :: R) Hwf Hac ltac:(discriminate)) as Hlt.
  etransitivity; [apply IH|]. simpl in *. lia.
Qed.

(** The acyclicity test accepts exactly the acyclic graphs. *)
Lemma is_directed_acyclic_graph_iff (g : DiGraph) :
  wf g -> (is_directed_acyclic_graph g = true <-> acyclic g).
Proof.
  intros Hwf. split; [now apply is_directed_acyclic_graph_sound|].
  intros Hac. unfold is_directed_acyclic_graph.
  pose proof (peel_length g (length (nodes g)) Hwf Hac (nodes g)) as H.
  destruct (peel (length (nodes g)) g (nodes g)); auto. simpl in H. lia.
Qed.

(** * Lowest common ancestors *)

Lemma descend_In (g : DiGraph) (common : list node) (fuel : nat) :
  forall c, In c common -> In (descend fuel g common c) common.
Proof.
  induction fuel as [|fuel IH]; intros c Hc; simpl; auto.
  destruct (find (fun x => mem x common) (successors g c)) as [lower|] eqn:E; auto.
  apply IH. apply find_some in E as [_ E]. now apply mem_In.
Qed.

(** On an acyclic graph the search returns, and what it returns is a common
    ancestor of its two arguments. *)
Lemma lowest_common_ancestor_sound (g : DiGraph) (n1 n2 : node) :
  is_directed_acyclic_graph g = true ->
  In n1 (nodes g) -> In n2 (nodes g) ->
  lowest_common_ancestor g n1 n2 = Ok None \/
  exists a, lowest_common_ancestor g n1 n2 = Ok (Some a) /\
            reaches g a n1 /\ reaches g a n2.
Proof.
  intros Hdag H1 H2. unfold lowest_common_ancestor. rewrite Hdag. simpl.
  assert ((length (nodes g) =? 0)%nat = false) as ->.
  { apply Nat.eqb_neq. destruct (nodes g); [destruct H1|discriminate]. }
  apply mem_In in H1 as ->. apply mem_In in H2 as ->. simpl.
  set (n := length (nodes g)).
  set (common := filter (fun a => reach n g a n1 && reach n g a n2) (nodes g)).
  destruct common as [|c cs] eqn:E; [now left|]. right.
  eexists. split; [reflexivity|].
  assert (In (descend n g (c :: cs) c) common) as Hin
      by (rewrite E; apply descend_In; now left).
  apply filter_In in Hin as [Hn Hr]. apply andb_true_iff in Hr as [Hr1 Hr2].
  split; eapply reach_reaches; eauto.
Qed.

(** * Bubble detection *)

(** Two distinct predecessors with a common ancestor make a bubble of an
    acyclic graph. *)
Lemma common_ancestor_bubble (g : DiGraph) (a p q d : node) :
  acyclic g -> p <> q -> has_edge g p d -> has_edge g q d ->
  reaches g a p -> reaches g a q -> bubble g.
Proof.
  intros Hac Hne Hp Hq (wp & Ha & lp & -> & Hcp & Hlp) (wq & _ & lq & -> & Hcq & Hlq).
  rewrite last_cons_last in Hlp, Hlq.
  assert (Hext : forall l x, chain g a l -> last l a = x -> has_edge g x d ->
                             simple_path g a d (a :: l ++ [d])).
  { intros l x Hc Hl He.
    assert (chain g a (l ++ [d])) as Hc'
        by (apply chain_app; split; auto; rewrite Hl; split; auto; exact I).
    split.
    - split; auto. exists (l ++ [d]). split; auto. split; auto.
      rewrite last_cons_last. apply last_last.
    - exact (acyclic_chain_NoDup g (l ++ [d]) Hac a Hc'). }
  exists d, p, q, a, (a :: lp ++ [d]), (a :: lq ++ [d]).
  split; [exact Hne|]. split; [exact Hp|]. split; [exact Hq|].
  split.
  { exists (a :: lp). split; auto. exists lp. now rewrite last_cons_last. }
  split.
  { exists (a :: lq). split; auto. exists lq. now rewrite last_cons_last. }
  split; [now apply (Hext lp p)|]. split; [now apply (Hext lq q)|].
  intros Heq. injection Heq as Heq. apply app_inj_tail in Heq as [Heq _].
  subst lq. congruence.
Qed.

Lemma scan_j_none (g : DiGraph) (noeud_i : node) (rest : list node) :
  (forall noeud_j, In noeud_j rest ->
                   lowest_common_ancestor g noeud_i noeud_j = Ok None) ->
  forall b anc, exists anc', scan_j g noeud_i rest (b, anc) = Ok (b, anc').
Proof.
  induction rest as [|nj rest IH]; intros Hnone b anc; simpl.
  - now exists anc.
  - rewrite (Hnone nj) by now left. simpl.
    apply IH. intros x Hx. apply Hnone. now right.
Qed.

Lemma scan_i_none (g : DiGraph) (preds : list node) :
  NoDup preds ->
  (forall ni nj, In ni preds -> In nj preds -> ni <> nj ->
                 lowest_common_ancestor g ni nj = Ok None) ->
  forall b anc, exists anc', scan_i g preds (b, anc) = Ok (b, anc').
Proof.
  induction preds as [|ni rest IH]; intros Hnd Hnone b anc; simpl.
  - now exists anc.
  - inversion Hnd as [|? ? Hn Hd]; subst.
    destruct (scan_j_none g ni rest) with (b := b) (anc := anc) as (anc1 & ->).
    { intros nj Hj. apply Hnone; [now left|now right|]. intros ->. contradiction. }
    simpl. apply IH; auto.
    intros x y Hx Hy. apply Hnone; now right.
Qed.

Lemma scan_nodes_none (g : DiGraph) (ns : list node) :
  wf g ->
  (forall n ni nj, In n ns -> In ni (predecessors g n) -> In nj (predecessors g n) ->
                   ni <> nj -> lowest_common_ancestor g ni nj = Ok None) ->
  forall anc, exists anc', scan_nodes g ns (false, anc) = Ok ((false, anc'), None).
Proof.
  intros Hwf. induction ns as [|n ns IH]; intros Hnone anc; simpl.
  - now exists anc.
  - destruct (1 <? length (predecessors g n))%nat.
    + destruct (scan_i_none g (predecessors g n)) with (b := false) (anc := anc)
        as (anc1 & ->).
      { now apply predecessors_NoDup. }
      { intros ni nj. apply Hnone. now left. }
      simpl. apply IH. intros m ni nj Hm. apply Hnone. now right.
    + simpl. apply IH. intros m ni nj Hm. apply Hnone. now right.
Qed.

Lemma simple_path_target (g : DiGraph) (a d : node) (p : path) :
  wf g -> simple_path g a d p -> In a (nodes g) /\ In d (nodes g).
Proof.
  intros Hwf [Hw _]. pose proof (walk_nodes g a d p Hwf Hw) as Hincl.
  destruct Hw as (Ha & l & -> & _ & Hl). split; auto.
  apply Hincl. rewrite <- Hl. apply last_In. discriminate.
Qed.

(** When the enumeration finds at most one simple path between any two
    nodes, the graph has no bubble. *)
Lemma unique_paths_no_bubble (g : DiGraph) :
  wf g -> unique_paths_check g = true -> ~ bubble g.
Proof.
  intros Hwf Hchk (d & p & q & a & p1 & p2 & _ & _ & _ & _ & _ & H1 & H2 & Hne).
  destruct (simple_path_target g a d p1 Hwf H1) as [Ha Hd].
  destruct (str_eq_dec a d) as [<-|Had].
  - apply Hne. now rewrite (simple_path_refl g a p1 H1), (simple_path_refl g a p2 H2).
  - unfold unique_paths_check in Hchk. rewrite forallb_forall in Hchk.
    specialize (Hchk a Ha). rewrite forallb_forall in Hchk.
    specialize (Hchk d Hd). apply Nat.leb_le in Hchk.
    destruct (all_simple_paths_spec false g a d Hwf Ha Hd Had) as (L & HL & _ & Hin).
    unfold paths_between in Hchk. rewrite HL in Hchk.
    apply Hin in H1, H2.
    destruct L as [|x [|y L]]; simpl in *; try lia; intuition congruence.
Qed.

(** C9, counterexample.  The graph of the read "CAAA" (k = 3) has the edges
    CA-AA and AA-AA.  It contains no bubble: no two distinct simple paths
    join any two of its nodes.  Its node AA has two predecessors, so
    [simplify_bubbles] asks for their lowest common ancestor, and the
    self-loop makes that call raise: the graph is not returned. *)
Lemma simplify_bubbles_raises_on_cycle :
  wf loop_tip_graph /\
  ~ bubble loop_tip_graph /\
  forall depth trivial_path randint,
    simplify_bubbles (S depth) trivial_path randint loop_tip_graph =
    Some (Raise NetworkXError).
Proof.
  assert (Hwf : wf loop_tip_graph) by (apply wfb_sound; vm_compute; reflexivity).
  split; [exact Hwf|]. split.
  - apply (unique_paths_no_bubble _ Hwf). vm_compute. reflexivity.
  - intros depth trivial_path randint. reflexivity.
Qed.

(** C9, amended.  For every acyclic graph that contains no bubble,
    [simplify_bubbles] returns the graph unchanged (at any positive depth
    budget: it makes no recursive call). *)
Theorem simplify_bubbles_no_bubble (g : DiGraph) (depth : nat)
        (trivial_path : bool) (randint : nat -> nat -> nat) :
  wf g ->
  acyclic g ->
  ~ bubble g ->
  simplify_bubbles (S depth) trivial_path randint g = Some (Ok g).
Proof.
  intros Hwf Hac Hnb.
  pose proof (proj2 (is_directed_acyclic_graph_iff g Hwf) Hac) as Hdag.
  assert (Hnone : forall n ni nj,
             In n (nodes g) -> In ni (predecessors g n) ->
             In nj (predecessors g n) -> ni <> nj ->
             lowest_common_ancestor g ni nj = Ok None).
  { intros n ni nj Hn Hi Hj Hne.
    apply predecessors_In in Hi, Hj.
    destruct (has_edge_nodes g ni n Hwf Hi) as [Hni _].
    destruct (has_edge_nodes g nj n Hwf Hj) as [Hnj _].
    destruct (lowest_common_ancestor_sound g ni nj Hdag Hni Hnj)
      as [H|(a & _ & Hr1 & Hr2)]; auto.
    exfalso. apply Hnb. now apply (common_ancestor_bubble g a ni nj n). }
  destruct (scan_nodes_none g (nodes g) Hwf Hnone None) as (anc' & Hscan).
  simpl. now rewrite Hscan.
Qed.

Lemma simplify_bubbles_no_bubble_witness :
  simplify_bubbles 1 false randint0 simplified_tip_graph =
  Some (Ok simplified_tip_graph).
Proof.
  assert (Hwf : wf simplified_tip_graph)
    by (apply wfb_sound; vm_compute; reflexivity).
  apply (simplify_bubbles_no_bubble simplified_tip_graph 0 false randint0 Hwf).
  - apply (is_directed_acyclic_graph_iff _ Hwf). vm_compute. reflexivity.
  - apply (unique_paths_no_bubble _ Hwf). vm_compute. reflexivity.
Defined.

(** * Progress of the bubble simplifier *)

(** When the scan detects a pair and [solve_bubble] hands the same graph
    back, every recursive call meets the same situation again. *)
Lemma simplify_bubbles_stuck (tp : bool) (randint : nat -> nat -> nat)
      (g : DiGraph) (a n : node) :
  scan_nodes g (nodes g) (false, None) = Ok ((true, Some a), Some n) ->
  solve_bubble tp randint g a n = Ok g ->
  forall depth, simplify_bubbles depth tp randint g = None.
Proof.
  intros Hscan Hsolve. induction depth as [|depth IH]; simpl; auto.
  now rewrite Hscan, Hsolve.
Qed.

(** C2, counterexample.  In [shortcut_graph] the scan detects the pair
    (A, D); the heavy route A-B-D wins, the discarded path A-D has no
    interior node, and [solve_bubble] returns the graph unchanged.  Whatever
    the depth budget, [simplify_bubbles] then neither returns a graph nor
    raises an error: it only recurses. *)
Lemma simplify_bubbles_recurses_forever :
  scan_nodes shortcut_graph (nodes shortcut_graph) (false, None) =
    Ok ((true, Some (s "A")), Some (s "D")) /\
  (forall trivial_path randint,
      solve_bubble trivial_path randint shortcut_graph (s "A") (s "D") =
      Ok shortcut_graph) /\
  forall trivial_path randint depth,
    simplify_bubbles depth trivial_path randint shortcut_graph = None.
Proof.
  assert (H1 : scan_nodes shortcut_graph (nodes shortcut_graph) (false, None) =
               Ok ((true, Some (s "A")), Some (s "D")))
    by (vm_compute; reflexivity).
  assert (H2 : forall trivial_path randint,
             solve_bubble trivial_path randint shortcut_graph (s "A") (s "D") =
             Ok shortcut_graph)
    by (intros trivial_path randint; vm_compute; reflexivity).
  split; [exact H1|]. split; [exact H2|].
  intros trivial_path randint depth. eapply simplify_bubbles_stuck; eauto.
Qed.

(** C2, amended.  [simplify_bubbles] has no progress check and no error for
    a lack of progress.  Whenever the scan detects an ancestor/node pair and
    [solve_bubble] returns the graph unchanged, the next call detects the
    same pair on the same graph, so the recursion never returns, whatever the
    depth budget; in the other cases a call either returns the graph (no pair
    detected), raises the error of the scan or of [solve_bubble], or recurses
    on the graph that [solve_bubble] returned. *)
Theorem simplify_bubbles_no_progress_check (trivial_path : bool)
        (randint : nat -> nat -> nat) (g : DiGraph) (a n : node) :
  scan_nodes g (nodes g) (false, None) = Ok ((true, Some a), Some n) ->
  (solve_bubble trivial_path randint g a n = Ok g ->
   forall depth, simplify_bubbles depth trivial_path randint g = None) /\
  (forall g' depth, solve_bubble trivial_path randint g a n = Ok g' ->
                    simplify_bubbles (S depth) trivial_path randint g =
                    simplify_bubbles depth trivial_path randint g') /\
  (forall e depth, solve_bubble trivial_path randint g a n = Raise e ->
                   simplify_bubbles (S depth) trivial_path randint g =
                   Some (Raise e)).
Proof.
  intros Hscan. split; [|split].
  - intros Hsolve. now apply (simplify_bubbles_stuck trivial_path randint g a n).
  - intros g' depth Hsolve. simpl. now rewrite Hscan, Hsolve.
  - intros e depth Hsolve. simpl. now rewrite Hscan, Hsolve.
Qed.

Lemma simplify_bubbles_no_progress_check_witness :
  scan_nodes shortcut_graph (nodes shortcut_graph) (false, None) =
    Ok ((true, Some (s "A")), Some (s "D")) /\
  simplify_bubbles 1000 false randint0 shortcut_graph = None.
Proof.
  assert (H : scan_nodes shortcut_graph (nodes shortcut_graph) (false, None) =
              Ok ((true, Some (s "A")), Some (s "D")))
    by (vm_compute; reflexivity).
  split; [exact H|].
  apply (proj1 (simplify_bubbles_no_progress_check false randint0 shortcut_graph
                  (s "A") (s "D") H)).
  vm_compute. reflexivity.
Defined.

(** * Graphs of the pipeline *)

Lemma build_graph_wf (k : nat) (kmer_dict : dict) :
  (2 <= k)%nat -> NoDup (keys kmer_dict) ->
  (forall km, In km (keys kmer_dict) -> length km = k) ->
  wf (build_graph kmer_dict).
Proof.
  intros Hk Hnd Hlen.
  pose proof (build_graph_keys_NoDup k kmer_dict Hk Hnd Hlen) as Hkeys.
  destruct (build_graph_loop kmer_dict empty_graph Hkeys) as (He & Hn & Hi).
  fold (build_graph kmer_dict) in He, Hn, Hi. simpl in He.
  split; [apply Hn; constructor|]. split.
  - rewrite He, map_map. exact Hkeys.
  - intros e H. rewrite He in H. apply in_map_iff in H as (kv & <- & Hin).
    split; apply Hi; right; exists kv; split; auto.
Qed.

(** The graph that the pipeline hands to the contig extractor is a
    well-formed de Bruijn graph, and its sources and sinks are nodes of it. *)
Lemma final_graph_invariant (k depth : nat) (kmer_dict : dict)
      (tp : bool) (randint : nat -> nat -> nat) (g : DiGraph) :
  (2 <= k)%nat -> NoDup (keys kmer_dict) ->
  (forall km, In km (keys kmer_dict) -> length km = k) ->
  simplify_bubbles depth tp randint (build_graph kmer_dict) = Some (Ok g) ->
  wf g /\ debruijn g /\
  incl (get_starting_nodes g) (nodes g) /\ incl (get_sink_nodes g) (nodes g).
Proof.
  intros Hk Hnd Hlen Hrun.
  destruct (simplify_bubbles_invariant tp randint depth _ _ Hrun) as [Hwf Hdb].
  split; [apply Hwf; now apply (build_graph_wf k)|].
  split; [apply Hdb; now apply (build_graph_debruijn k)|].
  split; intros n Hn.
  - now apply get_starting_nodes_In in Hn as [Hn _].
  - now apply get_sink_nodes_In in Hn as [Hn _].
Qed.

(** The specification's bubble scenario: the light branch through B is
    removed and the route A, C, D is kept. *)
Example bubble_scenario :
  forall trivial_path randint,
    simplify_bubbles 2 trivial_path randint bubble_graph =
    Some (Ok (mkDiGraph [s "A"; s "D"; s "C"]
                        [(s "A", s "C", 5%Z); (s "C", s "D", 5%Z)])).
Proof. intros trivial_path randint. vm_compute. reflexivity. Qed.

Lemma simplify_bubbles_S (depth : nat) (tp : bool) (randint : nat -> nat -> nat)
      (g : DiGraph) :
  simplify_bubbles (S depth) tp randint g =
  match scan_nodes g (nodes g) (false, None) with
  | Raise e => Some (Raise e)
  | Ok ((true, noeud_ancetre), Some n) =>
      match noeud_ancetre with
      | None => Some (Raise NodeNotFound)
      | Some a =>
          match solve_bubble tp randint g a n with
          | Raise e => Some (Raise e)
          | Ok g' => simplify_bubbles depth tp randint g'
          end
      end
  | Ok _ => Some (Ok g)
  end.
Proof. reflexivity. Qed.

(** A bubble whose two branches tie on weight and on length makes the whole
    simplification raise. *)
Example tie_scenario :
  forall trivial_path randint depth,
    exists e, simplify_bubbles (S depth) trivial_path randint tie_graph =
              Some (Raise e).
Proof.
  intros trivial_path randint depth.
  assert (Hscan : scan_nodes tie_graph (nodes tie_graph) (false, None) =
                  Ok ((true, Some (s "A")), Some (s "D")))
    by (vm_compute; reflexivity).
  assert (Hpaths : all_simple_paths trivial_path tie_graph (s "A") (s "D") =
                   Ok [[s "A"; s "B"; s "D"]; [s "A"; s "C"; s "D"]])
    by (destruct trivial_path; vm_compute; reflexivity).
  assert (Hw : forall p, In p [[s "A"; s "B"; s "D"]; [s "A"; s "C"; s "D"]] ->
                         path_average_weight tie_graph p = Ok 1)
    by (intros p [<-|[<-|[]]]; vm_compute; reflexivity).
  assert (exists e, solve_bubble trivial_path randint tie_graph (s "A") (s "D") =
                    Raise e) as (e & Hsolve).
  { unfold solve_bubble. rewrite Hpaths. cbn [bind foldM].
    rewrite !Hw by (simpl; auto). cbn [bind foldM fst snd app].
    eexists. apply select_best_path_tie_raises; simpl; try lia.
    - intros x y [<-|[<-|[]]] [<-|[<-|[]]]; reflexivity.
    - intros x y [<-|[<-|[]]] [<-|[<-|[]]]; reflexivity. }
  exists e. now rewrite simplify_bubbles_S, Hscan, Hsolve.
Qed.

(** * Windows of a read *)

Lemma cut_kmer_In (read : str) (k : nat) (km : str) :
  In km (cut_kmer read k) <->
  exists i, (i + k <= length read)%nat /\ km = firstn k (skipn i read).
Proof.
  unfold cut_kmer. rewrite in_map_iff. split.
  - intros (i & <- & Hi). apply in_seq in Hi. exists i. split; auto. lia.
  - intros (i & Hi & ->). exists i. split; auto. apply in_seq. lia.
Qed.

(** X1.  [cut_kmer] yields exactly the factors of length [kmer_size] of the
    read, from left to right: there are [len(read) + 1 - kmer_size] of them
    (none when the read is shorter than [kmer_size]), and a string is yielded
    if and only if it has length [kmer_size] and occurs in the read. *)
Theorem cut_kmer_factors (read : str) (kmer_size : nat) :
  length (cut_kmer read kmer_size) = (length read + 1 - kmer_size)%nat /\
  (forall km, In km (cut_kmer read kmer_size) <->
              length km = kmer_size /\ exists a b, read = a ++ km ++ b) /\
  (forall i, (i + kmer_size <= length read)%nat ->
             nth_error (cut_kmer read kmer_size) i =
             Some (substring i (i + kmer_size) read)).
Proof.
  split; [|split].
  - unfold cut_kmer. now rewrite length_map, length_seq.
  - intros km. rewrite cut_kmer_In. split.
    + intros (i & Hi & ->). split.
      * rewrite length_firstn, length_skipn. lia.
      * exists (firstn i read), (skipn kmer_size (skipn i read)).
        now rewrite firstn_skipn, firstn_skipn.
    + intros (Hl & a & b & ->). exists (length a). split.
      * rewrite !length_app. lia.
      * rewrite skipn_app, skipn_all, Nat.sub_diag. simpl.
        rewrite firstn_app, <- Hl, firstn_all, Nat.sub_diag. simpl.
        now rewrite app_nil_r.
  - intros i Hi. unfold cut_kmer, substring.
    rewrite nth_error_map, nth_error_seq.
    assert ((i <? length read + 1 - kmer_size)%nat = true) as ->
        by (apply Nat.ltb_lt; lia).
    simpl. do 2 f_equal. lia.
Qed.

Lemma cut_kmer_cons (c : ascii) (read : str) (m : nat) :
  (m <= length read)%nat ->
  cut_kmer (c :: read) m = firstn m (c :: read) :: cut_kmer read m.
Proof.
  intros Hm. unfold cut_kmer.
  replace (length (c :: read) + 1 - m)%nat with (S (length read + 1 - m))
    by (change (length (c :: read)) with (S (length read)); lia).
  simpl seq. simpl map. f_equal. rewrite <- seq_shift, map_map. reflexivity.
Qed.

Lemma cut_kmer_whole (read : str) :
  cut_kmer read (length read) = [read].
Proof.
  unfold cut_kmer. replace (length read + 1 - length read)%nat with 1%nat by lia.
  simpl. now rewrite firstn_all.
Qed.

(** The windows of a read spell the read. *)
Lemma contig_label_cut_kmer (read : str) (m : nat) :
  (1 <= m)%nat -> (m <= length read)%nat ->
  contig_label (cut_kmer read m) = read.
Proof.
  intros H1. induction read as [|c r IH]; intros Hm; [simpl in Hm; lia|].
  destruct (Nat.eq_dec m (length (c :: r))) as [->|Hne].
  - rewrite cut_kmer_whole. simpl. now rewrite app_nil_r.
  - assert (m <= length r)%nat as Hr by (simpl in Hm, Hne; lia).
    rewrite cut_kmer_cons by assumption.
    specialize (IH Hr).
    destruct (cut_kmer r m) as [|w1 ws] eqn:E.
    { pose proof (f_equal (@length _) E) as Hl.
      unfold cut_kmer in Hl. rewrite length_map, length_seq in Hl.
      simpl in Hl. lia. }
    assert (w1 = firstn m r) as Hw1.
    { unfold cut_kmer in E.
      replace (length r + 1 - m)%nat with (S (length r - m)) in E by lia.
      simpl in E. now injection E as <- _. }
    simpl in IH. unfold contig_label.
    destruct m as [|m]; [lia|]. simpl firstn. simpl map. simpl app. f_equal.
    rewrite <- IH at 2.
    assert (w1 = firstn m r ++ [lastc w1]) as Hsplit.
    { assert (w1 <> []) as Hne1.
      { rewrite Hw1. destruct r; [simpl in Hr; lia|discriminate]. }
      rewrite (app_removelast_last Ascii.zero Hne1) at 1. f_equal.
      rewrite removelast_firstn_len, Hw1, length_firstn.
      rewrite firstn_firstn. f_equal. lia. }
    rewrite Hsplit at 2. now rewrite <- app_assoc.
Qed.

(** X2.  Cutting a read into windows of length [m] (with
    [1 <= m <= len(read)]) and rebuilding a contig from the list of windows,
    as [get_contigs] does along a path, gives the read back. *)
Theorem contig_of_cut_kmer (read : str) (m : nat) :
  (1 <= m)%nat -> (m <= length read)%nat ->
  contig_of (cut_kmer read m) = Ok read.
Proof.
  intros H1 Hm.
  rewrite contig_of_label.
  - now rewrite contig_label_cut_kmer.
  - intros n Hn.
    assert (In n (cut_kmer read m)) as Hin.
    { destruct (cut_kmer read m); [destruct Hn|now right]. }
    apply cut_kmer_In in Hin as (i & Hi & ->).
    intros H0. apply (f_equal (@length _)) in H0.
    rewrite length_firstn, length_skipn in H0. simpl in H0. lia.
  - intros H0. apply (f_equal (@length _)) in H0.
    unfold cut_kmer in H0. rewrite length_map, length_seq in H0.
    simpl in H0. lia.
Qed.

Lemma contig_of_cut_kmer_witness :
  contig_of (cut_kmer (s "TCAGA") 2) = Ok (s "TCAGA").
Proof.
  apply contig_of_cut_kmer; simpl; lia.
Defined.

(** * The frequency table as a dictionary *)

Lemma dict_get_None (d : dict) (k : str) :
  dict_get d k = None <-> ~ In k (keys d).
Proof.
  induction d as [|[k' v] d IH]; simpl; [tauto|].
  destruct (str_eqb k' k) eqn:E; str_cases.
  - split; [discriminate|]. intros H. exfalso. apply H. now left.
  - rewrite IH. tauto.
Qed.

Lemma dict_get_In (d : dict) (k : str) (v : Z) :
  dict_get d k = Some v -> In (k, v) d.
Proof.
  induction d as [|[k' v'] d IH]; simpl; [discriminate|].
  destruct (str_eqb k' k) eqn:E; str_cases.
  - intros H. injection H as ->. subst. now left.
  - intros H. right. auto.
Qed.

Lemma In_dict_get (d : dict) (k : str) (v : Z) :
  NoDup (keys d) -> In (k, v) d -> dict_get d k = Some v.
Proof.
  induction d as [|[k' v'] d IH]; simpl; intros Hnd Hin; [destruct Hin|].
  inversion Hnd as [|? ? Hn Hd]; subst.
  destruct Hin as [H|H].
  - injection H as -> ->. now rewrite str_eqb_refl.
  - destruct (str_eqb k' k) eqn:E; str_cases; auto.
    subst. exfalso. apply Hn. unfold keys. apply in_map_iff.
    now exists (k, v).
Qed.

Lemma dict_set_keys (d : dict) (k : str) (v : Z) :
  keys (dict_set d k v) = if mem k (keys d) then keys d else keys d ++ [k].
Proof.
  induction d as [|[k' v'] d IH]; simpl; auto.
  unfold mem. destruct (in_dec str_eq_dec k (k' :: keys d)) as [Hin|Hnin].
  - destruct (str_eqb k' k) eqn:E; simpl; auto. str_cases.
    rewrite IH. destruct Hin as [?|Hin]; [congruence|].
    apply mem_In in Hin. now rewrite Hin.
  - destruct (str_eqb k' k) eqn:E; str_cases.
    + exfalso. apply Hnin. now left.
    + simpl. rewrite IH.
      assert (mem k (keys d) = false) as ->; auto.
      apply mem_not_In. intros H. apply Hnin. now right.
Qed.

Lemma dict_set_NoDup (d : dict) (k : str) (v : Z) :
  NoDup (keys d) -> NoDup (keys (dict_set d k v)).
Proof.
  intros H. rewrite dict_set_keys. destruct (mem k (keys d)) eqn:E; auto.
  str_cases. apply NoDup_app; auto.
  - constructor; [intros []|constructor].
  - intros x Hx [<-|[]]. contradiction.
Qed.

Lemma foldM_invariant {A B : Type} (P : A -> Prop) (f : A -> B -> result A)
      (l : list B) :
  (forall a b a', P a -> f a b = Ok a' -> P a') ->
  forall a a', P a -> foldM f l a = Ok a' -> P a'.
Proof.
  intros Hstep. induction l as [|b l IH]; intros a a' Ha; simpl.
  - intros H. now injection H as <-.
  - destruct (f a b) as [a1|] eqn:E; simpl; [|discriminate].
    apply IH. eapply Hstep; eauto.
Qed.

Lemma build_kmer_dict_NoDup (reads : list str) (k : nat) (d : dict) :
  build_kmer_dict_loop reads k = Ok d -> NoDup (keys d).
Proof.
  unfold build_kmer_dict_loop.
  apply (foldM_invariant (fun d => NoDup (keys d))); [|constructor].
  intros a r a' Ha. cbv zeta.
  apply (foldM_invariant (fun d => NoDup (keys d))).
  - intros x km x' Hx. unfold dict_incr.
    destruct (dict_get x km); [|discriminate].
    intros H. injection H as <-. now apply dict_set_NoDup.
  - generalize (cut_kmer r k) as ks. intros ks. revert a Ha.
    induction ks as [|km ks IH]; intros a Ha; simpl; auto.
    apply IH. now apply dict_set_NoDup.
Qed.

Lemma last_read_occurrences_acc (reads : list str) (k : nat) (km : str) :
  forall acc,
    fold_left (fun acc r =>
                 if mem km (cut_kmer r k)
                 then Some (occurrences_in r k km) else acc) reads acc = acc \/
    exists r, In r reads /\ In km (cut_kmer r k) /\
              fold_left (fun acc r =>
                           if mem km (cut_kmer r k)
                           then Some (occurrences_in r k km) else acc) reads acc =
              Some (occurrences_in r k km).
Proof.
  induction reads as [|r reads IH]; intros acc; simpl; [now left|].
  destruct (mem km (cut_kmer r k)) eqn:E; str_cases.
  - destruct (IH (Some (occurrences_in r k km))) as [H|(r' & Hr' & Hin & H)].
    + right. exists r. rewrite H. auto.
    + right. exists r'. auto.
  - destruct (IH acc) as [H|(r' & Hr' & Hin & H)]; [now left|].
    right. exists r'. auto.
Qed.

Lemma last_read_occurrences_Some (reads : list str) (k : nat) (km : str) :
  (exists r, In r reads /\ In km (cut_kmer r k)) ->
  forall acc, exists c,
      fold_left (fun acc r =>
                   if mem km (cut_kmer r k)
                   then Some (occurrences_in r k km) else acc) reads acc = Some c.
Proof.
  induction reads as [|r reads IH]; intros (r0 & Hr0 & Hin) acc; [destruct Hr0|].
  simpl. destruct Hr0 as [->|Hr0].
  - apply mem_In in Hin. rewrite Hin.
    destruct (last_read_occurrences_acc reads k km (Some (occurrences_in r0 k km)))
      as [H|(r' & _ & _ & H)]; rewrite H; eauto.
  - apply IH. eauto.
Qed.

Lemma occurrences_in_pos (r : str) (k : nat) (km : str) :
  In km (cut_kmer r k) -> (1 <= occurrences_in r k km)%Z.
Proof.
  intros H. unfold occurrences_in.
  apply (count_occ_In str_eq_dec) in H. lia.
Qed.

(** The keys of the table are the k-mers of the reads. *)
Lemma build_kmer_dict_keys (reads : list str) (k : nat) (d : dict) :
  build_kmer_dict_loop reads k = Ok d ->
  forall km, In km (keys d) <-> exists r, In r reads /\ In km (cut_kmer r k).
Proof.
  intros Hrun km.
  destruct (build_kmer_dict_last_read reads k) as (d' & Hrun' & Hget).
  rewrite Hrun in Hrun'. injection Hrun' as <-. split.
  - intros Hin. destruct (dict_get d km) as [c|] eqn:E.
    + rewrite Hget in E. unfold last_read_occurrences in E.
      destruct (last_read_occurrences_acc reads k km None)
        as [H|(r & Hr & Hkm & _)]; [congruence|eauto].
    + apply dict_get_None in E. contradiction.
  - intros Hex.
    destruct (last_read_occurrences_Some reads k km Hex None) as (c & Hc).
    destruct (in_dec str_eq_dec km (keys d)) as [|Hn]; auto.
    apply dict_get_None in Hn. rewrite Hget in Hn.
    unfold last_read_occurrences in Hn. congruence.
Qed.

Lemma build_kmer_dict_key_length (reads : list str) (k : nat) (d : dict) :
  build_kmer_dict_loop reads k = Ok d ->
  forall km, In km (keys d) -> length km = k.
Proof.
  intros Hrun km Hin.
  apply (build_kmer_dict_keys reads k d Hrun) in Hin as (r & _ & Hin).
  apply cut_kmer_In in Hin as (i & Hi & ->).
  rewrite length_firstn, length_skipn. lia.
Qed.

Lemma lines_ind4 (P : list str -> Prop) :
  P [] -> (forall a, P [a]) -> (forall a b, P [a; b]) ->
  (forall a b c, P [a; b; c]) ->
  (forall a b c d rest, P rest -> P (a :: b :: c :: d :: rest)) ->
  forall lines, P lines.
Proof.
  intros H0 H1 H2 H3 H4 lines.
  enough (G : forall n l, (length l <= n)%nat -> P l) by (apply (G (length lines)); lia).
  induction n as [|n IH]; intros l Hl.
  - destruct l; [auto|simpl in Hl; lia].
  - destruct l as [|a [|b [|c [|d rest]]]]; auto.
    apply H4, IH. simpl in Hl. lia.
Qed.

(** The generator of [read_fastq] runs to its end exactly on a file whose
    number of lines is a multiple of four. *)
Lemma read_fastq_end (lines : list str) :
  snd (read_fastq lines) = Exhausted <-> (length lines mod 4 = 0)%nat.
Proof.
  induction lines as [|a|a b|a b c|a b c d rest IH] using lines_ind4;
    try (split; [reflexivity|reflexivity]);
    try (split; discriminate).
  change (read_fastq (a :: b :: c :: d :: rest))
    with (let (reads, e) := read_fastq rest in (strip b :: reads, e)).
  destruct (read_fastq rest) as [reads e]. simpl snd in *.
  change (length (a :: b :: c :: d :: rest)) with (4 + length rest)%nat.
  rewrite IH. replace (4 + length rest)%nat with (length rest + 1 * 4)%nat by lia.
  now rewrite Nat.Div0.mod_add.
Qed.

(** X3.  [build_kmer_dict] raises [RuntimeError] when the number of lines of
    the file is not a multiple of four: the generator of [read_fastq] is
    interrupted and the table built from the reads is lost.  Otherwise it
    returns a table and raises nothing (the [KeyError] of [+=] cannot occur):
    the keys are distinct, they are exactly the k-mers that occur in some
    read of the file, they all have length [kmer_size], and every count is
    at least 1: it is the number of occurrences of the k-mer in the last
    read that contains it. *)
Theorem build_kmer_dict_table (fastq_file : list str) (kmer_size : nat) :
  ((length fastq_file mod 4 <> 0)%nat ->
   build_kmer_dict fastq_file kmer_size = Raise RuntimeError) /\
  ((length fastq_file mod 4 = 0)%nat ->
   exists d,
     build_kmer_dict fastq_file kmer_size = Ok d /\
     NoDup (keys d) /\
     (forall km, In km (keys d) <->
                 exists r, In r (fst (read_fastq fastq_file)) /\
                           In km (cut_kmer r kmer_size)) /\
     (forall km, In km (keys d) -> length km = kmer_size) /\
     (forall km c, In (km, c) d ->
                   (1 <= c)%Z /\
                   last_read_occurrences (fst (read_fastq fastq_file))
                                         kmer_size km = Some c)).
Proof.
  pose proof (read_fastq_end fastq_file) as Hend. split.
  - intros Hmod. apply build_kmer_dict_interrupted.
    destruct (snd (read_fastq fastq_file)); auto.
    elim Hmod. now apply Hend.
  - intros Hmod. apply Hend in Hmod.
    assert (Hrf : read_fastq fastq_file = (fst (read_fastq fastq_file), Exhausted)).
    { rewrite <- Hmod. now destruct (read_fastq fastq_file). }
    set (reads := fst (read_fastq fastq_file)) in *.
    destruct (build_kmer_dict_last_read reads kmer_size) as (d & Hrun & Hget).
    pose proof (build_kmer_dict_NoDup reads kmer_size d Hrun) as Hnd.
    exists d.
    split; [now rewrite (build_kmer_dict_complete fastq_file reads kmer_size Hrf)|].
    split; [exact Hnd|].
    split; [exact (build_kmer_dict_keys reads kmer_size d Hrun)|].
    split; [exact (build_kmer_dict_key_length reads kmer_size d Hrun)|].
    intros km c Hin. apply (In_dict_get d km c Hnd) in Hin.
    rewrite Hget in Hin. split; auto.
    unfold last_read_occurrences in Hin.
    destruct (last_read_occurrences_acc reads kmer_size km None)
      as [H|(r & _ & Hkm & H)]; [congruence|].
    rewrite H in Hin. injection Hin as <-. now apply occurrences_in_pos.
Qed.

Lemma total_occurrences_absent (reads : list str) (k : nat) (km : str) :
  (forall r, In r reads -> ~ In km (cut_kmer r k)) ->
  total_occurrences reads k km = 0%Z /\
  forall acc,
    fold_left (fun acc r =>
                 if mem km (cut_kmer r k)
                 then Some (occurrences_in r k km) else acc) reads acc = acc.
Proof.
  induction reads as [|r reads IH]; intros Hno; simpl; [auto|].
  destruct IH as [Ht Hf]; [intros r' Hr'; apply Hno; now right|].
  assert (~ In km (cut_kmer r k)) as Hr by (apply Hno; now left).
  split.
  - rewrite Ht. unfold occurrences_in.
    rewrite (proj1 (count_occ_not_In str_eq_dec _ _) Hr). reflexivity.
  - intros acc. apply mem_not_In in Hr. rewrite Hr. apply Hf.
Qed.

Lemma kmers_not_shared_tl (r : str) (reads : list str) (k : nat) :
  kmers_not_shared (r :: reads) k -> kmers_not_shared reads k.
Proof.
  intros H l1 r0 l2 km Heq. apply (H (r :: l1) r0 l2 km). now rewrite Heq.
Qed.

Lemma last_read_total (reads : list str) (k : nat) (km : str) :
  kmers_not_shared reads k ->
  forall acc,
    fold_left (fun acc r =>
                 if mem km (cut_kmer r k)
                 then Some (occurrences_in r k km) else acc) reads acc =
    if (0 <? total_occurrences reads k km)%Z
    then Some (total_occurrences reads k km) else acc.
Proof.
  induction reads as [|r reads IH]; intros Hns acc; simpl; auto.
  destruct (mem km (cut_kmer r k)) eqn:E; str_cases.
  - destruct (total_occurrences_absent reads k km) as [Ht Hf].
    { intros r' Hr'. apply (Hns [] r reads km eq_refl E r' Hr'). }
    rewrite Hf, Ht, Z.add_0_r.
    pose proof (occurrences_in_pos r k km E).
    assert ((0 <? occurrences_in r k km)%Z = true) as -> by (apply Z.ltb_lt; lia).
    reflexivity.
  - rewrite (IH (kmers_not_shared_tl r reads k Hns)).
    assert (occurrences_in r k km = 0%Z) as ->; [|reflexivity].
    unfold occurrences_in.
    now rewrite (proj1 (count_occ_not_In str_eq_dec _ _) E).
Qed.

(** X4.  For a file of complete records in which no k-mer occurs in two
    different reads (in particular for a single read), the table returned by
    [build_kmer_dict] holds, for every k-mer, its total number of occurrences
    in the reads, and has no entry for a string that does not occur. *)
Theorem build_kmer_dict_exact (fastq_file reads : list str) (kmer_size : nat) :
  read_fastq fastq_file = (reads, Exhausted) ->
  kmers_not_shared reads kmer_size ->
  exists d,
    build_kmer_dict fastq_file kmer_size = Ok d /\
    forall km,
      dict_get d km =
      if (0 <? total_occurrences reads kmer_size km)%Z
      then Some (total_occurrences reads kmer_size km) else None.
Proof.
  intros Hrf Hns.
  destruct (build_kmer_dict_last_read reads kmer_size) as (d & Hrun & Hget).
  exists d.
  split; [now rewrite (build_kmer_dict_complete fastq_file reads kmer_size Hrf)|].
  intros km. rewrite Hget.
  apply (last_read_total reads kmer_size km Hns None).
Qed.

Lemma build_kmer_dict_exact_witness :
  exists d,
    build_kmer_dict [s "@read"; s "TCATCA"; s "+"; s "IIIIII"] 3 = Ok d /\
    forall km,
      dict_get d km =
      if (0 <? total_occurrences [s "TCATCA"] 3 km)%Z
      then Some (total_occurrences [s "TCATCA"] 3 km) else None.
Proof.
  apply (build_kmer_dict_exact [s "@read"; s "TCATCA"; s "+"; s "IIIIII"]
                               [s "TCATCA"] 3).
  - reflexivity.
  - intros l1 r l2 km Heq Hin r' Hr'.
    destruct l1 as [|x [|y l1]]; simpl in Heq; try discriminate.
    injection Heq as _ <-. destruct Hr'.
Defined.

(** * From reads to the graph *)

(** X5.  For [k >= 2], the table that [build_kmer_dict] returns meets the
    requirements of [build_graph]: the graph built from it is a well-formed
    de Bruijn graph, it has one edge per distinct k-mer of the reads,
    weighted by the count of the table, and its nodes are exactly the
    (k-1)-mers of the reads of the file that are long enough to contain a
    k-mer. *)
Theorem graph_of_reads (fastq_file : list str) (k : nat) (d : dict) :
  (2 <= k)%nat ->
  build_kmer_dict fastq_file k = Ok d ->
  let g := build_graph d in
  wf g /\ debruijn g /\
  edges g = map (edge_of_kmer k) d /\
  (forall n, In n (nodes g) <->
             exists r, In r (fst (read_fastq fastq_file)) /\
                       (k <= length r)%nat /\
                       In n (cut_kmer r (k - 1))).
Proof.
  intros Hk Hfile g.
  destruct (build_kmer_dict_Ok fastq_file k d Hfile) as [_ Hrun].
  set (reads := fst (read_fastq fastq_file)) in *.
  pose proof (build_kmer_dict_NoDup reads k d Hrun) as Hnd.
  pose proof (build_kmer_dict_key_length reads k d Hrun) as Hlen.
  pose proof (build_kmer_dict_keys reads k d Hrun) as Hkeys.
  pose proof (build_graph_keys_NoDup k d Hk Hnd Hlen) as Hpairs.
  destruct (build_graph_loop d empty_graph Hpairs) as (He & _ & Hi).
  fold (build_graph d) in He, Hi. fold g in He, Hi. simpl in He, Hi.
  split; [now apply (build_graph_wf k)|].
  split; [now apply (build_graph_debruijn k)|].
  split.
  { rewrite He. apply map_ext_in. intros [km c] Hin. unfold edge_of_kmer. simpl.
    assert (length km = k) as Hl
        by (apply Hlen; unfold keys; apply in_map_iff; exists (km, c); auto).
    now rewrite (prefix_is_slice k km Hl), (suffix_is_slice k km Hl). }
  intros n. rewrite Hi. split.
  - intros [[]|([km c] & Hin & Hn)]. simpl in Hn.
    assert (In km (keys d)) as Hkm
        by (unfold keys; apply in_map_iff; exists (km, c); auto).
    apply Hkeys in Hkm as (r & Hr & Hcut).
    apply cut_kmer_In in Hcut as (i & Hi' & ->).
    exists r. split; auto. split; [lia|].
    apply cut_kmer_In. destruct Hn as [->| ->].
    + exists i. split; [lia|].
      rewrite removelast_firstn_len, length_firstn, length_skipn.
      rewrite firstn_firstn. f_equal. lia.
    + exists (S i). split; [lia|].
      change (tl (firstn k (skipn i r))) with (skipn 1 (firstn k (skipn i r))).
      rewrite skipn_firstn_comm, skipn_skipn. reflexivity.
  - intros (r & Hr & Hlr & Hcut). right.
    apply cut_kmer_In in Hcut as (j & Hj & ->).
    destruct (le_lt_dec (j + k) (length r)) as [Hfit|Hlast].
    + assert (In (firstn k (skipn j r)) (keys d)) as Hkm.
      { apply Hkeys. exists r. split; auto. apply cut_kmer_In. eauto. }
      unfold keys in Hkm. apply in_map_iff in Hkm as ([km c] & Heq & Hin).
      simpl in Heq. subst km.
      exists (firstn k (skipn j r), c). split; auto. left. simpl.
      rewrite removelast_firstn_len, length_firstn, length_skipn.
      rewrite firstn_firstn. f_equal. lia.
    + destruct j as [|j]; [lia|].
      assert (In (firstn k (skipn j r)) (keys d)) as Hkm.
      { apply Hkeys. exists r. split; auto. apply cut_kmer_In.
        exists j. split; auto. lia. }
      unfold keys in Hkm. apply in_map_iff in Hkm as ([km c] & Heq & Hin).
      simpl in Heq. subst km.
      exists (firstn k (skipn j r), c). split; auto. right. simpl.
      change (tl (firstn k (skipn j r))) with (skipn 1 (firstn k (skipn j r))).
      rewrite skipn_firstn_comm, skipn_skipn. reflexivity.
Qed.

Lemma graph_of_reads_witness :
  let d := [(s "TCA", 1%Z); (s "CAG", 1%Z); (s "AGA", 1%Z)] in
  edges (build_graph d) = map (edge_of_kmer 3) d.
Proof.
  intros d.
  refine (proj1 (proj2 (proj2 (graph_of_reads
                                 [s "@read"; s "TCAGA"; s "+"; s "IIIII"] 3 d _ _)))).
  - lia.
  - vm_compute. reflexivity.
Defined.

(** * Removal as an induced subgraph *)

Lemma filter_twice {A : Type} (f h : A -> bool) (l : list A) :
  filter f (filter h l) = filter (fun x => h x && f x) l.
Proof.
  induction l as [|x l IH]; simpl; auto.
  destruct (h x); simpl; [destruct (f x)|]; now rewrite IH.
Qed.

Lemma filter_all {A : Type} (f : A -> bool) (l : list A) :
  (forall x, In x l -> f x = true) -> filter f l = l.
Proof.
  induction l as [|x l IH]; simpl; intros H; auto.
  rewrite (H x) by now left. f_equal. apply IH. intros y Hy. apply H. now right.
Qed.

Lemma mem_cons (x n : str) (ns : list str) :
  negb (mem x (n :: ns)) = negb (str_eqb x n) && negb (mem x ns).
Proof.
  destruct (mem x (n :: ns)) eqn:E1, (str_eqb x n) eqn:E2, (mem x ns) eqn:E3;
    str_cases; simpl in *; auto; exfalso; intuition congruence.
Qed.

(** [remove_nodes_from] keeps, in their order, the nodes outside the list
    and the edges between them. *)
Lemma remove_nodes_from_filter (ns : list node) (g : DiGraph) :
  remove_nodes_from g ns =
  mkDiGraph (filter (fun m => negb (mem m ns)) (nodes g))
            (filter (fun e => negb (mem (src e) ns) && negb (mem (dst e) ns))
                    (edges g)).
Proof.
  unfold remove_nodes_from. revert g.
  induction ns as [|n ns IH]; intros g; simpl.
  - rewrite !filter_all by reflexivity. now destruct g.
  - rewrite IH. unfold remove_node. simpl. rewrite !filter_twice. f_equal.
    + apply filter_ext. intros m. now rewrite mem_cons.
    + apply filter_ext. intros e. rewrite !mem_cons.
      destruct (str_eqb (src e) n), (str_eqb (dst e) n),
        (mem (src e) ns), (mem (dst e) ns); reflexivity.
Qed.

Lemma remove_paths_filter (g : DiGraph) (pl : list path) (de ds : bool) :
  exists keep : node -> bool,
    nodes (remove_paths g pl de ds) = filter keep (nodes g) /\
    edges (remove_paths g pl de ds) =
    filter (fun e => keep (src e) && keep (dst e)) (edges g).
Proof.
  rewrite remove_paths_slices, remove_nodes_from_filter.
  eexists (fun m => negb (mem m _)). simpl. split; reflexivity.
Qed.

(** X6.  [remove_paths] only removes: the graph it returns is the subgraph
    induced on the nodes that are left.  The remaining nodes and edges keep
    their order and their weights, an edge remains exactly when both its end
    points do, and a well-formed graph stays well formed. *)
Theorem remove_paths_induced (g : DiGraph) (path_list : list path)
        (delete_entry_node delete_sink_node : bool) :
  wf g ->
  let g' := remove_paths g path_list delete_entry_node delete_sink_node in
  wf g' /\
  (exists keep : node -> bool,
      nodes g' = filter keep (nodes g) /\
      edges g' = filter (fun e => keep (src e) && keep (dst e)) (edges g)) /\
  (forall e, In e (edges g') <->
             In e (edges g) /\ In (src e) (nodes g') /\ In (dst e) (nodes g')).
Proof.
  intros Hwf g'. split; [now apply remove_paths_wf|].
  destruct (remove_paths_filter g path_list delete_entry_node delete_sink_node)
    as (keep & Hn & He).
  fold g' in Hn, He. split; [now exists keep|].
  intros e. rewrite Hn, He, !filter_In, andb_true_iff.
  destruct Hwf as (_ & _ & Hin). split.
  - intros (H & Hs & Hd). destruct (Hin e H). tauto.
  - tauto.
Qed.

Lemma remove_paths_induced_witness :
  wf (remove_paths bubble_graph [[s "A"; s "B"; s "D"]] false false).
Proof.
  apply (remove_paths_induced bubble_graph [[s "A"; s "B"; s "D"]] false false).
  apply wfb_sound. vm_compute. reflexivity.
Defined.

(** * Outcomes of the selection *)




(** * What [solve_bubble] removes *)

Lemma nth_error_last {A : Type} (l : list A) (d : A) :
  l <> [] -> nth_error l (length l - 1) = Some (last l d).
Proof.
  induction l as [|x l IH]; [congruence|]. intros _.
  destruct l as [|y l]; [reflexivity|].
  replace (length (x :: y :: l) - 1)%nat with (S (length (y :: l) - 1))
    by (simpl; lia).
  change (nth_error (x :: y :: l) (S (length (y :: l) - 1)))
    with (nth_error (y :: l) (length (y :: l) - 1)).
  rewrite IH by discriminate. reflexivity.
Qed.

(** The end points of a simple path are not interior to a simple path with
    the same end points. *)
Lemma simple_path_ends_not_interior (g : DiGraph) (a d : node) (p : path) :
  simple_path g a d p -> ~ interior p a /\ ~ interior p d.
Proof.
  intros [(_ & l & -> & _ & Hl) Hnd]. split.
  - intros (i & Hi & [?|H0] & _); [discriminate|].
    assert (i = 0)%nat; [|lia].
    apply (proj1 (NoDup_nth_error (a :: l)) Hnd).
    + apply nth_error_Some. congruence.
    + now rewrite Hi.
  - intros (i & Hi & _ & [?|H1]); [discriminate|].
    assert (i = length (a :: l) - 1)%nat; [|lia].
    apply (proj1 (NoDup_nth_error (a :: l)) Hnd).
    + apply nth_error_Some. congruence.
    + rewrite Hi, (nth_error_last (a :: l) a) by discriminate. now rewrite Hl.
Qed.

(** Every path that [all_simple_paths] yields is a simple path. *)
Lemma all_simple_paths_sound (tp : bool) (g : DiGraph) (a d : node)
      (L : list path) :
  wf g -> all_simple_paths tp g a d = Ok L ->
  In a (nodes g) /\ In d (nodes g) /\ forall p, In p L -> simple_path g a d p.
Proof.
  intros Hwf HL.
  assert (In a (nodes g) /\ In d (nodes g)) as [Ha Hd].
  { unfold all_simple_paths in HL.
    destruct (mem a (nodes g)) eqn:Ea; [|discriminate].
    destruct (mem d (nodes g)) eqn:Ed; [|discriminate]. str_cases. auto. }
  split; auto. split; auto. intros p Hp.
  destruct (str_eq_dec a d) as [<-|Hne].
  - rewrite (all_simple_paths_same tp g a Ha) in HL. injection HL as <-.
    destruct tp; [|destruct Hp]. destruct Hp as [<-|[]].
    split; [split; auto; now exists []|].
    constructor; [intros []|constructor].
  - destruct (all_simple_paths_spec tp g a d Hwf Ha Hd Hne) as (L' & HL' & _ & Hin).
    rewrite HL in HL'. injection HL' as <-. now apply Hin.
Qed.

(** X8.  When [solve_bubble] returns, the ancestor and the descendant are
    still in the graph, every node that has disappeared was an interior node
    of a simple path from the ancestor to the descendant, and the result is
    the well-formed subgraph induced on the nodes that are left. *)
Theorem solve_bubble_keeps_endpoints (trivial_path : bool)
        (randint : nat -> nat -> nat) (g g' : DiGraph) (a d : node) :
  wf g ->
  solve_bubble trivial_path randint g a d = Ok g' ->
  wf g' /\
  In a (nodes g') /\ In d (nodes g') /\
  (forall n, In n (nodes g) -> ~ In n (nodes g') ->
             exists p, simple_path g a d p /\ interior p n) /\
  (exists keep : node -> bool,
      nodes g' = filter keep (nodes g) /\
      edges g' = filter (fun e => keep (src e) && keep (dst e)) (edges g)).
Proof.
  intros Hwf Hrun.
  destruct (solve_bubble_returns trivial_path randint g g' a d Hrun)
    as (pl & -> & Hpl).
  assert (Hsp : forall p, In p pl -> simple_path g a d p).
  { intros p Hp. destruct (Hpl p Hp) as (L & HL & Hin).
    now apply (all_simple_paths_sound trivial_path g a d L Hwf HL). }
  assert (In a (nodes g) /\ In d (nodes g)) as [Ha Hd].
  { unfold solve_bubble in Hrun.
    destruct (all_simple_paths trivial_path g a d) as [L|] eqn:HL;
      [|discriminate].
    destruct (all_simple_paths_sound trivial_path g a d L Hwf HL) as (? & ? & _).
    auto. }
  split; [now apply remove_paths_wf|].
  split; [|split; [|split]].
  - apply remove_paths_nodes. split; auto. intros (p & Hp & Hi).
    destruct (simple_path_ends_not_interior g a d p (Hsp p Hp)) as [H1 _].
    now apply H1.
  - apply remove_paths_nodes. split; auto. intros (p & Hp & Hi).
    destruct (simple_path_ends_not_interior g a d p (Hsp p Hp)) as [_ H2].
    now apply H2.
  - intros n Hn Hgone.
    rewrite remove_paths_slices, remove_nodes_from_nodes in Hgone.
    destruct (in_dec str_eq_dec n (flat_map (removed_slice false false) pl))
      as [Hin|Hout]; [|tauto].
    apply in_flat_map in Hin as (p & Hp & Hin).
    exists p. split; auto. now apply removed_slice_doomed in Hin.
  - apply remove_paths_filter.
Qed.

Lemma solve_bubble_keeps_endpoints_witness :
  In (s "A") (nodes (mkDiGraph [s "A"; s "D"; s "C"]
                               [(s "A", s "C", 5%Z); (s "C", s "D", 5%Z)])).
Proof.
  refine (proj1 (proj2 (solve_bubble_keeps_endpoints false randint0 bubble_graph
                          _ (s "A") (s "D") _ _))).
  - apply wfb_sound. vm_compute. reflexivity.
  - vm_compute. reflexivity.
Defined.

(** The loop of [solve_bubble] over the paths: it ends with one value per
    path, or with the error of [path_average_weight] on one of them. *)
Lemma solve_bubble_metrics (g : DiGraph) (L : list path) :
  forall acc,
    (exists e p,
        In p L /\ path_average_weight g p = Raise e /\
        foldM (fun acc p =>
                 w <- path_average_weight g p ;;
                 Ok (fst acc ++ [Z.of_nat (length p)], snd acc ++ [w])) L acc =
        Raise e) \/
    exists m,
      foldM (fun acc p =>
               w <- path_average_weight g p ;;
               Ok (fst acc ++ [Z.of_nat (length p)], snd acc ++ [w])) L acc = Ok m /\
      length (snd m) = (length (snd acc) + length L)%nat.
Proof.
  induction L as [|p L IH]; intros acc; simpl.
  - right. exists acc. split; auto.
  - destruct (path_average_weight g p) as [w|e] eqn:Ew; simpl bind.
    + destruct (IH (fst acc ++ [Z.of_nat (length p)], snd acc ++ [w]))
        as [(e & q & Hq & Hqe & Hrun)|(m & Hm & Hl)].
      * left. exists e, q. auto.
      * right. exists m. split; auto. rewrite Hl. simpl.
        rewrite length_app. simpl. lia.
    + left. exists e, p. auto.
Qed.

(** X9.  [solve_bubble] needs two competing paths: when at most one simple
    path leads from the ancestor to the descendant (two distinct nodes of the
    graph), it does not return the graph.  It raises [StatisticsError],
    except that the mean weight of the one path is computed first and may
    raise [OverflowError]. *)
Theorem solve_bubble_single_path (trivial_path : bool)
        (randint : nat -> nat -> nat) (g : DiGraph) (a d : node) :
  wf g -> In a (nodes g) -> In d (nodes g) -> a <> d ->
  (forall p q, simple_path g a d p -> simple_path g a d q -> p = q) ->
  solve_bubble trivial_path randint g a d = Raise StatisticsError \/
  (exists p, simple_path g a d p /\
             path_average_weight g p = Raise OverflowError /\
             solve_bubble trivial_path randint g a d = Raise OverflowError).
Proof.
  intros Hwf Ha Hd Hne Huniq. unfold solve_bubble.
  destruct (all_simple_paths_spec trivial_path g a d Hwf Ha Hd Hne)
    as (L & HL & Hnd & Hin).
  rewrite HL. simpl bind.
  assert (length L < 2)%nat as Hlen.
  { destruct L as [|p [|q L]]; simpl; try lia.
    exfalso. inversion Hnd as [|? ? Hn _]; subst. apply Hn.
    rewrite (Huniq p q); [now left| |]; apply Hin; simpl; auto. }
  destruct (solve_bubble_metrics g L ([], []))
    as [(e & p & Hp & Hpe & ->)|(m & -> & Hm)]; simpl bind.
  - destruct (path_average_weight_raises g p e Hpe) as [->| ->]; [now left|].
    right. exists p. split; [now apply Hin|]. auto.
  - left. unfold select_best_path.
    rewrite stdev_gt_0_short; auto. simpl in Hm. lia.
Qed.

Lemma solve_bubble_single_path_witness :
  solve_bubble false randint0 tcaga_graph (s "TC") (s "GA") =
  Raise StatisticsError.
Proof.
  assert (Hwf : wf tcaga_graph) by (apply wfb_sound; vm_compute; reflexivity).
  assert (Ha : In (s "TC") (nodes tcaga_graph)) by (vm_compute; auto).
  assert (Hd : In (s "GA") (nodes tcaga_graph)) by (vm_compute; auto 10).
  assert (Hne : s "TC" <> s "GA") by discriminate.
  assert (Huniq : forall p q, simple_path tcaga_graph (s "TC") (s "GA") p ->
                              simple_path tcaga_graph (s "TC") (s "GA") q -> p = q).
  { intros p q Hp Hq.
    destruct (all_simple_paths_spec false tcaga_graph (s "TC") (s "GA") Hwf Ha Hd Hne)
      as (L & HL & _ & Hin).
    vm_compute in HL. injection HL as <-.
    apply Hin in Hp, Hq.
    destruct Hp as [<-|[]], Hq as [<-|[]]. reflexivity. }
  destruct (solve_bubble_single_path false randint0 tcaga_graph (s "TC") (s "GA")
              Hwf Ha Hd Hne Huniq) as [H|(p & _ & _ & H)].
  - exact H.
  - assert (solve_bubble false randint0 tcaga_graph (s "TC") (s "GA") =
            Raise StatisticsError) as E by (vm_compute; reflexivity).
    rewrite E in H. discriminate H.
Defined.

(** On a single route whose two weights have a mean beyond the float range
    the error is [OverflowError]. *)
Example solve_bubble_overflow_scenario :
  forall trivial_path randint,
    solve_bubble trivial_path randint huge_graph (s "A") (s "C") =
    Raise OverflowError.
Proof. intros trivial_path randint. vm_compute. reflexivity. Qed.

(** * What [simplify_bubbles] returns *)

Lemma solve_bubble_filter (tp : bool) (randint : nat -> nat -> nat)
      (g g' : DiGraph) (a d : node) :
  solve_bubble tp randint g a d = Ok g' ->
  exists keep : node -> bool,
    nodes g' = filter keep (nodes g) /\
    edges g' = filter (fun e => keep (src e) && keep (dst e)) (edges g).
Proof.
  intros H. apply solve_bubble_returns in H as (pl & -> & _).
  apply remove_paths_filter.
Qed.

(** A call that finds no pair returns its argument, whatever the random
    source and the depth budget. *)
Lemma simplify_bubbles_quiet (g : DiGraph) (st : scan_state * option node) :
  scan_nodes g (nodes g) (false, None) = Ok st ->
  (fst (fst st) = false \/ snd st = None) ->
  forall depth tp randint,
    simplify_bubbles (S depth) tp randint g = Some (Ok g).
Proof.
  intros Hscan Hq depth tp randint. rewrite simplify_bubbles_S, Hscan.
  destruct st as [[b anc] n]. simpl in Hq.
  destruct Hq as [->| ->]; [reflexivity|]. now destruct b.
Qed.

(** X10.  Whatever graph [simplify_bubbles] returns is the subgraph of its
    argument induced on the nodes that are left, in the same order and with
    the same weights; it is well formed when the argument is; and it is
    stable: simplifying it again returns it unchanged. *)
Theorem simplify_bubbles_result (depth : nat) (trivial_path : bool)
        (randint : nat -> nat -> nat) (g g' : DiGraph) :
  simplify_bubbles depth trivial_path randint g = Some (Ok g') ->
  (wf g -> wf g') /\
  (exists keep : node -> bool,
      nodes g' = filter keep (nodes g) /\
      edges g' = filter (fun e => keep (src e) && keep (dst e)) (edges g)) /\
  (forall depth' tp' randint',
      simplify_bubbles (S depth') tp' randint' g' = Some (Ok g')).
Proof.
  revert g. induction depth as [|depth IH]; intros g Hrun; [discriminate|].
  split; [apply (simplify_bubbles_invariant trivial_path randint _ g g' Hrun)|].
  rewrite simplify_bubbles_S in Hrun.
  destruct (scan_nodes g (nodes g) (false, None)) as [[[b anc] n]|] eqn:Hscan;
    [|discriminate].
  assert (Hbase : Some (Ok g) = Some (Ok g') ->
                  (exists keep : node -> bool,
                      nodes g' = filter keep (nodes g) /\
                      edges g' = filter (fun e => keep (src e) && keep (dst e))
                                        (edges g))).
  { intros H. injection H as <-. exists (fun _ => true).
    split; symmetry; apply filter_all; reflexivity. }
  destruct b.
  - destruct n as [n|].
    + destruct anc as [a|]; [|discriminate].
      destruct (solve_bubble trivial_path randint g a n) as [g1|] eqn:Hsolve;
        [|discriminate].
      destruct (IH g1 Hrun) as (_ & (keep2 & Hn2 & He2) & Hstable).
      split; auto.
      destruct (solve_bubble_filter _ _ _ _ _ _ Hsolve) as (keep1 & Hn1 & He1).
      exists (fun m => keep1 m && keep2 m).
      rewrite Hn2, He2, Hn1, He1, !filter_twice. split; auto.
      apply filter_ext. intros e.
      destruct (keep1 (src e)), (keep1 (dst e)), (keep2 (src e)), (keep2 (dst e));
        reflexivity.
    + split; [now apply Hbase|]. injection Hrun as <-.
      intros depth' tp' randint'.
      apply (simplify_bubbles_quiet g _ Hscan). now right.
  - split; [now apply Hbase|]. injection Hrun as <-.
    intros depth' tp' randint'.
    apply (simplify_bubbles_quiet g _ Hscan). now left.
Qed.

Lemma simplify_bubbles_result_witness :
  simplify_bubbles 1 true randint0
    (mkDiGraph [s "A"; s "D"; s "C"] [(s "A", s "C", 5%Z); (s "C", s "D", 5%Z)]) =
  Some (Ok (mkDiGraph [s "A"; s "D"; s "C"]
                      [(s "A", s "C", 5%Z); (s "C", s "D", 5%Z)])).
Proof.
  refine (proj2 (proj2 (simplify_bubbles_result 2 false randint0 bubble_graph
                          _ _)) 0%nat true randint0).
  vm_compute. reflexivity.
Defined.

(** * Termination of the simplification *)

Lemma filter_same_length {A : Type} (f : A -> bool) (l : list A) :
  length (filter f l) = length l -> filter f l = l.
Proof.
  intros H. apply filter_all. now apply filter_length_all.
Qed.

(** A step of [solve_bubble] either removes a node or changes nothing. *)
Lemma solve_bubble_progress (tp : bool) (randint : nat -> nat -> nat)
      (g g' : DiGraph) (a d : node) :
  wf g -> solve_bubble tp randint g a d = Ok g' ->
  g' = g \/ (length (nodes g') < length (nodes g))%nat.
Proof.
  intros Hwf H.
  destruct (solve_bubble_filter tp randint g g' a d H) as (keep & Hn & He).
  pose proof (filter_length_le keep (nodes g)) as Hle.
  destruct (Nat.eq_dec (length (filter keep (nodes g))) (length (nodes g)))
    as [Heq|Hne]; [left|right; rewrite Hn; lia].
  pose proof (filter_length_all keep (nodes g) Heq) as Hall.
  destruct g as [ns es], g' as [ns' es']. simpl in *. f_equal.
  - rewrite Hn. now apply filter_same_length.
  - rewrite He. apply filter_all. intros e Hin.
    destruct Hwf as (_ & _ & Hends). destruct (Hends e Hin) as [Hs Hd].
    simpl in Hs, Hd. now rewrite (Hall _ Hs), (Hall _ Hd).
Qed.

Lemma simplify_bubbles_bound (tp : bool) (randint : nat -> nat -> nat) (n : nat) :
  forall g, wf g -> (length (nodes g) <= n)%nat ->
            simplify_bubbles (S n) tp randint g = None ->
            forall depth, simplify_bubbles depth tp randint g = None.
Proof.
  induction n as [|n IH]; intros g Hwf Hlen Hrun.
  - exfalso. destruct g as [[|x ns] es]; simpl in Hlen; [|lia].
    discriminate Hrun.
  - rewrite simplify_bubbles_S in Hrun.
    destruct (scan_nodes g (nodes g) (false, None)) as [[[b anc] m]|] eqn:Hscan;
      [|discriminate].
    destruct b; [|discriminate]. destruct m as [m|]; [|discriminate].
    destruct anc as [a|]; [|discriminate].
    destruct (solve_bubble tp randint g a m) as [g1|] eqn:Hsolve; [|discriminate].
    destruct (solve_bubble_progress tp randint g g1 a m Hwf Hsolve) as [->|Hlt].
    + now apply (simplify_bubbles_stuck tp randint g a m).
    + assert (wf g1) as Hwf1.
      { apply solve_bubble_returns in Hsolve as (pl & -> & _).
        now apply remove_paths_wf. }
      pose proof (IH g1 Hwf1 ltac:(lia) Hrun) as Hnone.
      intros [|depth]; [reflexivity|].
      rewrite simplify_bubbles_S, Hscan, Hsolve. apply Hnone.
Qed.

(** X12.  The recursion of [simplify_bubbles] is either short or endless: on
    a well-formed graph, a run that needs more nested calls than the graph
    has nodes, plus one, never ends, whatever the depth allowed.  Every step
    that does not remove a node hands the same graph to the next call. *)
Theorem simplify_bubbles_terminates_or_loops (trivial_path : bool)
        (randint : nat -> nat -> nat) (g : DiGraph) :
  wf g ->
  (exists r, simplify_bubbles (S (length (nodes g))) trivial_path randint g =
             Some r) \/
  (forall depth, simplify_bubbles depth trivial_path randint g = None).
Proof.
  intros Hwf.
  destruct (simplify_bubbles (S (length (nodes g))) trivial_path randint g)
    as [r|] eqn:E; [left; now exists r|right].
  now apply (simplify_bubbles_bound trivial_path randint (length (nodes g))).
Qed.

Lemma simplify_bubbles_terminates_or_loops_witness :
  (exists r, simplify_bubbles (S (length (nodes shortcut_graph))) false randint0
                              shortcut_graph = Some r) \/
  (forall depth, simplify_bubbles depth false randint0 shortcut_graph = None).
Proof.
  apply simplify_bubbles_terminates_or_loops.
  apply wfb_sound. vm_compute. reflexivity.
Defined.

Lemma scan_nodes_single_predecessors (g : DiGraph) :
  (forall n, In n (nodes g) -> (length (predecessors g n) <= 1)%nat) ->
  forall ns, incl ns (nodes g) ->
             scan_nodes g ns (false, None) = Ok ((false, None), None).
Proof.
  intros Hone. induction ns as [|n ns IH]; intros Hincl; simpl; auto.
  assert ((1 <? length (predecessors g n))%nat = false) as ->.
  { apply Nat.ltb_ge. apply Hone. apply Hincl. now left. }
  simpl. apply IH. intros x Hx. apply Hincl. now right.
Qed.

(** X13.  A graph in which no node has two predecessors is returned
    unchanged by [simplify_bubbles], cycles or not: no lowest common ancestor
    is ever asked for. *)
Theorem simplify_bubbles_single_predecessors (g : DiGraph) (depth : nat)
        (trivial_path : bool) (randint : nat -> nat -> nat) :
  (forall n, In n (nodes g) -> (length (predecessors g n) <= 1)%nat) ->
  simplify_bubbles (S depth) trivial_path randint g = Some (Ok g).
Proof.
  intros Hone.
  apply (simplify_bubbles_quiet g _
           (scan_nodes_single_predecessors g Hone (nodes g) (incl_refl _))).
  now left.
Qed.

Lemma simplify_bubbles_single_predecessors_witness :
  simplify_bubbles 1 false randint0 (build_graph [(s "ACA", 1%Z); (s "CAC", 1%Z)]) =
  Some (Ok (build_graph [(s "ACA", 1%Z); (s "CAC", 1%Z)])).
Proof.
  apply simplify_bubbles_single_predecessors.
  intros n Hn. vm_compute in Hn.
  destruct Hn as [<-|[<-|[]]]; vm_compute; lia.
Defined.

(** * The ancestor that the scan hands over *)

Lemma reaches_reach (g : DiGraph) (a x : node) :
  wf g -> acyclic g -> reaches g a x ->
  In a (nodes g) /\ reach (length (nodes g)) g a x = true.
Proof.
  intros Hwf Hac (p & Ha & l & -> & Hc & Hl). split; auto.
  rewrite last_cons_last in Hl.
  apply (reach_complete g x l); auto.
  pose proof (acyclic_chain_NoDup g l Hac a Hc) as Hnd.
  assert (incl (a :: l) (nodes g)) as Hincl.
  { intros y [<-|Hy]; auto. eapply chain_nodes; eauto. }
  pose proof (NoDup_incl_length Hnd Hincl) as Hlen. simpl in Hlen. lia.
Qed.

(** On an acyclic graph the search finds an ancestor whenever there is a
    common one. *)
Lemma lowest_common_ancestor_complete (g : DiGraph) (x y a0 : node) :
  wf g -> acyclic g -> In x (nodes g) -> In y (nodes g) ->
  reaches g a0 x -> reaches g a0 y ->
  exists a, lowest_common_ancestor g x y = Ok (Some a).
Proof.
  intros Hwf Hac Hx Hy Hrx Hry.
  destruct (reaches_reach g a0 x Hwf Hac Hrx) as [Ha Hr1].
  destruct (reaches_reach g a0 y Hwf Hac Hry) as [_ Hr2].
  unfold lowest_common_ancestor.
  rewrite (proj2 (is_directed_acyclic_graph_iff g Hwf) Hac). simpl.
  assert ((length (nodes g) =? 0)%nat = false) as ->.
  { apply Nat.eqb_neq. destruct (nodes g); [destruct Hx|discriminate]. }
  apply mem_In in Hx as ->. apply mem_In in Hy as ->. simpl.
  destruct (filter (fun a => reach (length (nodes g)) g a x &&
                             reach (length (nodes g)) g a y) (nodes g))
    as [|c cs] eqn:E.
  - exfalso. assert (In a0 []) as []. rewrite <- E. apply filter_In.
    split; auto. now rewrite Hr1, Hr2.
  - eauto.
Qed.

Lemma scan_j_flag (g : DiGraph) (x : node) (rest : list node) :
  (forall y, In y rest -> exists r, lowest_common_ancestor g x y = Ok r) ->
  forall st, exists st',
      scan_j g x rest st = Ok st' /\
      (fst st = true -> fst st' = true) /\
      ((exists y a, In y rest /\ lowest_common_ancestor g x y = Ok (Some a)) ->
       fst st' = true).
Proof.
  induction rest as [|y rest IH]; intros Hok st; simpl.
  - exists st. split; auto. split; auto. intros (y & a & [] & _).
  - destruct (Hok y (or_introl eq_refl)) as ([a|] & Hr); rewrite Hr; simpl.
    + exists (true, Some a). auto.
    + destruct (IH (fun z Hz => Hok z (or_intror Hz)) (fst st, None))
        as (st' & Hrun & Hmono & Hfound).
      exists st'. split; auto. split; auto.
      intros (z & a & [<-|Hz] & Hza); [congruence|]. apply Hfound. eauto.
Qed.

Lemma scan_i_flag (g : DiGraph) (preds : list node) :
  (forall x y, In x preds -> In y preds ->
               exists r, lowest_common_ancestor g x y = Ok r) ->
  forall st, exists st',
      scan_i g preds st = Ok st' /\
      (fst st = true -> fst st' = true) /\
      ((exists l1 x l2 y l3 a,
           preds = l1 ++ x :: l2 ++ y :: l3 /\
           lowest_common_ancestor g x y = Ok (Some a)) ->
       fst st' = true).
Proof.
  induction preds as [|x rest IH]; intros Hok st; simpl.
  - exists st. split; auto. split; auto.
    intros (l1 & x & l2 & y & l3 & a & Heq & _). destruct l1; discriminate.
  - destruct (scan_j_flag g x rest) with (st := st) as (st1 & Hrun1 & Hmono1 & Hf1).
    { intros y Hy. apply Hok; [now left|now right]. }
    rewrite Hrun1. simpl.
    destruct (IH (fun a b Ha Hb => Hok a b (or_intror Ha) (or_intror Hb)) st1)
      as (st' & Hrun & Hmono & Hf).
    exists st'. split; auto. split; auto.
    intros (l1 & x0 & l2 & y & l3 & a & Heq & Hxy).
    destruct l1 as [|z l1]; simpl in Heq; injection Heq as <- Heq.
    + apply Hmono, Hf1. exists y, a. split; auto. rewrite Heq.
      apply in_or_app. right. now left.
    + apply Hf. exists l1, x0, l2, y, l3, a. auto.
Qed.

(** After the loops over a list of predecessors, [noeud_ancetre] holds the
    answer for the last two of them. *)
Lemma scan_i_last_pair (g : DiGraph) (p q : node) (l : list node) :
  forall st st', scan_i g (l ++ [p; q]) st = Ok st' ->
                 lowest_common_ancestor g p q = Ok (snd st').
Proof.
  induction l as [|x l IH]; intros st st'; simpl.
  - destruct (lowest_common_ancestor g p q) as [[a|]|]; simpl;
      try discriminate; intros H; injection H as <-; reflexivity.
  - destruct (scan_j g x (l ++ [p; q]) st) as [st1|]; simpl; [|discriminate].
    apply IH.
Qed.

Lemma in_split_ordered (l : list node) (x y : node) :
  In x l -> In y l -> x <> y ->
  (exists l1 l2 l3, l = l1 ++ x :: l2 ++ y :: l3) \/
  (exists l1 l2 l3, l = l1 ++ y :: l2 ++ x :: l3).
Proof.
  intros Hx Hy Hne. apply in_split in Hx as (l1 & r & ->).
  apply in_app_or in Hy as [Hy|[Hy|Hy]]; [|congruence|].
  - right. apply in_split in Hy as (a & b & ->).
    exists a, b, r. now rewrite <- app_assoc.
  - left. apply in_split in Hy as (a & b & ->). now exists l1, a, b.
Qed.

(** X11.  In a well-formed acyclic graph, let [n] be the first node with
    more than one predecessor, and let two of its predecessors have a common
    ancestor, so that a bubble is detected at [n].  The ancestor that
    [simplify_bubbles] passes to [solve_bubble] is then the lowest common
    ancestor of the last two predecessors of [n], whichever pair was
    detected; when these two have no common ancestor, the run raises
    [NodeNotFound]. *)
Theorem simplify_bubbles_last_pair (trivial_path : bool)
        (randint : nat -> nat -> nat) (g : DiGraph)
        (ns1 ns2 l : list node) (n p q : node) (depth : nat) :
  wf g -> acyclic g ->
  nodes g = ns1 ++ n :: ns2 ->
  (forall m, In m ns1 -> (length (predecessors g m) <= 1)%nat) ->
  predecessors g n = l ++ [p; q] ->
  (exists x y a0, In x (predecessors g n) /\ In y (predecessors g n) /\
                  x <> y /\ reaches g a0 x /\ reaches g a0 y) ->
  exists r,
    lowest_common_ancestor g p q = Ok r /\
    simplify_bubbles (S depth) trivial_path randint g =
    match r with
    | None => Some (Raise NodeNotFound)
    | Some a =>
        match solve_bubble trivial_path randint g a n with
        | Raise e => Some (Raise e)
        | Ok g' => simplify_bubbles depth trivial_path randint g'
        end
    end.
Proof.
  intros Hwf Hac Hnodes Hone Hpreds (x & y & a0 & Hx & Hy & Hne & Hrx & Hry).
  assert (Hin : forall z, In z (predecessors g n) -> In z (nodes g)).
  { intros z Hz. apply predecessors_In in Hz.
    now apply (has_edge_nodes g z n Hwf Hz). }
  assert (Hok : forall u v, In u (predecessors g n) -> In v (predecessors g n) ->
                            exists r, lowest_common_ancestor g u v = Ok r).
  { intros u v Hu Hv.
    destruct (lowest_common_ancestor_sound g u v
                (proj2 (is_directed_acyclic_graph_iff g Hwf) Hac)
                (Hin u Hu) (Hin v Hv)) as [H|(a & H & _)]; eauto. }
  destruct (scan_i_flag g (predecessors g n) Hok (false, None))
    as (st' & Hrun & _ & Hfound).
  assert (fst st' = true) as Hflag.
  { apply Hfound.
    destruct (in_split_ordered _ x y Hx Hy Hne) as [(l1 & l2 & l3 & Heq)|(l1 & l2 & l3 & Heq)].
    - destruct (lowest_common_ancestor_complete g x y a0 Hwf Hac (Hin x Hx) (Hin y Hy) Hrx Hry)
        as (a & Ha).
      exists l1, x, l2, y, l3, a. auto.
    - destruct (lowest_common_ancestor_complete g y x a0 Hwf Hac (Hin y Hy) (Hin x Hx) Hry Hrx)
        as (a & Ha).
      exists l1, y, l2, x, l3, a. auto. }
  pose proof Hrun as Hlast. rewrite Hpreds in Hlast.
  apply scan_i_last_pair in Hlast.
  exists (snd st'). split; auto.
  assert (Hscan : scan_nodes g (nodes g) (false, None) = Ok (st', Some n)).
  { rewrite Hnodes. clear Hnodes. induction ns1 as [|m ns1 IH]; simpl.
    - assert ((1 <? length (predecessors g n))%nat = true) as ->.
      { apply Nat.ltb_lt. rewrite Hpreds, length_app. simpl. lia. }
      rewrite Hrun. simpl. now rewrite Hflag.
    - assert ((1 <? length (predecessors g m))%nat = false) as ->.
      { apply Nat.ltb_ge. apply Hone. now left. }
      simpl. apply IH. intros z Hz. apply Hone. now right. }
  rewrite simplify_bubbles_S, Hscan.
  destruct st' as [b anc]. simpl in Hflag. subst b. simpl.
  destruct anc; reflexivity.
Qed.

Lemma simplify_bubbles_last_pair_witness :
  exists r,
    lowest_common_ancestor three_pred_graph (s "C") (s "E") = Ok r /\
    simplify_bubbles 1 false randint0 three_pred_graph =
    match r with
    | None => Some (Raise NodeNotFound)
    | Some a =>
        match solve_bubble false randint0 three_pred_graph a (s "D") with
        | Raise e => Some (Raise e)
        | Ok g' => simplify_bubbles 0 false randint0 g'
        end
    end.
Proof.
  assert (Hwf : wf three_pred_graph) by (apply wfb_sound; vm_compute; reflexivity).
  apply (simplify_bubbles_last_pair false randint0 three_pred_graph
           [s "A"; s "B"; s "C"; s "X"; s "E"] [] [s "B"] (s "D") (s "C") (s "E") 0
           Hwf).
  - apply (is_directed_acyclic_graph_iff _ Hwf). vm_compute. reflexivity.
  - vm_compute. reflexivity.
  - intros m Hm.
    repeat (destruct Hm as [<-|Hm]; [vm_compute; lia|]). destruct Hm.
  - vm_compute. reflexivity.
  - exists (s "B"), (s "C"), (s "A").
    split; [vm_compute; auto|]. split; [vm_compute; auto|].
    split; [discriminate|].
    split; apply (reach_reaches _ _ _ 6); try (vm_compute; auto; fail);
      vm_compute; reflexivity.
Defined.

(** On [three_pred_graph] the bubble A-B-D / A-C-D is detected, and the run
    ends with [NodeNotFound]. *)
Example three_pred_scenario :
  forall trivial_path randint depth,
    simplify_bubbles (S depth) trivial_path randint three_pred_graph =
    Some (Raise NodeNotFound).
Proof. intros trivial_path randint depth. reflexivity. Qed.

(** * Contigs of the whole graph *)

(** The value of [get_contigs] on lists of nodes of the graph. *)
Lemma get_contigs_value (tp : bool) (g : DiGraph)
      (starting_nodes ending_nodes : list node) :
  wf g -> debruijn g ->
  incl starting_nodes (nodes g) -> incl ending_nodes (nodes g) ->
  get_contigs tp g starting_nodes ending_nodes =
  Ok (flat_map (fun i => flat_map (fun j => map contig_record (paths_between tp g i j))
                                  ending_nodes)
               starting_nodes).
Proof.
  intros Hwf Hdb Hs He. unfold get_contigs.
  enough (G : forall acc,
             foldM (fun contigus i =>
                      foldM (fun contigus j =>
                               connected <- has_path g i j ;;
                               if connected : bool then
                                 paths <- all_simple_paths tp g i j ;;
                                 foldM (fun contigus p =>
                                          contig <- contig_of p ;;
                                          Ok (contigus ++ [(contig, length contig)]))
                                       paths contigus
                               else Ok contigus)
                            ending_nodes contigus)
                   starting_nodes acc =
             Ok (acc ++ flat_map
                          (fun i => flat_map
                                      (fun j => map contig_record (paths_between tp g i j))
                                      ending_nodes)
                          starting_nodes)) by apply (G []).
  induction starting_nodes as [|i rest IH]; intros acc; simpl.
  - now rewrite app_nil_r.
  - rewrite (get_contigs_sinks tp g i ending_nodes Hwf Hdb)
      by (auto; apply Hs; now left).
    simpl bind. rewrite IH by (intros x Hx; apply Hs; now right).
    now rewrite <- app_assoc.
Qed.

Lemma get_starting_nodes_dec (g : DiGraph) (u : node) :
  In u (nodes g) ->
  In u (get_starting_nodes g) \/ exists p, has_edge g p u.
Proof.
  intros Hu. destruct (predecessors g u) as [|p ps] eqn:E.
  - left. apply filter_In. split; auto. now rewrite E.
  - right. exists p. apply predecessors_In. rewrite E. now left.
Qed.

Lemma get_sink_nodes_dec (g : DiGraph) (u : node) :
  In u (nodes g) ->
  In u (get_sink_nodes g) \/ exists v, has_edge g u v.
Proof.
  intros Hu. destruct (successors g u) as [|v vs] eqn:E.
  - left. apply filter_In. split; auto. now rewrite E.
  - right. exists v. apply successors_In. rewrite E. now left.
Qed.

Lemma acyclic_chain_length (g : DiGraph) (a : node) (l : list node) :
  wf g -> acyclic g -> In a (nodes g) -> chain g a l ->
  (length l + 1 <= length (nodes g))%nat.
Proof.
  intros Hwf Hac Ha Hc.
  pose proof (acyclic_chain_NoDup g l Hac a Hc) as Hnd.
  assert (incl (a :: l) (nodes g)) as Hincl.
  { intros y [<-|Hy]; auto. eapply chain_nodes; eauto. }
  pose proof (NoDup_incl_length Hnd Hincl) as Hlen. simpl in Hlen. lia.
Qed.

(** Walking edges backwards in an acyclic graph ends at a starting node. *)
Lemma acyclic_from_source (g : DiGraph) :
  wf g -> acyclic g ->
  forall fuel u l,
    In u (nodes g) -> chain g u l ->
    (length (nodes g) <= length l + 1 + fuel)%nat ->
    exists s l0, In s (get_starting_nodes g) /\ chain g s l0 /\ last l0 s = u.
Proof.
  intros Hwf Hac. induction fuel as [|fuel IH]; intros u l Hu Hc Hlen;
    (destruct (get_starting_nodes_dec g u Hu) as [Hs|(p & Hp)];
     [exists u, []; simpl; auto|]);
    destruct (has_edge_nodes g p u Hwf Hp) as [Hpn _];
    assert (Hc' : chain g p (u :: l)) by (simpl; auto).
  - pose proof (acyclic_chain_length g p (u :: l) Hwf Hac Hpn Hc') as H.
    simpl in H. lia.
  - destruct (IH p (u :: l) Hpn Hc') as (s0 & l0 & Hs & Hc0 & Hl0);
      [simpl; lia|].
    exists s0, (l0 ++ [u]). split; auto. split.
    + apply chain_app. rewrite Hl0. simpl. auto.
    + now rewrite last_last.
Qed.

(** Walking edges forwards in an acyclic graph ends at a sink node. *)
Lemma acyclic_to_sink (g : DiGraph) :
  wf g -> acyclic g ->
  forall fuel a l,
    In a (nodes g) -> chain g a l ->
    (length (nodes g) <= length l + 1 + fuel)%nat ->
    exists t l', In t (get_sink_nodes g) /\ chain g (last l a) l' /\
                 last l' (last l a) = t.
Proof.
  intros Hwf Hac. induction fuel as [|fuel IH]; intros a l Ha Hc Hlen;
    assert (Hu : In (last l a) (nodes g))
      by (destruct l as [|x l]; [exact Ha|];
          apply (chain_nodes g a (x :: l) Hwf Hc); apply last_In; discriminate);
    (destruct (get_sink_nodes_dec g (last l a) Hu) as [Hs|(v & Hv)];
     [exists (last l a), []; simpl; auto|]);
    assert (Hc' : chain g a (l ++ [v])) by (apply chain_app; simpl; auto).
  - pose proof (acyclic_chain_length g a (l ++ [v]) Hwf Hac Ha Hc') as H.
    rewrite length_app in H. simpl in H. lia.
  - destruct (IH a (l ++ [v]) Ha Hc') as (t & l' & Ht & Hc0 & Hl0);
      [rewrite length_app; simpl; lia|].
    rewrite last_last in Hc0, Hl0.
    exists t, (v :: l'). split; auto. split; [simpl; auto|].
    now rewrite last_cons_last.
Qed.

(** The sequence of a path through an edge [u -> v] reads [u] followed by
    the last character of [v] at the position of [u]. *)
Lemma contig_label_app (g : DiGraph) (l2 : list node) :
  debruijn g ->
  forall l1 n0, chain g n0 l1 ->
    exists a, contig_label (n0 :: l1 ++ l2) = a ++ last l1 n0 ++ map lastc l2.
Proof.
  intros Hdb. induction l1 as [|n1 l1 IH]; intros n0 Hc.
  - exists []. reflexivity.
  - destruct Hc as [He Hc].
    destruct (debruijn_shift g n0 n1 Hdb He) as (Hne & Hv & _).
    destruct (IH n1 Hc) as (a & Ha).
    destruct n0 as [|c t]; [congruence|]. simpl in Hv.
    exists (c :: a). rewrite last_cons_last.
    change (contig_label ((c :: t) :: (n1 :: l1) ++ l2))
      with (c :: t ++ lastc n1 :: map lastc (l1 ++ l2)).
    change (contig_label (n1 :: l1 ++ l2)) with (n1 ++ map lastc (l1 ++ l2)) in Ha.
    simpl. f_equal. rewrite <- Ha. rewrite Hv at 2.
    now rewrite <- app_assoc.
Qed.

Lemma last_app_cons (l0 l' : list node) (x d : node) :
  last (l0 ++ x :: l') d = last l' x.
Proof.
  revert d. induction l0 as [|a l0 IH]; intros d.
  - apply last_cons_last.
  - change ((a :: l0) ++ x :: l') with (a :: (l0 ++ x :: l')).
    rewrite last_cons_last. apply IH.
Qed.

(** X14.  On a well-formed acyclic de Bruijn graph, the contigs that
    [get_contigs] extracts between the starting nodes and the sink nodes
    cover the graph: every edge [u -> v] lies on a simple path from a
    starting node to a different sink node, and the record of that path is
    in the result, its sequence containing [u] followed by the last
    character of [v]. *)
Theorem get_contigs_cover (trivial_path : bool) (g : DiGraph) :
  wf g -> debruijn g -> acyclic g ->
  exists contigs,
    get_contigs trivial_path g (get_starting_nodes g) (get_sink_nodes g) =
      Ok contigs /\
    forall u v, has_edge g u v ->
      exists i j p a b,
        In i (get_starting_nodes g) /\ In j (get_sink_nodes g) /\ i <> j /\
        simple_path g i j p /\
        In (contig_record p) contigs /\
        contig_label p = a ++ u ++ [lastc v] ++ b.
Proof.
  intros Hwf Hdb Hac. eexists. split.
  - apply get_contigs_value; auto; intros x Hx; apply filter_In in Hx; tauto.
  - intros u v He. destruct (has_edge_nodes g u v Hwf He) as [Hu Hv].
    destruct (acyclic_from_source g Hwf Hac (length (nodes g)) u [] Hu I)
      as (i & l0 & Hi & Hc0 & Hl0); [lia|].
    destruct (acyclic_to_sink g Hwf Hac (length (nodes g)) v [] Hv I)
      as (j & l' & Hj & Hc1 & Hl1); [lia|]. simpl in Hc1, Hl1.
    assert (Hin : In i (nodes g)) by (apply filter_In in Hi; tauto).
    assert (Hjn : In j (nodes g)) by (apply filter_In in Hj; tauto).
    assert (Hc : chain g i (l0 ++ v :: l')).
    { apply chain_app. rewrite Hl0. simpl. auto. }
    pose proof (acyclic_chain_NoDup g _ Hac i Hc) as Hnd.
    assert (Hl : last (l0 ++ v :: l') i = j).
    { now rewrite last_app_cons. }
    assert (Hne : i <> j).
    { intros E. apply NoDup_cons_iff in Hnd as [Hnot _]. apply Hnot.
      rewrite E, <- Hl at 1. apply last_In. now destruct l0. }
    assert (Hsp : simple_path g i j (i :: l0 ++ v :: l')).
    { split; auto. split; auto. exists (l0 ++ v :: l').
      split; auto. split; auto. now rewrite last_cons_last. }
    destruct (contig_label_app g (v :: l') Hdb l0 i Hc0) as (a & Ha).
    exists i, j, (i :: l0 ++ v :: l'), a, (map lastc l').
    repeat (split; auto).
    + apply in_flat_map. exists i. split; auto.
      apply in_flat_map. exists j. split; auto.
      apply in_map. apply (paths_between_spec trivial_path g i j Hwf Hin Hjn). auto.
    + rewrite Ha, Hl0. reflexivity.
Qed.

Lemma get_contigs_cover_witness :
  exists contigs,
    get_contigs false tcaga_graph (get_starting_nodes tcaga_graph)
                (get_sink_nodes tcaga_graph) = Ok contigs /\
    forall u v, has_edge tcaga_graph u v ->
      exists i j p a b,
        In i (get_starting_nodes tcaga_graph) /\
        In j (get_sink_nodes tcaga_graph) /\ i <> j /\
        simple_path tcaga_graph i j p /\
        In (contig_record p) contigs /\
        contig_label p = a ++ u ++ [lastc v] ++ b.
Proof.
  assert (Hwf : wf tcaga_graph) by (apply wfb_sound; vm_compute; reflexivity).
  apply (get_contigs_cover false tcaga_graph Hwf).
  - apply (build_graph_debruijn 3); [lia|vm_compute|].
    + repeat constructor; simpl; intuition discriminate.
    + intros km Hkm. vm_compute in Hkm.
      repeat (destruct Hkm as [<-|Hkm]; [reflexivity|]). destruct Hkm.
  - apply (is_directed_acyclic_graph_iff _ Hwf). vm_compute. reflexivity.
Defined.

(** ** Lists that name nodes outside the graph *)

Lemma get_contigs_inner_raises (tp : bool) (g : DiGraph) (i : node) :
  wf g -> debruijn g ->
  forall ending_nodes acc,
    ending_nodes <> [] ->
    (~ In i (nodes g) \/ exists j, In j ending_nodes /\ ~ In j (nodes g)) ->
    foldM (fun contigus j =>
             connected <- has_path g i j ;;
             if connected : bool then
               paths <- all_simple_paths tp g i j ;;
               foldM (fun contigus p =>
                        contig <- contig_of p ;;
                        Ok (contigus ++ [(contig, length contig)]))
                     paths contigus
             else Ok contigus)
          ending_nodes acc = Raise NodeNotFound.
Proof.
  intros Hwf Hdb. induction ending_nodes as [|j rest IH]; intros acc Hne Hbad;
    [congruence|].
  simpl. destruct (mem i (nodes g)) eqn:Ei.
  - apply mem_In in Ei. destruct (mem j (nodes g)) eqn:Ej.
    + apply mem_In in Ej.
      rewrite (get_contigs_pair tp g i j Hwf Hdb Ei Ej). simpl.
      destruct Hbad as [Hbad|(j' & [<-|Hj'] & Hbad)]; try contradiction.
      apply IH; [|right; eauto]. intros ->. destruct Hj'.
    + unfold has_path. rewrite Ej, orb_true_r. reflexivity.
  - unfold has_path. rewrite Ei. reflexivity.
Qed.

Lemma get_contigs_outer_raises (tp : bool) (g : DiGraph)
      (ending_nodes : list node) :
  wf g -> debruijn g -> ending_nodes <> [] ->
  forall starting_nodes acc,
    starting_nodes <> [] ->
    (exists n, In n (starting_nodes ++ ending_nodes) /\ ~ In n (nodes g)) ->
    foldM (fun contigus i =>
             foldM (fun contigus j =>
                      connected <- has_path g i j ;;
                      if connected : bool then
                        paths <- all_simple_paths tp g i j ;;
                        foldM (fun contigus p =>
                                 contig <- contig_of p ;;
                                 Ok (contigus ++ [(contig, length contig)]))
                              paths contigus
                      else Ok contigus)
                   ending_nodes contigus)
          starting_nodes acc = Raise NodeNotFound.
Proof.
  intros Hwf Hdb He.
  induction starting_nodes as [|i rest IH]; intros acc Hs (n & Hn & Hbad);
    [congruence|].
  simpl.
  destruct (mem i (nodes g)) eqn:Ei;
    [destruct (forallb (fun j => mem j (nodes g)) ending_nodes) eqn:Ee|].
  - apply mem_In in Ei.
    assert (incl ending_nodes (nodes g)) as Hincl.
    { intros j Hj. apply mem_In.
      rewrite forallb_forall in Ee. now apply Ee. }
    rewrite (get_contigs_sinks tp g i ending_nodes Hwf Hdb Ei Hincl).
    simpl.
    assert (In n rest) as Hrest.
    { apply in_app_or in Hn as [[<-|Hn]|Hn]; auto; try contradiction.
      elim Hbad. now apply Hincl. }
    apply IH.
    + intros ->. destruct Hrest.
    + exists n. split; auto. apply in_or_app. now left.
  - rewrite (get_contigs_inner_raises tp g i Hwf Hdb); auto.
    right.
    destruct (existsb (fun j => negb (mem j (nodes g))) ending_nodes) eqn:Ex.
    + apply existsb_exists in Ex as (j & Hj & Hm). exists j. split; auto.
      apply mem_not_In. now destruct (mem j (nodes g)).
    + assert (forallb (fun j => mem j (nodes g)) ending_nodes = true) as H;
        [|congruence].
      apply forallb_forall. intros j Hj.
      destruct (mem j (nodes g)) eqn:Em; auto.
      assert (existsb (fun j => negb (mem j (nodes g))) ending_nodes = true)
        as Hex by (apply existsb_exists; exists j; rewrite Em; auto).
      congruence.
  - rewrite (get_contigs_inner_raises tp g i Hwf Hdb); auto.
    left. now apply mem_not_In.
Qed.

(** X15.  What [get_contigs] does with its two lists on a well-formed de
    Bruijn graph: with an empty list of starting nodes or of ending nodes
    the result is the empty list, whatever the other list holds; with both
    lists non-empty and a node of either list missing from the graph, the
    call raises [NodeNotFound], also when other pairs are connected. *)
Theorem get_contigs_missing_node (trivial_path : bool) (g : DiGraph)
        (starting_nodes ending_nodes : list node) :
  wf g -> debruijn g ->
  (starting_nodes = [] \/ ending_nodes = [] ->
   get_contigs trivial_path g starting_nodes ending_nodes = Ok []) /\
  (starting_nodes <> [] -> ending_nodes <> [] ->
   (exists n, In n (starting_nodes ++ ending_nodes) /\ ~ In n (nodes g)) ->
   get_contigs trivial_path g starting_nodes ending_nodes = Raise NodeNotFound).
Proof.
  intros Hwf Hdb. split.
  - unfold get_contigs. intros [->| ->]; [reflexivity|].
    induction starting_nodes as [|i rest IH]; simpl; auto.
  - intros Hs He Hbad.
    apply (get_contigs_outer_raises trivial_path g ending_nodes Hwf Hdb He
             starting_nodes [] Hs Hbad).
Qed.

Lemma get_contigs_missing_node_witness :
  get_contigs false tcaga_graph [] [s "GG"] = Ok [] /\
  get_contigs false tcaga_graph [s "TC"; s "GG"] [s "GA"] = Raise NodeNotFound.
Proof.
  assert (Hwf : wf tcaga_graph) by (apply wfb_sound; vm_compute; reflexivity).
  assert (Hdb : debruijn tcaga_graph).
  { apply (build_graph_debruijn 3); [lia|vm_compute|].
    - repeat constructor; simpl; intuition discriminate.
    - intros km Hkm. vm_compute in Hkm.
      repeat (destruct Hkm as [<-|Hkm]; [reflexivity|]). destruct Hkm. }
  split.
  - apply (get_contigs_missing_node false tcaga_graph [] [s "GG"] Hwf Hdb).
    now left.
  - apply (get_contigs_missing_node false tcaga_graph [s "TC"; s "GG"] [s "GA"]
             Hwf Hdb); try discriminate.
    exists (s "GG"). split; [simpl; auto|].
    vm_compute. intuition discriminate.
Defined.

(** * A read without repeated (k-1)-mer *)

Lemma cut_kmer_nth (read : str) (m i : nat) :
  nth_error (cut_kmer read m) i =
  if (i + m <=? length read)%nat then Some (firstn m (skipn i read)) else None.
Proof.
  unfold cut_kmer. rewrite nth_error_map, nth_error_seq.
  destruct (i + m <=? length read)%nat eqn:E.
  - apply Nat.leb_le in E.
    assert ((i <? length read + 1 - m)%nat = true) as ->
        by (apply Nat.ltb_lt; lia).
    reflexivity.
  - apply Nat.leb_gt in E.
    assert ((i <? length read + 1 - m)%nat = false) as ->
        by (apply Nat.ltb_ge; lia).
    reflexivity.
Qed.

Lemma follows_nth (ns : list node) (u v : node) :
  follows ns u v <->
  exists i, nth_error ns i = Some u /\ nth_error ns (S i) = Some v.
Proof.
  split.
  - intros (l1 & l2 & ->). exists (length l1). split.
    + rewrite nth_error_app2, Nat.sub_diag by lia. reflexivity.
    + rewrite nth_error_app2 by lia.
      replace (S (length l1) - length l1)%nat with 1%nat by lia. reflexivity.
  - intros (i & Hu & Hv).
    apply nth_error_split in Hu as (l1 & l2 & -> & <-).
    rewrite nth_error_app2 in Hv by lia.
    replace (S (length l1) - length l1)%nat with 1%nat in Hv by lia.
    destruct l2 as [|y l2]; [discriminate|]. injection Hv as ->.
    now exists l1, l2.
Qed.

(** A node occurs at one place only in a list without duplicates. *)
Lemma NoDup_split_unique (ns l1 l1' r r' : list node) (u : node) :
  NoDup ns -> ns = l1 ++ u :: r -> ns = l1' ++ u :: r' -> l1 = l1' /\ r = r'.
Proof.
  intros Hnd. revert ns Hnd l1'.
  induction l1 as [|a l1 IH]; intros ns Hnd l1' -> H2.
  - destruct l1' as [|b l1']; simpl in H2.
    + injection H2 as <-. auto.
    + injection H2 as <- H2. apply NoDup_cons_iff in Hnd as [Hn _].
      elim Hn. rewrite H2. apply in_or_app. right. now left.
  - destruct l1' as [|b l1']; simpl in H2.
    + injection H2 as -> H2. apply NoDup_cons_iff in Hnd as [Hn _].
      elim Hn. apply in_or_app. right. now left.
    + injection H2 as <- H2. apply NoDup_cons_iff in Hnd as [_ Hnd].
      destruct (IH (l1 ++ u :: r) Hnd l1' eq_refl H2) as [-> ->]. auto.
Qed.

Lemma NoDup_single {A : Type} (L : list A) (x : A) :
  NoDup L -> In x L -> (forall y, In y L -> y = x) -> L = [x].
Proof.
  intros Hnd Hx Hall. destruct L as [|a L]; [destruct Hx|].
  assert (a = x) as -> by (apply Hall; now left).
  destruct L as [|b L]; auto.
  assert (b = x) as -> by (apply Hall; right; now left).
  apply NoDup_cons_iff in Hnd as [Hn _]. elim Hn. now left.
Qed.

Lemma path_graph_chain (g : DiGraph) (ns : list node) :
  path_graph g ns ->
  forall l pre u, ns = pre ++ u :: l -> chain g u l.
Proof.
  intros (_ & _ & He). induction l as [|v l IH]; intros pre u Hns; simpl; auto.
  split.
  - apply He. now exists pre, l.
  - apply (IH (pre ++ [u])). now rewrite <- app_assoc.
Qed.

Lemma path_graph_chain_prefix (g : DiGraph) (ns : list node) :
  path_graph g ns ->
  forall l pre u post,
    ns = pre ++ u :: post -> chain g u l -> exists post', post = l ++ post'.
Proof.
  intros (Hnd & _ & He). induction l as [|v l IH]; intros pre u post Hns Hc.
  - now exists post.
  - destruct Hc as [Huv Hc]. apply He in Huv as (l1 & l2 & Hns').
    destruct (NoDup_split_unique ns pre l1 post (v :: l2) u Hnd Hns Hns')
      as [-> ->].
    destruct (IH (l1 ++ [u]) v l2) as (post' & ->); auto.
    + now rewrite <- app_assoc.
    + now exists post'.
Qed.

(** The only simple path from the first to the last node of a path graph is
    the whole list. *)
Lemma path_graph_simple_path (g : DiGraph) (n0 : node) (rest : list node)
      (p : path) :
  path_graph g (n0 :: rest) ->
  simple_path g n0 (last rest n0) p <-> p = n0 :: rest.
Proof.
  intros Hpg. pose proof Hpg as (Hnd & Hn & He). split.
  - intros [(_ & l & -> & Hc & Hl) Hp]. f_equal.
    rewrite last_cons_last in Hl.
    destruct (path_graph_chain_prefix g _ Hpg l [] n0 rest eq_refl Hc)
      as ([|x post'] & Hrest).
    + now rewrite app_nil_r in Hrest.
    + exfalso. rewrite Hrest in Hnd, Hl. rewrite last_app_cons in Hl.
      assert (In (last l n0) (n0 :: l)) as Hin1.
      { rewrite <- last_cons_last with (d := n0). apply last_In. discriminate. }
      assert (In (last l n0) (x :: post')) as Hin2.
      { rewrite Hl, <- last_cons_last with (d := x). apply last_In. discriminate. }
      apply in_split in Hin2 as (a & b & Hab). rewrite Hab in Hnd.
      change (n0 :: l ++ a ++ last l n0 :: b)
        with ((n0 :: l) ++ a ++ last l n0 :: b) in Hnd.
      rewrite app_assoc in Hnd. apply NoDup_remove_2 in Hnd. apply Hnd.
      apply in_or_app. left. apply in_or_app. now left.
  - intros ->. split; auto. split; [apply Hn; now left|].
    exists rest. split; auto. split.
    + apply (path_graph_chain g _ Hpg rest [] n0 eq_refl).
    + apply last_cons_last.
Qed.

Lemma path_graph_predecessor (g : DiGraph) (ns : list node) (p p' n : node) :
  path_graph g ns -> has_edge g p n -> has_edge g p' n -> p = p'.
Proof.
  intros (Hnd & _ & He) H1 H2.
  apply He in H1 as (l1 & l2 & H1). apply He in H2 as (l1' & l2' & H2).
  destruct (NoDup_split_unique ns (l1 ++ [p]) (l1' ++ [p']) l2 l2' n Hnd) as [E _].
  - now rewrite <- app_assoc.
  - now rewrite <- app_assoc.
  - now apply app_inj_tail in E.
Qed.

Lemma path_graph_successor (g : DiGraph) (ns : list node) (v v' n : node) :
  path_graph g ns -> has_edge g n v -> has_edge g n v' -> v = v'.
Proof.
  intros (Hnd & _ & He) H1 H2.
  apply He in H1 as (l1 & l2 & H1). apply He in H2 as (l1' & l2' & H2).
  destruct (NoDup_split_unique ns l1 l1' (v :: l2) (v' :: l2') n Hnd H1 H2)
    as [_ E].
  now injection E.
Qed.

Lemma path_graph_single_predecessors (g : DiGraph) (ns : list node) (n : node) :
  wf g -> path_graph g ns -> (length (predecessors g n) <= 1)%nat.
Proof.
  intros Hwf Hpg. pose proof (predecessors_NoDup g n Hwf) as Hnd.
  destruct (predecessors g n) as [|p [|p' l]] eqn:E; simpl; try lia.
  assert (p = p') as <-.
  { apply (path_graph_predecessor g ns p p' n Hpg);
      apply predecessors_In; rewrite E; simpl; auto. }
  apply NoDup_cons_iff in Hnd as [Hn _]. elim Hn. now left.
Qed.

Lemma path_graph_starting_nodes (g : DiGraph) (n0 : node) (rest : list node) :
  wf g -> path_graph g (n0 :: rest) -> get_starting_nodes g = [n0].
Proof.
  intros Hwf Hpg. pose proof Hpg as (Hnd & Hn & He).
  apply NoDup_single.
  - apply NoDup_filter, Hwf.
  - destruct (get_starting_nodes_dec g n0) as [H|(p & Hp)]; auto.
    + apply Hn. now left.
    + apply He in Hp as (l1 & l2 & Hp).
      destruct (NoDup_split_unique (n0 :: rest) [] (l1 ++ [p]) rest l2 n0 Hnd eq_refl)
        as [E _]; [now rewrite <- app_assoc|].
      destruct l1; discriminate.
  - intros y Hy. apply get_starting_nodes_In in Hy as [Hy Hdeg].
    apply Hn in Hy as [<-|Hy]; auto.
    apply in_split in Hy as (l1 & l2 & ->). exfalso.
    assert (has_edge g (last l1 n0) y) as (w & Hw).
    { apply He. destruct (exists_last (l := n0 :: l1)) as (pre & z & Hz);
        [discriminate|].
      assert (last l1 n0 = z) as ->.
      { rewrite <- last_cons_last with (d := n0), Hz. apply last_last. }
      exists pre, l2.
      change (n0 :: l1 ++ y :: l2) with ((n0 :: l1) ++ y :: l2).
      rewrite Hz, <- app_assoc. reflexivity. }
    rewrite in_degree_0 in Hdeg. now apply (Hdeg _ Hw).
Qed.

Lemma path_graph_sink_nodes (g : DiGraph) (n0 : node) (rest : list node) :
  wf g -> path_graph g (n0 :: rest) -> get_sink_nodes g = [last rest n0].
Proof.
  intros Hwf Hpg. pose proof Hpg as (Hnd & Hn & He).
  assert (Hlast : In (last rest n0) (n0 :: rest)).
  { rewrite <- last_cons_last with (d := n0). apply last_In. discriminate. }
  apply NoDup_single.
  - apply NoDup_filter, Hwf.
  - destruct (get_sink_nodes_dec g (last rest n0)) as [H|(v & Hv)]; auto.
    + now apply Hn.
    + apply He in Hv as (l1 & l2 & Hv). exfalso.
      remember (last rest n0) as z eqn:Hz.
      assert (z = last l2 v) as E.
      { rewrite Hz, <- (last_cons_last n0 n0 rest), Hv, last_app_cons.
        apply last_cons_last. }
      rewrite Hv in Hnd. apply NoDup_remove_2 in Hnd. apply Hnd.
      apply in_or_app. right. rewrite E, <- last_cons_last with (d := v).
      apply last_In. discriminate.
  - intros y Hy. apply get_sink_nodes_In in Hy as [Hy Hdeg].
    apply Hn in Hy. apply in_split in Hy as (l1 & [|v l2] & Hy).
    + rewrite <- last_cons_last with (d := n0), Hy. now rewrite last_last.
    + exfalso. assert (has_edge g y v) as (w & Hw).
      { apply He. now exists l1, l2. }
      rewrite out_degree_0 in Hdeg. now apply (Hdeg _ Hw).
Qed.

Lemma kmer_prefix (r : str) (k i : nat) :
  (1 <= k)%nat -> (i + k <= length r)%nat ->
  removelast (firstn k (skipn i r)) = firstn (k - 1) (skipn i r).
Proof.
  intros Hk Hi.
  rewrite removelast_firstn_len, length_firstn, length_skipn, firstn_firstn.
  f_equal. lia.
Qed.

Lemma kmer_suffix (r : str) (k i : nat) :
  tl (firstn k (skipn i r)) = firstn (k - 1) (skipn (S i) r).
Proof.
  change (tl (firstn k (skipn i r))) with (skipn 1 (firstn k (skipn i r))).
  now rewrite skipn_firstn_comm, skipn_skipn.
Qed.

(** The graph of a single read whose (k-1)-mers are pairwise distinct is the
    path graph on these (k-1)-mers, in the order of the read. *)
Lemma build_graph_path_graph (read : str) (k : nat) (d : dict) :
  (2 <= k)%nat -> (k <= length read)%nat ->
  NoDup (cut_kmer read (k - 1)) ->
  build_kmer_dict_loop [read] k = Ok d ->
  path_graph (build_graph d) (cut_kmer read (k - 1)).
Proof.
  intros Hk Hlen Hnd Hrun.
  pose proof (build_kmer_dict_NoDup [read] k d Hrun) as Hkd.
  pose proof (build_kmer_dict_key_length [read] k d Hrun) as Hkl.
  pose proof (build_kmer_dict_keys [read] k d Hrun) as Hkeys.
  pose proof (build_graph_keys_NoDup k d Hk Hkd Hkl) as Hpairs.
  destruct (build_graph_loop d empty_graph Hpairs) as (He & _ & Hi).
  fold (build_graph d) in He, Hi. simpl in He, Hi.
  assert (Hkey : forall km, In km (keys d) <->
                            exists i, (i + k <= length read)%nat /\
                                      km = firstn k (skipn i read)).
  { intros km. rewrite Hkeys, <- cut_kmer_In. split.
    - intros (r & [<-|[]] & H). exact H.
    - intros H. exists read. split; auto. now left. }
  split; [exact Hnd|]. split.
  - intros n. rewrite Hi, cut_kmer_In. split.
    + intros [[]|([km c] & Hin & Hn)]. simpl in Hn.
      assert (In km (keys d)) as Hkm
          by (unfold keys; apply in_map_iff; exists (km, c); auto).
      apply Hkey in Hkm as (i & Hi' & ->). destruct Hn as [->| ->].
      * exists i. split; [lia|]. apply kmer_prefix; lia.
      * exists (S i). split; [lia|]. apply kmer_suffix.
    + intros (j & Hj & ->). right.
      destruct (le_lt_dec (j + k) (length read)) as [Hfit|Hlast].
      * assert (In (firstn k (skipn j read)) (keys d)) as Hkm
            by (apply Hkey; eauto).
        unfold keys in Hkm. apply in_map_iff in Hkm as ([km c] & Heq & Hin).
        simpl in Heq. subst km.
        exists (firstn k (skipn j read), c). split; auto. left. simpl.
        symmetry. apply kmer_prefix; lia.
      * destruct j as [|j]; [lia|].
        assert (In (firstn k (skipn j read)) (keys d)) as Hkm.
        { apply Hkey. exists j. split; auto. lia. }
        unfold keys in Hkm. apply in_map_iff in Hkm as ([km c] & Heq & Hin).
        simpl in Heq. subst km.
        exists (firstn k (skipn j read), c). split; auto. right. simpl.
        symmetry. apply kmer_suffix.
  - intros u v. rewrite follows_nth. unfold has_edge. rewrite He. split.
    + intros (w & Hin). apply in_map_iff in Hin as ([km c] & Heq & Hin).
      simpl in Heq. injection Heq as <- <- <-.
      assert (In km (keys d)) as Hkm
          by (unfold keys; apply in_map_iff; exists (km, c); auto).
      apply Hkey in Hkm as (i & Hi' & ->). exists i.
      rewrite !cut_kmer_nth.
      assert ((i + (k - 1) <=? length read)%nat = true) as ->
          by (apply Nat.leb_le; lia).
      assert ((S i + (k - 1) <=? length read)%nat = true) as ->
          by (apply Nat.leb_le; lia).
      rewrite kmer_prefix by lia. now rewrite kmer_suffix.
    + intros (i & Hu & Hv). rewrite cut_kmer_nth in Hu, Hv.
      destruct (S i + (k - 1) <=? length read)%nat eqn:E; [|discriminate].
      apply Nat.leb_le in E.
      assert ((i + (k - 1) <=? length read)%nat = true) as E'
          by (apply Nat.leb_le; lia).
      rewrite E' in Hu. injection Hu as <-. injection Hv as <-.
      assert (In (firstn k (skipn i read)) (keys d)) as Hkm.
      { apply Hkey. exists i. split; auto. lia. }
      unfold keys in Hkm. apply in_map_iff in Hkm as ([km c] & Heq & Hin).
      simpl in Heq. subst km. exists c. apply in_map_iff.
      exists (firstn k (skipn i read), c). split; auto. simpl.
      rewrite kmer_prefix by lia. now rewrite kmer_suffix.
Qed.

(** X16.  A file with one record, whose read has length at least [k >= 2]
    and pairwise distinct (k-1)-mers, is assembled back: the graph that
    [build_graph] makes of the table of [build_kmer_dict] is left as it is by
    [simplify_bubbles], its
    only starting node is the first (k-1)-mer of the read, its only sink
    node is the last one, and [get_contigs] between them returns the read
    itself with its length, as the only contig. *)
Theorem single_read_assembly (fastq_file : list str) (read : str)
        (k depth : nat) (trivial_path : bool) (randint : nat -> nat -> nat) :
  read_fastq fastq_file = ([read], Exhausted) ->
  (2 <= k)%nat -> (k <= length read)%nat ->
  NoDup (cut_kmer read (k - 1)) ->
  exists d,
    build_kmer_dict fastq_file k = Ok d /\
    simplify_bubbles (S depth) trivial_path randint (build_graph d) =
      Some (Ok (build_graph d)) /\
    get_starting_nodes (build_graph d) = [firstn (k - 1) read] /\
    get_sink_nodes (build_graph d) = [skipn (length read - (k - 1)) read] /\
    get_contigs trivial_path (build_graph d)
                (get_starting_nodes (build_graph d))
                (get_sink_nodes (build_graph d)) = Ok [(read, length read)].
Proof.
  intros Hrf Hk Hlen Hnd.
  destruct (build_kmer_dict_last_read [read] k) as (d & Hrun & _).
  exists d.
  split; [now rewrite (build_kmer_dict_complete fastq_file [read] k Hrf)|].
  pose proof (build_kmer_dict_NoDup [read] k d Hrun) as Hkd.
  pose proof (build_kmer_dict_key_length [read] k d Hrun) as Hkl.
  pose proof (build_graph_wf k d Hk Hkd Hkl) as Hwf.
  pose proof (build_graph_debruijn k d Hk Hkd Hkl) as Hdb.
  pose proof (build_graph_path_graph read k d Hk Hlen Hnd Hrun) as Hpg.
  set (g := build_graph d) in *.
  pose proof (contig_label_cut_kmer read (k - 1)) as Hlabel.
  pose proof (cut_kmer_nth read (k - 1) 0) as H0.
  pose proof (cut_kmer_nth read (k - 1) (length read - (k - 1))) as Hlst.
  assert (Hcount : length (cut_kmer read (k - 1)) = (length read + 1 - (k - 1))%nat)
    by (unfold cut_kmer; now rewrite length_map, length_seq).
  destruct (cut_kmer read (k - 1)) as [|n0 rest] eqn:Ens; [simpl in Hcount; lia|].
  assert ((0 + (k - 1) <=? length read)%nat = true) as E0
      by (apply Nat.leb_le; lia).
  rewrite E0 in H0. simpl in H0. injection H0 as Hn0.
  assert ((length read - (k - 1) + (k - 1) <=? length read)%nat = true) as E1
      by (apply Nat.leb_le; lia).
  rewrite E1 in Hlst.
  assert (Hlast : last rest n0 = skipn (length read - (k - 1)) read).
  { assert (nth_error (n0 :: rest) (length (n0 :: rest) - 1) =
            Some (last (n0 :: rest) n0)) as Hn
        by (apply nth_error_last; discriminate).
    rewrite Hcount in Hn.
    replace (length read + 1 - (k - 1) - 1)%nat with (length read - (k - 1))%nat
      in Hn by lia.
    rewrite Hlst, last_cons_last in Hn. injection Hn as <-.
    apply firstn_all2. rewrite length_skipn. lia. }
  assert (Hne : n0 <> last rest n0).
  { destruct rest as [|n1 rest]; [simpl in Hcount; lia|].
    intros E. apply NoDup_cons_iff in Hnd as [Hn _]. apply Hn.
    rewrite E at 1. apply last_In. discriminate. }
  rewrite (path_graph_starting_nodes g n0 rest Hwf Hpg).
  rewrite (path_graph_sink_nodes g n0 rest Hwf Hpg).
  split; [|split; [now rewrite <- Hn0|split; [now rewrite <- Hlast|]]].
  - apply (simplify_bubbles_quiet g _
             (scan_nodes_single_predecessors g
                (fun n _ => path_graph_single_predecessors g _ n Hwf Hpg)
                (nodes g) (incl_refl _))).
    now left.
  - assert (Hin0 : In n0 (nodes g)) by (apply Hpg; now left).
    assert (Hinl : In (last rest n0) (nodes g)).
    { apply Hpg. rewrite <- last_cons_last with (d := n0).
      apply last_In. discriminate. }
    rewrite get_contigs_value; auto;
      try (intros x [<-|[]]; assumption).
    simpl. rewrite !app_nil_r.
    destruct (paths_between_spec trivial_path g n0 (last rest n0) Hwf Hin0 Hinl)
      as [HndL HL].
    rewrite (NoDup_single (paths_between trivial_path g n0 (last rest n0))
                          (n0 :: rest) HndL).
    + simpl. unfold contig_record. rewrite Hlabel by lia.
      do 3 f_equal. rewrite Hcount. simpl hd. rewrite Hn0, length_firstn. lia.
    + apply HL. split; auto. now apply path_graph_simple_path.
    + intros p Hp. apply HL in Hp as [Hp _].
      now apply (path_graph_simple_path g n0 rest p Hpg).
Qed.

Lemma single_read_assembly_witness :
  exists d,
    build_kmer_dict [s "@read"; s "TCAGA"; s "+"; s "IIIII"] 3 = Ok d /\
    simplify_bubbles 1 false randint0 (build_graph d) = Some (Ok (build_graph d)) /\
    get_starting_nodes (build_graph d) = [firstn (3 - 1) (s "TCAGA")] /\
    get_sink_nodes (build_graph d) =
      [skipn (length (s "TCAGA") - (3 - 1)) (s "TCAGA")] /\
    get_contigs false (build_graph d)
                (get_starting_nodes (build_graph d))
                (get_sink_nodes (build_graph d)) =
      Ok [(s "TCAGA", length (s "TCAGA"))].
Proof.
  apply (single_read_assembly [s "@read"; s "TCAGA"; s "+"; s "IIIII"]
                              (s "TCAGA") 3 0 false randint0).
  - reflexivity.
  - lia.
  - vm_compute. lia.
  - vm_compute. repeat constructor; simpl; intuition discriminate.
Defined.

(** * Reading the reads *)

Lemma lstrip_spec (x : str) :
  exists sp, x = sp ++ lstrip x /\ forallb is_space sp = true /\
             forall c y, lstrip x = c :: y -> is_space c = false.
Proof.
  induction x as [|c x (sp & Hx & Hsp & Hhd)]; simpl.
  - exists []. repeat split; auto. discriminate.
  - destruct (is_space c) eqn:E.
    + exists (c :: sp). simpl. rewrite E, Hsp. repeat split; auto.
      now rewrite <- Hx.
    + exists []. repeat split; auto. intros c' y H. now injection H as <- _.
Qed.

(** [strip] removes a run of whitespace at each end, and leaves a text that
    neither starts nor ends with whitespace. *)
Lemma strip_spec (x : str) :
  exists sp1 sp2,
    x = sp1 ++ strip x ++ sp2 /\
    forallb is_space sp1 = true /\ forallb is_space sp2 = true /\
    (forall c y, strip x = c :: y -> is_space c = false) /\
    (forall y c, strip x = y ++ [c] -> is_space c = false).
Proof.
  destruct (lstrip_spec x) as (sp1 & Hx & Hsp1 & Hhd1).
  destruct (lstrip_spec (rev (lstrip x))) as (sp & Hr & Hsp & Hhd2).
  unfold strip. set (x1 := lstrip x) in *. set (x2 := lstrip (rev x1)) in *.
  assert (Hx1 : x1 = rev x2 ++ rev sp).
  { rewrite <- rev_app_distr, <- Hr. now rewrite rev_involutive. }
  exists sp1, (rev sp). split; [now rewrite <- Hx1|]. split; auto. split.
  - apply forallb_forall. intros c Hc. apply in_rev in Hc.
    rewrite forallb_forall in Hsp. now apply Hsp.
  - split.
    + intros c y E. rewrite E in Hx1. simpl in Hx1. now apply (Hhd1 c _ Hx1).
    + intros y c E. apply (Hhd2 c (rev y)).
      rewrite <- (rev_involutive x2), E, rev_app_distr. reflexivity.
Qed.

(** X17.  [read_fastq] on a file of [n] lines.  The generator runs to its
    end exactly when [n] is a multiple of four; otherwise a [next(file)]
    call in its body finds no line.  Before that it yields
    [(n + 2) / 4] reads, so also one for a last record of only two or three
    lines.  The read number [i] is the line [4 i + 1] of the file without
    the whitespace at its two ends: it neither starts nor ends with a
    whitespace character. *)
Theorem read_fastq_records (lines : list str) :
  (snd (read_fastq lines) = Exhausted <-> (length lines mod 4 = 0)%nat) /\
  length (fst (read_fastq lines)) = ((length lines + 2) / 4)%nat /\
  (forall i, (i < length (fst (read_fastq lines)))%nat ->
     exists line sp1 sp2 read,
       nth_error lines (4 * i + 1) = Some line /\
       nth_error (fst (read_fastq lines)) i = Some read /\
       line = sp1 ++ read ++ sp2 /\
       forallb is_space sp1 = true /\ forallb is_space sp2 = true /\
       (forall c y, read = c :: y -> is_space c = false) /\
       (forall y c, read = y ++ [c] -> is_space c = false)).
Proof.
  assert (Hstrip : forall line,
             exists line' sp1 sp2 read,
               Some line = Some line' /\ Some (strip line) = Some read /\
               line' = sp1 ++ read ++ sp2 /\
               forallb is_space sp1 = true /\ forallb is_space sp2 = true /\
               (forall c y, read = c :: y -> is_space c = false) /\
               (forall y c, read = y ++ [c] -> is_space c = false)).
  { intros line. destruct (strip_spec line) as (sp1 & sp2 & H).
    exists line, sp1, sp2, (strip line). tauto. }
  induction lines as [|a|a b|a b c|a b c d rest (IHe & IHn & IHr)] using lines_ind4.
  - repeat split; auto. simpl. intros i Hi. lia.
  - repeat split; try discriminate. simpl. intros i Hi. lia.
  - split; [split; discriminate|]. split; [reflexivity|].
    intros [|i] Hi; [apply Hstrip|simpl in Hi; lia].
  - split; [split; discriminate|]. split; [reflexivity|].
    intros [|i] Hi; [apply Hstrip|simpl in Hi; lia].
  - change (read_fastq (a :: b :: c :: d :: rest))
      with (let (reads, e) := read_fastq rest in (strip b :: reads, e)).
    destruct (read_fastq rest) as [reads e]. simpl fst in *. simpl snd in *.
    change (length (a :: b :: c :: d :: rest)) with (4 + length rest)%nat.
    split; [|split].
    + rewrite IHe. replace (4 + length rest)%nat with (length rest + 1 * 4)%nat by lia.
      now rewrite Nat.Div0.mod_add.
    + simpl length. rewrite IHn.
      replace (4 + length rest + 2)%nat with (length rest + 2 + 1 * 4)%nat by lia.
      rewrite Nat.div_add by lia. lia.
    + intros [|i] Hi; [apply Hstrip|].
      replace (4 * S i + 1)%nat with (4 + (4 * i + 1))%nat by lia.
      apply IHr. simpl in Hi. lia.
Qed.

(** A file of complete records gives one read per record. *)
Example read_fastq_two_records :
  read_fastq [s "@r1"; s "TCAGA "; s "+"; s "IIIII";
              s "@r2"; s " ACGT"; s "+"; s "IIII"] =
  ([s "TCAGA"; s "ACGT"], Exhausted).
Proof. reflexivity. Qed.

(** * Writing the contigs *)

Lemma last_app_nonempty {A : Type} (a b : list A) (d : A) :
  b <> [] -> last (a ++ b) d = last b d.
Proof.
  intros Hb. induction a as [|x a IH]; auto.
  change ((x :: a) ++ b) with (x :: (a ++ b)).
  rewrite last_cons_last, <- IH.
  destruct (a ++ b) eqn:E; [|apply last_cons_default].
  apply app_eq_nil in E as [_ E]. contradiction.
Qed.

Lemma chunks_spec (width : nat) :
  (1 <= width)%nat ->
  forall fuel x,
    (length x <= fuel)%nat ->
    concat (chunks fuel width x) = x /\
    (forall l, In l (chunks fuel width x) ->
               (1 <= length l)%nat /\ (length l <= width)%nat) /\
    (forall i l, nth_error (chunks fuel width x) i = Some l ->
                 (S i < length (chunks fuel width x))%nat -> length l = width) /\
    length (chunks fuel width x) = ((length x + width - 1) / width)%nat.
Proof.
  intros Hw. induction fuel as [|fuel IH]; intros x Hx.
  - destruct x; [|simpl in Hx; lia]. simpl. repeat split; try tauto.
    + intros i l H. destruct i; discriminate.
    + symmetry. apply Nat.div_small. lia.
  - destruct x as [|c x].
    + simpl. repeat split; try tauto.
      * intros i l H. destruct i; discriminate.
      * symmetry. apply Nat.div_small. lia.
    + change (chunks (S fuel) width (c :: x))
        with (firstn width (c :: x) :: chunks fuel width (skipn width (c :: x))).
      remember (c :: x) as y eqn:Hy.
      assert (Hlen : (1 <= length y)%nat) by (subst y; simpl; lia).
      destruct (IH (skipn width y)) as (Hc & Hl & Hn & Hcount).
      { rewrite length_skipn. lia. }
      split; [|split; [|split]].
      * simpl. rewrite Hc. apply firstn_skipn.
      * intros l [<-|Hin]; [rewrite length_firstn; lia|auto].
      * intros [|i] l Hi Hlt; simpl in Hi, Hlt.
        -- injection Hi as <-. rewrite length_firstn.
           rewrite Hcount, length_skipn in Hlt.
           destruct (le_lt_dec (length y) width) as [Hle|Hgt]; [|lia].
           replace (length y - width)%nat with 0%nat in Hlt by lia.
           rewrite Nat.div_small in Hlt by lia. lia.
        -- apply (Hn i l Hi). lia.
      * simpl length. rewrite Hcount, length_skipn.
        destruct (le_lt_dec (length y) width) as [Hle|Hgt].
        -- replace (length y - width)%nat with 0%nat by lia.
           rewrite Nat.div_small by lia.
           replace (length y + width - 1)%nat with (length y - 1 + 1 * width)%nat by lia.
           rewrite Nat.div_add by lia. rewrite Nat.div_small by lia. reflexivity.
        -- replace (length y + width - 1)%nat
             with (length y - width + width - 1 + 1 * width)%nat by lia.
           rewrite Nat.div_add by lia. lia.
Qed.

Lemma join_lines_filter (lines : list str) :
  (forall l, In l lines -> ~ In newline l) ->
  filter (fun c => negb (Ascii.eqb c newline)) (join_lines lines) = concat lines.
Proof.
  assert (Hline : forall l, ~ In newline l ->
                            filter (fun c => negb (Ascii.eqb c newline)) l = l).
  { intros l Hl. apply filter_all. intros c Hc.
    destruct (Ascii.eqb_spec c newline) as [->|]; [contradiction|reflexivity]. }
  destruct lines as [|l lines]; auto. intros Hno. simpl.
  rewrite filter_app, Hline by (apply Hno; now left). f_equal.
  assert (Hrest : forall l', In l' lines -> ~ In newline l')
    by (intros l' H; apply Hno; now right).
  clear Hno. induction lines as [|l' lines IH]; auto. simpl.
  rewrite filter_app, Hline by (apply Hrest; now left).
  rewrite IH; auto. intros x Hx. apply Hrest. now right.
Qed.

Lemma join_lines_last (lines : list str) (d : ascii) :
  (forall l, In l lines -> l <> []) ->
  last (join_lines lines) d = last (concat lines) d.
Proof.
  destruct lines as [|l lines]; auto. revert l.
  induction lines as [|l' lines IH]; intros l Hne; auto.
  change (join_lines (l :: l' :: lines))
    with (l ++ newline :: join_lines (l' :: lines)).
  change (concat (l :: l' :: lines)) with (l ++ concat (l' :: lines)).
  assert (l' <> []) as Hl' by (apply Hne; right; now left).
  rewrite !last_app_nonempty; try discriminate.
  - rewrite last_cons_last, <- IH by (intros x Hx; apply Hne; now right).
    destruct (join_lines (l' :: lines)) eqn:E; [|apply last_cons_default].
    simpl in E. apply app_eq_nil in E as [E _]. contradiction.
  - simpl. intros E. apply app_eq_nil in E as [E _]. contradiction.
Qed.

Lemma unbroken_no_newline (text : str) :
  unbroken text = true -> ~ In newline text.
Proof.
  unfold unbroken. rewrite forallb_forall. intros H Hin.
  apply H in Hin. discriminate.
Qed.

(** X18.  [textwrap.fill] as [save_contigs] uses it, on a sequence without
    whitespace and without hyphen: the sequence is cut into lines of exactly
    [width] characters, the last line being the shorter remainder, and the
    lines are joined by line feeds.  There are
    [(len + width - 1) / width] lines, none of them empty, and removing the
    line feeds gives the sequence back. *)
Theorem fill_wraps (text : str) (width : nat) :
  (1 <= width)%nat -> unbroken text = true ->
  exists lines,
    fill text width = Some (join_lines lines) /\
    concat lines = text /\
    length lines = ((length text + width - 1) / width)%nat /\
    (forall l, In l lines -> (1 <= length l)%nat /\ (length l <= width)%nat) /\
    (forall i l, nth_error lines i = Some l -> (S i < length lines)%nat ->
                 length l = width) /\
    filter (fun c => negb (Ascii.eqb c newline)) (join_lines lines) = text.
Proof.
  intros Hw Hu. unfold fill. rewrite Hu.
  destruct (chunks_spec width Hw (length text) text (le_n _))
    as (Hc & Hl & Hn & Hcount).
  exists (chunks (length text) width text).
  repeat split; auto; try (now apply Hl).
  rewrite join_lines_filter; auto.
  intros l Hin Hnl. apply (unbroken_no_newline text Hu).
  rewrite <- Hc. apply in_concat. eauto.
Qed.

Lemma fill_wraps_witness :
  exists lines,
    fill (s "TCAGA") 2 = Some (join_lines lines) /\
    concat lines = s "TCAGA" /\
    length lines = ((length (s "TCAGA") + 2 - 1) / 2)%nat /\
    (forall l, In l lines -> (1 <= length l)%nat /\ (length l <= 2)%nat) /\
    (forall i l, nth_error lines i = Some l -> (S i < length lines)%nat ->
                 length l = 2%nat) /\
    filter (fun c => negb (Ascii.eqb c newline)) (join_lines lines) = s "TCAGA".
Proof.
  apply (fill_wraps (s "TCAGA") 2); [lia|reflexivity].
Defined.

Lemma fill_last (text body : str) (width : nat) (d : ascii) :
  (1 <= width)%nat -> fill text width = Some body ->
  unbroken text = true /\ last body d = last text d.
Proof.
  intros Hw. unfold fill. destruct (unbroken text) eqn:Hu; [|discriminate].
  intros H. injection H as <-. split; auto.
  destruct (chunks_spec width Hw (length text) text (le_n _)) as (Hc & Hl & _).
  rewrite join_lines_last, Hc; auto.
  intros l Hin ->. apply Hl in Hin. simpl in Hin. lia.
Qed.

Lemma save_contigs_loop_file (contigs_list : list (str * nat)) :
  forall cpt file,
    save_contigs_loop contigs_list cpt file =
    option_map (fun written => file ++ written)
               (save_contigs_loop contigs_list cpt []).
Proof.
  induction contigs_list as [|c rest IH]; intros cpt file;
    cbn [save_contigs_loop option_map].
  - now rewrite app_nil_r.
  - destruct (fill (fst c) 80) as [body|]; auto.
    rewrite IH. rewrite (IH (S cpt) ([] ++ contig_header cpt (snd c) ++ body)).
    destruct (save_contigs_loop rest (S cpt) []); cbn [option_map]; auto.
    now rewrite <- app_assoc.
Qed.

Lemma save_contigs_loop_app (l1 l2 : list (str * nat)) :
  forall cpt file,
    save_contigs_loop (l1 ++ l2) cpt file =
    match save_contigs_loop l1 cpt file with
    | Some written => save_contigs_loop l2 (cpt + length l1) written
    | None => None
    end.
Proof.
  induction l1 as [|c l1 IH]; intros cpt file; simpl.
  - now rewrite Nat.add_0_r.
  - destruct (fill (fst c) 80) as [body|]; auto.
    rewrite IH. now rewrite Nat.add_succ_r.
Qed.

Lemma save_contigs_loop_total (contigs_list : list (str * nat)) :
  (forall c, In c contigs_list -> unbroken (fst c) = true) ->
  forall cpt file, exists written,
      save_contigs_loop contigs_list cpt file = Some written.
Proof.
  induction contigs_list as [|c rest IH]; intros Hu cpt file; simpl; eauto.
  unfold fill. rewrite (Hu c (or_introl eq_refl)).
  apply IH. intros x Hx. apply Hu. now right.
Qed.

(** X19.  The file that [save_contigs] writes, for contigs whose sequences
    hold no whitespace and no hyphen.  Its name is "contigs.fasta" whatever
    [output_file] is.  The contig at position [i] of the list is written
    after the entries of the contigs before it, as the header
    [>contig_i len=...] with the recorded length, followed by the wrapped
    sequence.  A non-empty wrapped sequence ends with the last character of
    the sequence, not with a line feed, and nothing is written between it
    and the header of the next contig, which therefore starts on the last
    line of the sequence. *)
Theorem save_contigs_layout (before : list (str * nat)) (c : str * nat)
        (after : list (str * nat)) (output_file : str) :
  (forall x, In x (before ++ c :: after) -> unbroken (fst x) = true) ->
  exists written body rest,
    save_contigs (before ++ c :: after) output_file =
      Some (s "contigs.fasta",
            written ++ contig_header (length before) (snd c) ++ body ++ rest) /\
    save_contigs before output_file = Some (s "contigs.fasta", written) /\
    fill (fst c) 80 = Some body /\
    (fst c <> [] ->
     last body newline = last (fst c) newline /\ last body newline <> newline) /\
    (after = [] -> rest = []) /\
    (forall c' after', after = c' :: after' ->
       exists rest', rest = contig_header (S (length before)) (snd c') ++ rest').
Proof.
  intros Hu. unfold save_contigs.
  destruct (save_contigs_loop_total before) with (cpt := 0%nat) (file := @nil ascii)
    as (written & Hw).
  { intros x Hx. apply Hu. apply in_or_app. now left. }
  assert (Hc : unbroken (fst c) = true)
    by (apply Hu; apply in_or_app; right; now left).
  destruct (fill (fst c) 80) as [body|] eqn:Hfill;
    [|unfold fill in Hfill; rewrite Hc in Hfill; discriminate].
  destruct (save_contigs_loop_total after) with (cpt := S (length before))
                                                (file := @nil ascii)
    as (rest & Hr).
  { intros x Hx. apply Hu. apply in_or_app. right. now right. }
  exists written, body, rest.
  rewrite save_contigs_loop_app, Hw. cbn [save_contigs_loop Nat.add].
  rewrite Hfill, save_contigs_loop_file, Hr. cbn [option_map].
  rewrite <- !app_assoc.
  split; [reflexivity|]. split; [reflexivity|]. split; [reflexivity|].
  split; [|split].
  - intros Hne.
    destruct (fill_last (fst c) body 80 newline) as [_ Hl]; [lia|exact Hfill|].
    split; auto. rewrite Hl. intros E.
    apply (unbroken_no_newline (fst c) Hc). rewrite <- E. now apply last_In.
  - intros ->. cbn [save_contigs_loop] in Hr. now injection Hr as <-.
  - intros c' after' ->. cbn [save_contigs_loop] in Hr.
    destruct (fill (fst c') 80) as [body'|]; [|discriminate].
    rewrite save_contigs_loop_file in Hr.
    destruct (save_contigs_loop after' (S (S (length before))) []) as [w|];
      [|discriminate].
    cbn [option_map] in Hr. injection Hr as <-.
    exists (body' ++ w). now rewrite <- app_assoc.
Qed.

Lemma save_contigs_layout_witness :
  exists written body rest,
    save_contigs ([(s "TCAGA", 5%nat)] ++ (s "ACGT", 4%nat) :: []) (s "out.fasta") =
      Some (s "contigs.fasta",
            written ++ contig_header (length [(s "TCAGA", 5%nat)])
                                     (snd (s "ACGT", 4%nat)) ++ body ++ rest) /\
    save_contigs [(s "TCAGA", 5%nat)] (s "out.fasta") =
      Some (s "contigs.fasta", written) /\
    fill (fst (s "ACGT", 4%nat)) 80 = Some body /\
    (fst (s "ACGT", 4%nat) <> [] ->
     last body newline = last (fst (s "ACGT", 4%nat)) newline /\
     last body newline <> newline) /\
    (@nil (str * nat) = [] -> rest = []) /\
    (forall (c' : str * nat) after', [] = c' :: after' ->
       exists rest', rest = contig_header (S (length [(s "TCAGA", 5%nat)])) (snd c')
                            ++ rest').
Proof.
  apply (save_contigs_layout [(s "TCAGA", 5%nat)] (s "ACGT", 4%nat) [] (s "out.fasta")).
  intros x [<-|[<-|[]]]; reflexivity.
Defined.

(** Two contigs: the second header follows the first sequence on the same
    line. *)
Example save_contigs_two :
  save_contigs [(s "TCAGA", 5%nat); (s "ACGT", 4%nat)] (s "out.fasta") =
  Some (s "contigs.fasta",
        s ">contig_0 len=5" ++ [newline] ++ s "TCAGA>contig_1 len=4" ++
        [newline] ++ s "ACGT").
Proof. reflexivity. Qed.
